(** * Shape detector: a shallow embedding of [src/public/shapeDetector.js]

    The JavaScript pipeline (binarisation, contour tracing, shoelace area,
    perimeter, Graham scan, Douglas-Peucker simplification and the final
    decision) is translated function by function.

    Modelling conventions.
    - A JavaScript number is an extended rational ([number]): a finite value,
      [+Infinity], [-Infinity] or [NaN]; the special values follow IEEE 754.
      Zero carries no sign: every division by zero of the source divides by
      a square, an absolute value or a square root, i.e. by [+0].
    - The binarisation compares a computed luminance with a threshold, so
      there every operation is rounded to binary64 as JavaScript does
      ([binary64]: to nearest, ties to even).  Elsewhere arithmetic on
      finite values is exact and a decimal literal such as [0.6] stands for
      the decimal it spells: the properties proved there are order
      properties that rounding preserves.
    - Pixel coordinates are integers ([Z]); a point [[x, y]] is a pair.
    - A [Uint8Array] is a [list Z]; reading outside the array gives
      [undefined] (a failed lookup) and writing outside does nothing, which
      is what stdpp's [!!] and [<[ i := v ]>] do.
    - An array of points is a [list point].  Where the source leaves or
      returns an array that holds [undefined] ([calculateConvexHull] on
      fewer than two points), the array is [None].
    - [Math.sqrt] belongs to the JavaScript runtime, not to the repository:
      it is a parameter ([MathRuntime]) constrained by the facts the proofs
      use: its values are not negative, and 0 only at 0.
    - Canvas drawing, logging and the debug image are output only and are
      left out.
    - Of the callers in [src/public/index.js] the two decisions are
      translated: the label read off the outputs of the network and the
      fallback of [predict] on [detectShape].  The network, the page and
      the file system are outside the model. *)

From Stdlib Require Import ZArith QArith Qabs Qround Qpower Lia Lqa.
From stdpp Require Import base list sorting.

Local Open Scope Z_scope.

(** ** JavaScript numbers *)

Inductive number : Type :=
| NaN
| PInf
| NInf
| Fin (q : Q).

Definition Qlt_bool (x y : Q) : bool := negb (Qle_bool y x).

(** [a > b] *)
Definition num_gt (a b : number) : bool :=
  match a, b with
  | NaN, _ | _, NaN => false
  | PInf, PInf => false
  | PInf, _ => true
  | _, PInf => false
  | NInf, _ => false
  | Fin _, NInf => true
  | Fin x, Fin y => Qlt_bool y x
  end.

(** [a + b] *)
Definition num_add (a b : number) : number :=
  match a, b with
  | NaN, _ | _, NaN => NaN
  | PInf, NInf | NInf, PInf => NaN
  | PInf, _ | _, PInf => PInf
  | NInf, _ | _, NInf => NInf
  | Fin x, Fin y => Fin (x + y)
  end.

(** [a - b] *)
Definition num_sub (a b : number) : number :=
  match a, b with
  | NaN, _ | _, NaN => NaN
  | PInf, PInf | NInf, NInf => NaN
  | PInf, _ | _, NInf => PInf
  | NInf, _ | _, PInf => NInf
  | Fin x, Fin y => Fin (x - y)
  end.

(** the sign of an infinite product or quotient *)
Definition signed_inf (negative : bool) : number :=
  if negative then NInf else PInf.

(** [a * b] *)
Definition num_mul (a b : number) : number :=
  match a, b with
  | NaN, _ | _, NaN => NaN
  | Fin x, Fin y => Fin (x * y)
  | Fin x, PInf | PInf, Fin x =>
      if Qeq_bool x 0 then NaN else signed_inf (Qlt_bool x 0)
  | Fin x, NInf | NInf, Fin x =>
      if Qeq_bool x 0 then NaN else signed_inf (negb (Qlt_bool x 0))
  | PInf, PInf | NInf, NInf => PInf
  | PInf, NInf | NInf, PInf => NInf
  end.

(** [a / b]; a zero divisor is [+0] *)
Definition num_div (a b : number) : number :=
  match a, b with
  | NaN, _ | _, NaN => NaN
  | Fin x, Fin y =>
      if Qeq_bool y 0
      then (if Qeq_bool x 0 then NaN else signed_inf (Qlt_bool x 0))
      else Fin (x / y)
  | Fin _, _ => Fin 0
  | PInf, Fin y => signed_inf (Qlt_bool y 0)
  | NInf, Fin y => signed_inf (negb (Qlt_bool y 0))
  | _, _ => NaN
  end.

(** [Math.min(a, b)] *)
Definition Math_min (a b : number) : number :=
  match a, b with
  | NaN, _ | _, NaN => NaN
  | NInf, _ | _, NInf => NInf
  | PInf, c | c, PInf => c
  | Fin x, Fin y => if Qle_bool x y then Fin x else Fin y
  end.

(** [Math.abs(a)] *)
Definition Math_abs (a : number) : number :=
  match a with
  | NaN => NaN
  | PInf | NInf => PInf
  | Fin x => Fin (Qabs x)
  end.

(** The nearest integer, the even one of two that are as near. *)
Definition round_half_even (q : Q) : Z :=
  let f := Qfloor q in
  match (q - inject_Z f ?= 1 # 2)%Q with
  | Lt => f
  | Gt => f + 1
  | Eq => if Z.even f then f else f + 1
  end.

(** The exponent [e] with [2^e <= |q| < 2^(e+1)], for [q] other than 0. *)
Definition binade (q : Q) : Z :=
  let e := Z.log2 (Z.abs (Qnum q)) - Z.log2 (Z.pos (Qden q)) in
  if Qle_bool (2 ^ e) (Qabs q) then e else e - 1.

(** Rounding to binary64: to the nearest number with 53 significant binary
    digits, ties to even.  The range of the exponent is not bounded; the
    values rounded in this file lie between 2^-4 and 2^9 or are 0. *)
Definition binary64 (q : Q) : Q :=
  if Qeq_bool q 0 then 0%Q
  else
    let ulp := (2 ^ (binade q - 52))%Q in
    (inject_Z (round_half_even (q / ulp)) * ulp)%Q.

(** [x * y] and [x + y] on binary64 numbers. *)
Definition fmul (x y : Q) : Q := binary64 (x * y).
Definition fadd (x y : Q) : Q := binary64 (x + y).

(** [Math.PI], the binary64 value, which is a rational *)
Definition Math_PI : Q := 884279719003555 # 281474976710656.

(** Equality of numbers as values ([Q] has several spellings of a rational). *)
Definition num_eq (a b : number) : Prop :=
  match a, b with
  | NaN, NaN | PInf, PInf | NInf, NInf => True
  | Fin x, Fin y => (x == y)%Q
  | _, _ => False
  end.

(** [a] is a finite value between [lo] and [hi], bounds included. *)
Definition num_between (lo hi : Q) (a : number) : Prop :=
  match a with
  | Fin x => (lo <= x)%Q /\ (x <= hi)%Q
  | _ => False
  end.

(** The part of the runtime the detector calls with a result that is not a
    rational function of its argument.  The argument of [Math.sqrt] is, at
    both call sites, a sum of two squares of coordinate differences. *)
Class MathRuntime : Type := {
  Math_sqrt : Z -> Q;
  Math_sqrt_nonneg : forall n, (0 <= Math_sqrt n)%Q;
  Math_sqrt_pos : forall n, 0 < n -> (0 < Math_sqrt n)%Q;
  Math_sqrt_0 : (Math_sqrt 0 == 0)%Q
}.

(** ** Configuration ([CONFIG]) *)

Module CONFIG.
Definition circularity : Q := 6 # 10.
Definition triangleCorners : nat := 3.
Definition triangleTolerance : Q := 25 # 100.
Definition contourMinArea : Q := 20.
Definition thresholdValue : Z := 5.
End CONFIG.

(** ** Result of a detection *)

Inductive shape : Type := circle | triangle | unknown.

Record metrics : Type := {
  area : number;
  perimeter : number;
  circularity : number;
  solidity : number;
  numCorners : nat
}.

Record detection : Type := {
  detectedShape : shape;
  confidence : number;
  result_metrics : option metrics
}.

(** ** The decision of [detectShape] (source lines 151-240) *)

(** "Circle detection": [isCircle] and [circleConfidence]. *)
Definition circle_detection (circ : number) : bool * number :=
  if num_gt circ (Fin CONFIG.circularity)
  then (true,
        Math_min (Fin 1)
          (num_div (num_sub circ (Fin CONFIG.circularity))
                   (num_sub (Fin 1) (Fin CONFIG.circularity))))
  else (false, Fin 0).

(** "Triangle detection": [isTriangle] and [triangleConfidence]. *)
Definition triangle_detection (corners : nat) (sol : number) : bool * number :=
  if Nat.eqb corners 3 && num_gt sol (Fin (85 # 100))
  then (true, Math_min (Fin 1) sol)
  else (false, Fin 0).

(** "Determine the shape": the four-way branch on the two hypotheses. *)
Definition determine_shape (circ sol : number) (corners : nat) : shape * number :=
  let '(isCircle, circleConfidence) := circle_detection circ in
  let '(isTriangle, triangleConfidence) := triangle_detection corners sol in
  if isCircle && negb isTriangle then (circle, circleConfidence)
  else if isTriangle && negb isCircle then (triangle, triangleConfidence)
  else if isCircle && isTriangle then
    if num_gt circleConfidence triangleConfidence
    then (circle, num_sub circleConfidence triangleConfidence)
    else (triangle, num_sub triangleConfidence circleConfidence)
  else if Nat.leb corners 4 then (triangle, Fin (5 # 10))
  else (circle, Fin (5 # 10)).

(** ** Contours and their measures *)

Definition point : Type := Z * Z.

(** The index pairs [(i, (i + 1) % n)] of the measuring loops, as the pairs
    of points they read: each point with its successor, the last point with
    the first. *)
Definition cyclic_pairs (contour : list point) : list (point * point) :=
  match contour with
  | [] => []
  | p :: rest => zip contour (rest ++ [p])
  end.

(** The accumulator of [calculateContourArea] before halving; the operands
    are integers, so the sum is kept in [Z]. *)
Definition shoelace (contour : list point) : Z :=
  foldl (fun acc '((xi, yi), (xj, yj)) => acc + xi * yj - xj * yi) 0
        (cyclic_pairs contour).

Definition calculateContourArea (contour : list point) : number :=
  Math_abs (num_div (Fin (inject_Z (shoelace contour))) (Fin 2)).

Definition calculateCircularity (area perimeter : number) : number :=
  num_div (num_mul (num_mul (Fin 4) (Fin Math_PI)) area)
          (num_mul perimeter perimeter).

Definition calculateCentroid (contour : list point) : number * number :=
  let sumX := foldl (fun acc '(x, _) => acc + x) 0 contour in
  let sumY := foldl (fun acc '(_, y) => acc + y) 0 contour in
  let n := Fin (inject_Z (Z.of_nat (length contour))) in
  (num_div (Fin (inject_Z sumX)) n, num_div (Fin (inject_Z sumY)) n).

Definition isCounterClockwise (p1 p2 p3 : point) : bool :=
  0 <? (p2.1 - p1.1) * (p3.2 - p1.2) - (p2.2 - p1.2) * (p3.1 - p1.1).

Section WithRuntime.
Context `{MathRuntime}.

Definition calculateContourPerimeter (contour : list point) : number :=
  foldl (fun acc '((xi, yi), (xj, yj)) =>
           let dx := xj - xi in
           let dy := yj - yi in
           num_add acc (Fin (Math_sqrt (dx * dx + dy * dy))))
        (Fin 0) (cyclic_pairs contour).

Definition perpendicularDistance (pt lineStart lineEnd : point) : number :=
  let '(x, y) := pt in
  let '(x1, y1) := lineStart in
  let '(x2, y2) := lineEnd in
  let area := Z.abs ((y2 - y1) * x - (x2 - x1) * y + x2 * y1 - y2 * x1) in
  let length := Math_sqrt ((y2 - y1) ^ 2 + (x2 - x1) ^ 2) in
  num_div (Fin (inject_Z area)) (Fin length).

(** The loop of [approxPolyDP] over [contour[i]], [i] from [1] to
    [length - 2]: [pts] are the points still to visit, [i] the index of the
    first of them. *)
Fixpoint farthest (pts : list point) (i : nat) (firstPoint lastPoint : point)
    (maxDist : number) (index : nat) : number * nat :=
  match pts with
  | [] => (maxDist, index)
  | p :: pts' =>
      let dist := perpendicularDistance p firstPoint lastPoint in
      if num_gt dist maxDist
      then farthest pts' (S i) firstPoint lastPoint dist i
      else farthest pts' (S i) firstPoint lastPoint maxDist index
  end.

(** [contour.slice(1, contour.length - 1)] *)
Definition interior (contour : list point) : list point :=
  take (length contour - 2) (drop 1 contour).

(** [fuel] bounds the depth of the recursion; [None] is a run that needs
    more (the source recurses on [contour.slice(index)], which is the whole
    contour when [index] is 0). *)
Fixpoint approxPolyDP (fuel : nat) (contour : list point) (epsilon : number)
    : option (list point) :=
  if (length contour <=? 2)%nat then Some contour
  else
    match fuel with
    | O => None
    | S fuel' =>
        match head contour, last contour with
        | Some firstPoint, Some lastPoint =>
            let '(maxDist, index) :=
              farthest (interior contour) 1 firstPoint lastPoint (Fin 0) 0 in
            if num_gt maxDist epsilon then
              match approxPolyDP fuel' (take (index + 1) contour) epsilon,
                    approxPolyDP fuel' (drop index contour) epsilon with
              | Some firstHalf, Some secondHalf =>
                  Some (take (length firstHalf - 1) firstHalf ++ secondHalf)
              | _, _ => None
              end
            else Some [firstPoint; lastPoint]
        | _, _ => None
        end
    end.
End WithRuntime.

(** ** Convex hull (Graham scan) *)

(** The test of the anchor search: [p] is lower than [q], or as low and
    further left. *)
Definition lower (p q : point) : bool :=
  (p.2 <? q.2) || ((p.2 =? q.2) && (p.1 <? q.1)).

(** The anchor search over [contour[i]], [i >= 1]; [best] is
    [contour[start]]. *)
Fixpoint find_start (pts : list point) (i start : nat) (best : point) : nat :=
  match pts with
  | [] => start
  | p :: pts' =>
      if lower p best then find_start pts' (S i) i p
      else find_start pts' (S i) start best
  end.

(** [[contour[0], contour[start]] = [contour[start], contour[0]]], on the
    caller's array, for an array with a first element and an index [start]
    inside it (the anchor search returns one).  The empty array, where the
    assignment writes [undefined] at index 0, is treated in
    [calculateConvexHull]. *)
Definition swap_to_front (contour : list point) (start : nat) : list point :=
  match contour !! 0%nat, contour !! start with
  | Some p0, Some ps => <[start := p0]> (<[0%nat := ps]> contour)
  | _, _ => contour
  end.

(** Where [Math.atan2(v.2, v.1)] lies: in [(-pi, 0)], at [0], in [(0, pi)]
    or at [pi]. *)
Definition angle_class (v : point) : Z :=
  if v.2 <? 0 then 0 else if 0 <? v.2 then 2 else if v.1 <? 0 then 3 else 1.

Definition cross (u v : point) : Z := u.1 * v.2 - u.2 * v.1.

(** The sign of [Math.atan2(u.2, u.1) - Math.atan2(v.2, v.1)], computed
    exactly: two directions of one class compare by their cross product. *)
Definition angle_compare (u v : point) : comparison :=
  match angle_class u ?= angle_class v with
  | Eq => 0 ?= cross u v
  | c => c
  end.

Definition vec (origin p : point) : point := (p.1 - origin.1, p.2 - origin.2).

(** The comparator passed to [sort]. *)
Definition by_polar_angle (startPoint a b : point) : comparison :=
  angle_compare (vec startPoint a) (vec startPoint b).

(** [Array.prototype.sort] is stable: an element goes before the first
    element that does not compare below it. *)
Fixpoint sort_insert (cmp : point -> point -> comparison) (a : point)
    (sorted : list point) : list point :=
  match sorted with
  | [] => [a]
  | b :: sorted' =>
      match cmp a b with
      | Gt => b :: sort_insert cmp a sorted'
      | _ => a :: sorted
      end
  end.

Definition sort (cmp : point -> point -> comparison) (pts : list point)
    : list point :=
  foldr (sort_insert cmp) [] pts.

(** The [while] loop of the scan; the hull is held top first. *)
Fixpoint pop_while (hull : list point) (p : point) : list point :=
  match hull with
  | top :: (below :: _) as hull' =>
      if isCounterClockwise below top p then hull else pop_while hull' p
  | _ => hull
  end.

Definition graham_scan (startPoint : point) (sortedPoints : list point)
    : option (list point) :=
  match sortedPoints with
  | [] => None
  | q :: rest =>
      Some (rev (foldl (fun hull p => p :: pop_while hull p)
                       [q; startPoint] rest))
  end.

(** [calculateConvexHull] returns the hull and, because it swaps inside the
    array it is given, changes its argument: the first component is the
    caller's array after the call, the second the array returned.  An array
    that holds [undefined] is [None], in both components:
    - given the empty array, the assignment of line 491 writes
      [contour[0] = undefined], so the caller's array is [[undefined]]
      (length 1) after the call, and the array returned is
      [[undefined, undefined]];
    - given one point [p], the caller's array stays [[p]] and the array
      returned is [[p, undefined]].
    [calculateContourArea] raises a TypeError on a hull that holds
    [undefined]. *)
Definition calculateConvexHull (contour : list point)
    : option (list point) * option (list point) :=
  match contour with
  | [] => (None, None)
  | p0 :: pts =>
      let start := find_start pts 1 0 p0 in
      let contour' := swap_to_front contour start in
      (Some contour',
       match contour' with
       | [] => None
       | startPoint :: others =>
           graham_scan startPoint (sort (by_polar_angle startPoint) others)
       end)
  end.

(** ** Typed arrays *)

(** [a[idx]]: [None] is [undefined]. *)
Definition get (a : list Z) (idx : Z) : option Z :=
  if idx <? 0 then None else a !! Z.to_nat idx.

(** [a[idx] = v]: nothing is written outside the array. *)
Definition set (a : list Z) (idx v : Z) : list Z :=
  if idx <? 0 then a else <[Z.to_nat idx := v]> a.

(** [a[idx] === v] *)
Definition reads (a : list Z) (idx v : Z) : bool :=
  match get a idx with
  | Some u => u =? v
  | None => false
  end.

(** Storing a number in a [Uint8Array]: truncate, then reduce modulo 256;
    [NaN] and the infinities become 0. *)
Definition ToUint8 (x : number) : Z :=
  match x with
  | Fin q => (Z.quot (Qnum q) (Z.pos (Qden q))) mod 256
  | _ => 0
  end.

(** ** Binarisation (source lines 46-64) *)

Record canvas : Type := {
  canvas_width : nat;
  canvas_height : nat;
  canvas_data : list Z          (* [imageData.data]: R, G, B, A per pixel *)
}.

(** The literals [0.299], [0.587] and [0.114] are the binary64 numbers
    nearest to these decimals; the channels are integers and [1.5] is a
    binary64 number.  The sum is formed from the left. *)
Definition luminance (r g b : Z) (a : option Z) : number :=
  let boost : Q :=
    match a with
    | Some a => if 200 <? a then (15 # 10)%Q else 1%Q
    | None => 1%Q
    end in
  Fin (fmul (fadd (fadd (fmul (binary64 (299 # 1000)) (inject_Z r))
                        (fmul (binary64 (587 # 1000)) (inject_Z g)))
                  (fmul (binary64 (114 # 1000)) (inject_Z b)))
            boost).

(** The value stored in [gray[k]].  A channel missing from a short buffer
    reads [undefined]: as R, G or B it makes the luminance [NaN], stored
    as 0; as A it fails the test [a > 200]. *)
Definition gray_at (data : list Z) (k : nat) : Z :=
  match data !! (4 * k)%nat, data !! (4 * k + 1)%nat, data !! (4 * k + 2)%nat with
  | Some r, Some g, Some b =>
      ToUint8 (Math_min (Fin 255) (luminance r g b (data !! (4 * k + 3)%nat)))
  | _, _, _ => 0
  end.

Definition grayscale (cv : canvas) : list Z :=
  gray_at (canvas_data cv) <$> seq 0 (canvas_width cv * canvas_height cv).

Definition threshold_image (threshold : Z) (gray : list Z) : list Z :=
  (fun g => if threshold <? g then 255 else 0) <$> gray.

Definition binarize (cv : canvas) : list Z :=
  threshold_image CONFIG.thresholdValue (grayscale cv).

(** ** Contour tracing *)

(** The pixels [(x, y)] of the two nested loops [y = 1 .. height - 2],
    [x = 1 .. width - 2], in the order the loops visit them. *)
Definition interior_pixels (width height : Z) : list point :=
  y ← seqZ 1 (height - 2); x ← seqZ 1 (width - 2); [(x, y)].

Definition offsets3 : list Z := [-1; 0; 1].

(** The 3x3 sum around [(x, y)]; a cell outside the array makes it [NaN]. *)
Definition box_sum (enhanced : list Z) (width x y : Z) : option Z :=
  foldl (fun acc cell =>
           match acc, cell with
           | Some s, Some v => Some (s + v)
           | _, _ => None
           end)
        (Some 0)
        (dy ← offsets3; dx ← offsets3;
         [get enhanced ((y + dy) * width + (x + dx))]).

(** The body of the two loops of the blur: [blurred[idx] = ...]. *)
Definition blur_pixel (enhanced : list Z) (width : Z) (blurred : list Z)
    (p : point) : list Z :=
  let '(x, y) := p in
  let idx := y * width + x in
  let v := match box_sum enhanced width x y with
           | Some sum => if 255 * 1 <? sum then 255 else 0
           | None => 0
           end in
  set blurred idx v.

Definition blur (enhanced : list Z) (width height : Z) : list Z :=
  foldl (blur_pixel enhanced width)
        (replicate (length enhanced) 0)
        (interior_pixels width height).

Definition directions : list (Z * Z) :=
  [(-1, -1); (0, -1); (1, -1);
   (-1, 0); (1, 0);
   (-1, 1); (0, 1); (1, 1)].

Definition in_bounds (width height nx ny : Z) : bool :=
  negb ((nx <? 0) || (ny <? 0) || (nx >=? width) || (ny >=? height)).

(** The pixel passes the bounds check, is part of the shape and is not
    visited. *)
Definition available (binary visited : list Z) (width height : Z) (p : point)
    : bool :=
  let '(nx, ny) := p in
  in_bounds width height nx ny
  && reads binary (ny * width + nx) 255
  && reads visited (ny * width + nx) 0.

Definition shift (x y : Z) (d : Z * Z) : point := (x + d.1, y + d.2).

(** "Try all 8 directions": the first neighbour that is available. *)
Definition find_direction (binary visited : list Z) (width height x y : Z)
    : option point :=
  List.find (available binary visited width height)
            (map (shift x y) directions).

(** The offsets of the three nested loops of the gap search for one [r]. *)
Definition square_offsets (r : Z) : list (Z * Z) :=
  dy ← seqZ (- r) (2 * r + 1); dx ← seqZ (- r) (2 * r + 1);
  if (dx =? 0) && (dy =? 0) then [] else [(dx, dy)].

(** "Try to find the next closest unvisited pixel": [r = 2], then [r = 3];
    the flag [found] stops the loops at the first hit. *)
Definition find_gap (binary visited : list Z) (width height x y : Z)
    : option point :=
  List.find (available binary visited width height)
            (map (shift x y) (square_offsets 2 ++ square_offsets 3)).

Record trace_state : Type := {
  ts_visited : list Z;
  ts_contour : list point;
  ts_stack : list point          (* top first *)
}.

(** [visited[idx] = 1; contour.push([nx, ny]); stack.push([nx, ny])] *)
Definition take_pixel (width : Z) (visited : list Z) (contour stack : list point)
    (p : point) : trace_state :=
  {| ts_visited := set visited (p.2 * width + p.1) 1;
     ts_contour := contour ++ [p];
     ts_stack := p :: stack |}.

(** One turn of the [while] loop, entered with a non-empty stack whose top
    is [(x, y)] and whose rest is [stack]. *)
Definition trace_step (binary : list Z) (width height : Z)
    (visited : list Z) (contour : list point) (x y : Z) (stack : list point)
    : trace_state :=
  match find_direction binary visited width height x y with
  | Some p => take_pixel width visited contour stack p
  | None =>
      if (length stack =? 0)%nat && (1 <? length contour)%nat then
        match find_gap binary visited width height x y with
        | Some p => take_pixel width visited contour stack p
        | None => {| ts_visited := visited; ts_contour := contour;
                     ts_stack := stack |}
        end
      else {| ts_visited := visited; ts_contour := contour;
              ts_stack := stack |}
  end.

(** The [while (stack.length > 0)] loop; [None] is a run that needs more
    than [fuel] turns. *)
Fixpoint trace_loop (fuel : nat) (binary : list Z) (width height : Z)
    (st : trace_state) : option trace_state :=
  match ts_stack st with
  | [] => Some st
  | (x, y) :: stack =>
      match fuel with
      | O => None
      | S fuel' =>
          trace_loop fuel' binary width height
            (trace_step binary width height
               (ts_visited st) (ts_contour st) x y stack)
      end
  end.

(** [traceContour] returns the contour and leaves its marks in [visited]:
    the result is the array after the call and the contour.  Every turn
    either marks a pixel or shortens the stack, so twice the size of
    [visited] and two more turns are enough (see [traceContour_spec]). *)
Definition traceContour (binary visited : list Z) (width height startX startY : Z)
    : option (list Z * list point) :=
  let st := {| ts_visited := set visited (startY * width + startX) 1;
               ts_contour := [(startX, startY)];
               ts_stack := [(startX, startY)] |} in
  match trace_loop (2 * length visited + 2) binary width height st with
  | Some st' => Some (ts_visited st', ts_contour st')
  | None => None
  end.

(** The scan for starting points over the pixels still to visit. *)
Fixpoint scan_pixels (blurred : list Z) (width height : Z) (pixels : list point)
    (visited : list Z) (contours : list (list point))
    : option (list Z * list (list point)) :=
  match pixels with
  | [] => Some (visited, contours)
  | (x, y) :: pixels' =>
      let idx := y * width + x in
      if reads blurred idx 255 && reads visited idx 0 then
        match traceContour blurred visited width height x y with
        | Some (visited', contour) =>
            scan_pixels blurred width height pixels' visited'
              (if (2 <? length contour)%nat then contours ++ [contour]
               else contours)
        | None => None
        end
      else scan_pixels blurred width height pixels' visited contours
  end.

Definition enhance (binary : list Z) : list Z :=
  (fun v => if 0 <? v then 255 else 0) <$> binary.

Definition findContours (binary : list Z) (width height : Z)
    : option (list (list point)) :=
  let blurred := blur (enhance binary) width height in
  let visited := replicate (length blurred) 0 in
  match scan_pixels blurred width height (interior_pixels width height)
                    visited [] with
  | Some (_, contours) => Some contours
  | None => None
  end.

(** ** The detector *)

Section Detector.
Context `{MathRuntime}.

(** [validContours.reduce(...)]: the first contour of largest area. *)
Definition largest (first : list point) (others : list (list point))
    : list point :=
  foldl (fun prev current =>
           if num_gt (calculateContourArea current) (calculateContourArea prev)
           then current else prev)
        first others.

(** [None] stands for a run without a result: a loop out of fuel or the
    TypeError of a hull that holds [undefined] (line 139, before the
    contour is used again).  The contour handed to [approxPolyDP] is the
    array [calculateConvexHull] has worked on.  The centroid goes to the
    debug drawing only and is not computed here. *)
Definition detectShape (cv : canvas) : option detection :=
  let width := Z.of_nat (canvas_width cv) in
  let height := Z.of_nat (canvas_height cv) in
  match findContours (binarize cv) width height with
  | None => None
  | Some contours =>
      let validContours :=
        List.filter
          (fun contour =>
             num_gt (calculateContourArea contour) (Fin CONFIG.contourMinArea))
          contours in
      match validContours with
      | [] => Some {| detectedShape := unknown; confidence := Fin 0;
                      result_metrics := None |}
      | first :: others =>
          let mainContour := largest first others in
          let area := calculateContourArea mainContour in
          let perimeter := calculateContourPerimeter mainContour in
          let circularity := calculateCircularity area perimeter in
          let '(mainContour, convexHull) := calculateConvexHull mainContour in
          match mainContour, convexHull with
          | Some mainContour, Some convexHull =>
              let convexArea := calculateContourArea convexHull in
              let solidity := num_div area convexArea in
              let epsilon :=
                num_mul (Fin CONFIG.triangleTolerance) perimeter in
              match approxPolyDP (length mainContour) mainContour epsilon with
              | None => None
              | Some approximatedPolygon =>
                  let numCorners := length approximatedPolygon in
                  let '(detectedShape, confidence) :=
                    determine_shape circularity solidity numCorners in
                  Some {| detectedShape := detectedShape;
                          confidence := confidence;
                          result_metrics :=
                            Some {| area := area; perimeter := perimeter;
                                    circularity := circularity;
                                    solidity := solidity;
                                    numCorners := numCorners |} |}
              end
          | _, _ => None
          end
      end
  end.
End Detector.

(** ** A runtime to compute with *)

(** A square root in fixed point with 52 binary digits after the point:
    the integer square root of [n * 2^104], over [2^52]. *)
Definition fixed_sqrt (n : Z) : Q := Z.sqrt (n * 2 ^ 104) # (2 ^ 52).

Definition fixed_point_runtime : MathRuntime.
Proof.
  refine {| Math_sqrt := fixed_sqrt |}.
  - intros n. unfold fixed_sqrt, Qle; simpl. rewrite Z.mul_1_r.
    apply Z.sqrt_nonneg.
  - intros n Hn. unfold fixed_sqrt, Qlt; simpl. rewrite Z.mul_1_r.
    apply Z.sqrt_pos. lia.
  - reflexivity.
Defined.

(** ** Vocabulary of the statements *)

(** *** Numbers and the decision *)

Definition is_NaN (a : number) : bool :=
  match a with NaN => true | _ => false end.

(** The two confidences as the source computes them when the hypothesis
    holds. *)
Definition circleConfidence_of (circ : number) : number :=
  Math_min (Fin 1)
    (num_div (num_sub circ (Fin CONFIG.circularity))
             (num_sub (Fin 1) (Fin CONFIG.circularity))).

Definition triangleConfidence_of (sol : number) : number :=
  Math_min (Fin 1) sol.

(** *** Binarisation *)

(** The luminance of a pixel after the boost and the clamp at 255. *)
Definition clamped_luminance (r g b a : Z) : number :=
  Math_min (Fin 255) (luminance r g b (Some a)).

(** A canvas of one pixel: a dim blue, opaque. *)
Definition dim_blue_pixel : canvas :=
  {| canvas_width := 1; canvas_height := 1; canvas_data := [0; 0; 30; 255] |}.

(** A canvas of one pixel: a dark grey, opaque. *)
Definition dark_grey_pixel : canvas :=
  {| canvas_width := 1; canvas_height := 1; canvas_data := [4; 4; 4; 255] |}.

(** *** Measures *)

Definition segment_length `{MathRuntime} (pr : point * point) : Q :=
  let '((xi, yi), (xj, yj)) := pr in
  let dx := xj - xi in
  let dy := yj - yi in
  Math_sqrt (dx * dx + dy * dy).

(** *** Tracing *)

(** [p] is another pixel than [(x, y)], at most [r] columns and [r] rows
    away. *)
Definition within (r x y : Z) (p : point) : Prop :=
  p <> (x, y) /\ - r <= p.1 - x <= r /\ - r <= p.2 - y <= r.

(** The state in which the loop stops: nothing marked, nothing appended,
    the stack empty. *)
Definition stopped (visited : list Z) (contour : list point) : trace_state :=
  {| ts_visited := visited; ts_contour := contour; ts_stack := [] |}.

(** A row of five pixels: the start pixel stands alone and the next
    foreground pixel is two columns away. *)
Definition gapped_row : list Z := [255; 0; 255; 0; 0].

Definition pixel_index (width : Z) (p : point) : Z := p.2 * width + p.1.

Definition inside (width height : Z) (p : point) : Prop :=
  0 <= p.1 < width /\ 0 <= p.2 < height.

(** The marks of [visited0] are kept in [visited]: an entry is what it was,
    or it was 0 and is 1. *)
Definition marks_kept (visited0 visited : list Z) : Prop :=
  forall i, get visited i = get visited0 i
            \/ (get visited0 i = Some 0 /\ get visited i = Some 1).

(** The number of entries that are 0. *)
Definition unvisited (visited : list Z) : nat :=
  length (List.filter (Z.eqb 0) visited).

(** What holds of a point of the contour: it lies in the image, is part of
    the shape, was not visited when the trace began and is visited now. *)
Definition traced (binary : list Z) (width height : Z) (visited0 visited : list Z)
    (p : point) : Prop :=
  inside width height p
  /\ get binary (pixel_index width p) = Some 255
  /\ get visited0 (pixel_index width p) = Some 0
  /\ get visited (pixel_index width p) = Some 1.

Record trace_inv (binary : list Z) (width height : Z) (visited0 : list Z)
    (start : point) (visited : list Z) (contour : list point) : Prop := {
  ti_marks : marks_kept visited0 visited;
  ti_nodup : NoDup contour;
  ti_head : head contour = Some start;
  ti_points : Forall (traced binary width height visited0 visited) contour
}.

(** The first point of the contour is its lowest point, the leftmost of the
    lowest: no later point is lower, or as low and further left. *)
Definition anchored (contour : list point) : Prop :=
  match contour with
  | [] => False
  | p0 :: pts => Forall (fun p => lower p p0 = false) pts
  end.

(** The pixels come row by row from the top, and from the left within a
    row: no pixel is lower than a later one. *)
Definition row_major (pixels : list point) : Prop :=
  StronglySorted (fun p q => lower q p = false) pixels.

Record scan_inv (blurred : list Z) (width height : Z) (pixels : list point)
    (visited : list Z) (contours : list (list point)) : Prop := {
  si_nodup : NoDup (concat contours);
  si_points :
    Forall (Forall (fun p => inside width height p
                             /\ get visited (pixel_index width p) = Some 1))
           contours;
  si_length : Forall (fun contour => (3 <= length contour)%nat) contours;
  si_anchored : Forall anchored contours;
  (** a pixel of the shape that is not visited is still to come *)
  si_pending :
    forall p, inside width height p ->
              get blurred (pixel_index width p) = Some 255 ->
              get visited (pixel_index width p) = Some 0 ->
              p ∈ pixels
}.

(** An image of 8 by 8 pixels with a bright square of 2 by 2 pixels. *)
Definition small_square : list Z :=
  (fun k => if bool_decide (k ∈ [27; 28; 35; 36]%nat) then 255 else 0)
    <$> seq 0 64.

(** *** The hull *)

(** A direction whose polar angle lies in [[0, pi)]: the directions from the
    anchor to the other points of a contour. *)
Definition upper (v : point) : Prop := 0 < v.2 \/ (v.2 = 0 /\ 0 < v.1).

(** The sum of [cross (p - s) (q - s)] over the steps [(p, q)] of the
    chain that goes from [a] through the points of [l] to [b]. *)
Fixpoint fan (s a : point) (l : list point) (b : point) : Z :=
  match l with
  | [] => cross (vec s a) (vec s b)
  | x :: l' => cross (vec s a) (vec s x) + fan s x l' b
  end.

(** Counter-clockwise order of the points seen from [s]. *)
Definition ccw_le (s p q : point) : Prop := 0 <= cross (vec s p) (vec s q).

(** The hull [s :: hs] while the points of [remaining] are still to
    come. *)
Record hull_inv (s q0 : point) (hs remaining : list point) : Prop := {
  hi_nonempty : hs <> [];
  hi_sorted : StronglySorted (ccw_le s) hs;
  hi_upper : Forall (fun p => upper (vec s p)) hs;
  hi_first : exists h1, head hs = Some h1 /\ cross (vec s h1) (vec s q0) = 0;
  hi_before : Forall (fun h => Forall (ccw_le s h) remaining) hs
}.

(** ** The callers of the detector ([src/public/index.js]) *)

(** Of [index.js] the two places that decide what the user is told: the
    label read off the outputs of the network, and the part of [predict]
    that falls back on [detectShape].  The label is computed the same way
    in [src/predict.js]. *)

(** [a === b] on numbers *)
Definition strict_eq (a b : number) : bool :=
  match a, b with
  | Fin x, Fin y => Qeq_bool x y
  | PInf, PInf | NInf, NInf => true
  | _, _ => false
  end.

(** [Math.max(...values)]: [-Infinity] without arguments, [NaN] as soon as
    an argument is [NaN]. *)
Definition Math_max (values : list number) : number :=
  foldl (fun acc v =>
           match acc, v with
           | NaN, _ | _, NaN => NaN
           | _, _ => if num_gt v acc then v else acc
           end)
        NInf values.

(** [values.indexOf(x)], searching from index [i] on; [None] is [-1]. *)
Fixpoint indexOf (values : list number) (x : number) (i : nat) : option nat :=
  match values with
  | [] => None
  | v :: values' => if strict_eq v x then Some i else indexOf values' x (S i)
  end.

(** The label read off the outputs of the network (lines 246-248):
    [argMax], [confidence] ([None]: [undefined]) and [shape]. *)
Definition model_label (values : list number)
    : option nat * option number * shape :=
  let argMax := indexOf values (Math_max values) 0 in
  let confidence :=
    match argMax with
    | Some i => values !! i
    | None => None
    end in
  let shape :=
    match argMax with
    | Some 0%nat => circle
    | _ => triangle
    end in
  (argMax, confidence, shape).

(** [Math.round(a)] *)
Definition Math_round (a : number) : number :=
  match a with
  | Fin q => Fin (inject_Z (Qfloor (q + (1 # 2))))
  | _ => a
  end.

Inductive source : Type := source_model | source_cv.

Record prediction : Type := {
  predicted_shape : shape;
  predicted_confidence : number;
  predicted_source : option source
}.

Section Callers.
Context `{MathRuntime}.

(** [detectShapeWithCV]: the detector, an exception of which gives
    [{ shape: 'unknown', confidence: 0 }]. *)
Definition detectShapeWithCV (cv : canvas) : shape * number :=
  match detectShape cv with
  | Some r => (detectedShape r, confidence r)
  | None => (unknown, Fin 0)
  end.

(** The part of [predict] that runs when there is no network or the
    network fails (lines 291-317), on the canvas the image was drawn to. *)
Definition predict_fallback (cv : canvas) : prediction :=
  let cvResult := detectShapeWithCV cv in
  match cvResult.1 with
  | unknown => {| predicted_shape := unknown; predicted_confidence := Fin 0;
                  predicted_source := None |}
  | _ => {| predicted_shape := cvResult.1;
            predicted_confidence := cvResult.2;
            predicted_source := Some source_cv |}
  end.
End Callers.

(** [Math.round(result.confidence * 100)] of [displayPrediction]. *)
Definition displayed_percent (p : prediction) : number :=
  Math_round (num_mul (predicted_confidence p) (Fin 100)).

(** ** Vocabulary of the further properties *)

(** *** Measures *)

(** The contour moved by [d]. *)
Definition translate (d : point) (contour : list point) : list point :=
  (fun p => (p.1 + d.1, p.2 + d.2)) <$> contour.

(** Twice the area of a contour, the integer [calculateContourArea] halves. *)
Definition double_area (contour : list point) : Z := Z.abs (shoelace contour).

(** *** The simplification *)

(** Every point of [mid] is within [epsilon] of the line through [a] and
    [b], as [approxPolyDP] tests it: its distance is not greater. *)
Definition within_epsilon `{MathRuntime} (epsilon : number) (a b : point)
    (mid : list point) : Prop :=
  Forall (fun p => num_gt (perpendicularDistance p a b) epsilon = false) mid.

(** Each step of [r] from a point to the next replaces a part of the contour
    [c] that runs from the one to the other and stays within [epsilon] of
    the line through the two. *)
Definition steps_within `{MathRuntime} (epsilon : number) (c r : list point)
    : Prop :=
  forall r1 a b r2,
    r = r1 ++ a :: b :: r2 ->
    exists c1 mid c2,
      c = c1 ++ a :: mid ++ b :: c2 /\ within_epsilon epsilon a b mid.

(** *** The stack of the hull scan *)

(** The stack of the Graham scan, top first: every three points that lie on
    one another make a counter-clockwise turn, read from the bottom. *)
Definition stack_turns (hull : list point) : Prop :=
  forall l2 p3 p2 p1 l1,
    hull = l2 ++ p3 :: p2 :: p1 :: l1 -> isCounterClockwise p1 p2 p3 = true.

(** *** The path of a trace *)

(** [q] follows [p] in the contour. *)
Definition consecutive (contour : list point) (p q : point) : Prop :=
  exists l1 l2, contour = l1 ++ p :: q :: l2.

(** [visited] is [visited0] but for the marks of the pixels of [contour]:
    an entry is what it was, or it is 1 and belongs to a pixel of the
    contour. *)
Definition marked_by (width : Z) (visited0 visited : list Z)
    (contour : list point) : Prop :=
  forall i,
    get visited i = get visited0 i
    \/ exists p, p ∈ contour /\ i = pixel_index width p
                 /\ get visited i = Some 1.

(** No pixel at most [r] columns and rows away from [(x, y)] can be taken:
    none lies in the image, is part of the shape and is not visited. *)
Definition exhausted (binary visited : list Z) (width height r x y : Z)
    : Prop :=
  forall p, within r x y p -> available binary visited width height p = false.

(** The trace has come to its end at the last point of the contour. *)
Definition halted (binary visited : list Z) (width height : Z)
    (contour : list point) : Prop :=
  exists x y,
    last contour = Some (x, y)
    /\ exhausted binary visited width height 1 x y
    /\ ((1 < length contour)%nat ->
        exhausted binary visited width height 3 x y).

(** The state of a trace between two turns of its loop.  The stack never
    holds more than the last point of the contour. *)
Record path_inv (binary : list Z) (width height : Z) (visited0 : list Z)
    (start : point) (st : trace_state) : Prop := {
  pi_stack :
    match ts_stack st with
    | [] => halted binary (ts_visited st) width height (ts_contour st)
    | [p] => last (ts_contour st) = Some p
    | _ => False
    end;
  pi_head : head (ts_contour st) = Some start;
  pi_steps :
    forall p q, consecutive (ts_contour st) p q -> within 3 p.1 p.2 q;
  pi_marks : marked_by width visited0 (ts_visited st) (ts_contour st);
  pi_length : length (ts_visited st) = length visited0
}.

(** *** The blur *)

(** The indices the 3x3 sum around [(x, y)] reads, in the order of its two
    loops. *)
Definition neighbourhood (width x y : Z) : list Z :=
  dy ← offsets3; dx ← offsets3; [(y + dy) * width + (x + dx)].

(** How many of the nine pixels around [(x, y)] are part of the shape:
    non-zero in [binary]. *)
Definition foreground_count (binary : list Z) (width x y : Z) : nat :=
  length (List.filter
            (fun i => match get binary i with
                      | Some v => 0 <? v
                      | None => false
                      end)
            (neighbourhood width x y)).

(** *** Grey pixels *)

(** The value stored in [gray] for a grey pixel, [R = G = B = g], with or
    without the boost of an alpha above 200. *)
Definition grey_level (g : Z) (boosted : bool) : Z :=
  ToUint8 (clamped_luminance g g g (if boosted then 255 else 0)).

(** *** Canvases *)

(** A canvas of two pixels without colour: one opaque, one transparent. *)
Definition black_pixels : canvas :=
  {| canvas_width := 2; canvas_height := 1;
     canvas_data := [0; 0; 0; 255; 0; 0; 0; 0] |}.

(** A canvas of 11 by 11 pixels with the white outline of a square, one
    pixel wide, on a transparent ground. *)
Definition square_outline : canvas :=
  {| canvas_width := 11; canvas_height := 11;
     canvas_data :=
       k ← seq 0 (11 * 11);
       let x := (k mod 11)%nat in
       let y := (k / 11)%nat in
       if bool_decide (2 <= x <= 8 /\ 2 <= y <= 8
                       /\ ~ (3 <= x <= 7 /\ 3 <= y <= 7))%nat
       then [255; 255; 255; 255] else [0; 0; 0; 0] |}.

(** * Properties *)

(** ** Numbers *)

Lemma Qlt_bool_iff x y : Qlt_bool x y = true <-> (x < y)%Q.
Proof.
  unfold Qlt_bool. rewrite negb_true_iff. split.
  - intros Hb. apply Qnot_le_lt. intros Hle.
    apply Qle_bool_iff in Hle. congruence.
  - intros Hlt. destruct (Qle_bool y x) eqn:E; [|reflexivity].
    apply Qle_bool_iff in E. exfalso. apply (Qlt_not_le _ _ Hlt E).
Qed.

Lemma Qlt_bool_false x y : Qlt_bool x y = false <-> (y <= x)%Q.
Proof.
  unfold Qlt_bool. rewrite negb_false_iff. apply Qle_bool_iff.
Qed.

Lemma Qle_bool_false x y : Qle_bool x y = false <-> (y < x)%Q.
Proof.
  rewrite <- Qlt_bool_iff. unfold Qlt_bool. now rewrite negb_true_iff.
Qed.

Lemma Qeq_bool_false x y : Qeq_bool x y = false <-> ~ (x == y)%Q.
Proof.
  split.
  - intros Hb Heq. apply Qeq_bool_iff in Heq. congruence.
  - intros Hne. destruct (Qeq_bool x y) eqn:E; [|reflexivity].
    apply Qeq_bool_iff in E. contradiction.
Qed.

(** Turn the boolean tests on rationals into propositions. *)
Ltac reflect_Q :=
  repeat match goal with
    | H : Qlt_bool _ _ = true |- _ => apply Qlt_bool_iff in H
    | H : Qlt_bool _ _ = false |- _ => apply Qlt_bool_false in H
    | H : Qle_bool _ _ = true |- _ => apply Qle_bool_iff in H
    | H : Qle_bool _ _ = false |- _ => apply Qle_bool_false in H
    | H : Qeq_bool _ _ = true |- _ => apply Qeq_bool_iff in H
    | H : Qeq_bool _ _ = false |- _ => apply Qeq_bool_false in H
    end.

Lemma num_gt_not_NaN a b : num_gt a b = true -> is_NaN a = false /\ is_NaN b = false.
Proof. destruct a, b; simpl; intros; try discriminate; auto. Qed.

Lemma num_gt_irrefl a : num_gt a a = false.
Proof.
  destruct a; simpl; try reflexivity. apply Qlt_bool_false. lra.
Qed.

Lemma num_gt_trans a b c :
  num_gt a b = true -> num_gt b c = true -> num_gt a c = true.
Proof.
  destruct a, b, c; simpl; intros Hab Hbc; try discriminate; try reflexivity.
  reflect_Q. apply Qlt_bool_iff. lra.
Qed.

Lemma num_gt_le_trans a b c :
  num_gt a b = true -> num_gt c b = false -> is_NaN c = false ->
  num_gt a c = true.
Proof.
  destruct a, b, c; simpl; intros Hab Hcb Hc; try discriminate; try reflexivity.
  reflect_Q. apply Qlt_bool_iff. lra.
Qed.

(** ** The decision *)

Lemma circleConfidence_range circ :
  num_gt circ (Fin CONFIG.circularity) = true ->
  num_between 0 1 (circleConfidence_of circ).
Proof.
  unfold circleConfidence_of, CONFIG.circularity.
  destruct circ as [| | |q]; simpl; try discriminate.
  - intros _. split; lra.
  - intros Hq. reflect_Q.
    destruct (Qle_bool 1 _) eqn:E; reflect_Q; simpl.
    + split; lra.
    + split; [|lra].
      apply Qle_shift_div_l; [reflexivity|]. lra.
Qed.

Lemma triangleConfidence_range sol :
  num_gt sol (Fin (85 # 100)) = true ->
  num_between (85 # 100) 1 (triangleConfidence_of sol).
Proof.
  unfold triangleConfidence_of.
  destruct sol as [| | |q]; simpl; try discriminate.
  - intros _. split; lra.
  - intros Hq. reflect_Q.
    destruct (Qle_bool 1 q) eqn:E; reflect_Q; simpl; split; lra.
Qed.

Lemma determine_shape_both circ sol :
  num_gt circ (Fin CONFIG.circularity) = true ->
  num_gt sol (Fin (85 # 100)) = true ->
  determine_shape circ sol 3 =
    if num_gt (circleConfidence_of circ) (triangleConfidence_of sol)
    then (circle, num_sub (circleConfidence_of circ) (triangleConfidence_of sol))
    else (triangle, num_sub (triangleConfidence_of sol) (circleConfidence_of circ)).
Proof.
  intros Hc Hs. unfold determine_shape, circle_detection, triangle_detection.
  rewrite Hc, Hs. reflexivity.
Qed.

(** The margin between two confidences: the greater minus the smaller is a
    confidence again. *)
Lemma margin_range (cc tc : number) :
  num_between 0 1 cc -> num_between 0 1 tc ->
  (num_gt cc tc = true -> num_between 0 1 (num_sub cc tc))
  /\ (num_gt cc tc = false -> num_between 0 1 (num_sub tc cc)).
Proof.
  destruct cc as [| | |x], tc as [| | |y]; simpl; try tauto.
  intros Rc Rt. split; intros E; reflect_Q; lra.
Qed.

Lemma triangleConfidence_unit sol :
  num_gt sol (Fin (85 # 100)) = true ->
  num_between 0 1 (triangleConfidence_of sol).
Proof.
  intros Hs. pose proof (triangleConfidence_range sol Hs) as Hr.
  destruct (triangleConfidence_of sol); simpl in *; try contradiction. lra.
Qed.

(** C1. When both hypotheses hold (circularity > 0.6, three corners and
    solidity > 0.85), the detector answers circle exactly when
    [circleConfidence] is greater than [triangleConfidence] and triangle
    otherwise; the confidence it reports is the winner's confidence minus the
    loser's, and it is a finite value between 0 and 1, so never negative. *)
Theorem both_hypotheses_margin (circ sol : number) (corners : nat) :
  num_gt circ (Fin CONFIG.circularity) = true ->
  corners = 3%nat ->
  num_gt sol (Fin (85 # 100)) = true ->
  let cc := circleConfidence_of circ in
  let tc := triangleConfidence_of sol in
  let r := determine_shape circ sol corners in
  (num_gt cc tc = true -> r = (circle, num_sub cc tc))
  /\ (num_gt cc tc = false -> r = (triangle, num_sub tc cc))
  /\ (num_gt tc cc = true -> r = (triangle, num_sub tc cc))
  /\ num_between 0 1 r.2.
Proof.
  intros Hc -> Hs cc tc r.
  destruct (margin_range cc tc (circleConfidence_range circ Hc)
              (triangleConfidence_unit sol Hs)) as [Hwin Hlose].
  assert (Hr : r = if num_gt cc tc then (circle, num_sub cc tc)
                   else (triangle, num_sub tc cc))
    by exact (determine_shape_both circ sol Hc Hs).
  assert (Hanti : num_gt tc cc = true -> num_gt cc tc = false).
  { intros Htc. destruct (num_gt cc tc) eqn:E; [|reflexivity].
    pose proof (num_gt_trans _ _ _ E Htc) as Hcc.
    rewrite num_gt_irrefl in Hcc. discriminate. }
  rewrite Hr. destruct (num_gt cc tc) eqn:E.
  - repeat split; try congruence.
    + intros Htc. apply Hanti in Htc. discriminate.
    + apply Hwin. reflexivity.
  - repeat split; try congruence. apply Hlose. reflexivity.
Qed.

Lemma both_hypotheses_margin_witness :
  determine_shape (Fin (61 # 100)) (Fin (9 # 10)) 3
  = (triangle,
     num_sub (triangleConfidence_of (Fin (9 # 10)))
             (circleConfidence_of (Fin (61 # 100)))).
Proof.
  apply (both_hypotheses_margin (Fin (61 # 100)) (Fin (9 # 10)) 3);
    reflexivity.
Defined.

(** C6. When neither hypothesis holds (the test circularity > 0.6 fails, and
    so does the test on three corners with solidity > 0.85), the detector
    answers triangle for at most four corners and circle for more, with
    confidence 0.5 in both cases. *)
Theorem neither_hypothesis_fallback (circ sol : number) (corners : nat) :
  num_gt circ (Fin CONFIG.circularity) = false ->
  Nat.eqb corners 3 && num_gt sol (Fin (85 # 100)) = false ->
  determine_shape circ sol corners
  = (if Nat.leb corners 4 then triangle else circle, Fin (5 # 10)).
Proof.
  intros Hc Ht. unfold determine_shape, circle_detection, triangle_detection.
  rewrite Hc, Ht. simpl. destruct (Nat.leb corners 4); reflexivity.
Qed.

Lemma neither_hypothesis_fallback_witness :
  determine_shape (Fin (3 # 10)) (Fin (7 # 10)) 6 = (circle, Fin (5 # 10))
  /\ determine_shape (Fin (3 # 10)) (Fin (95 # 100)) 4 = (triangle, Fin (5 # 10)).
Proof.
  split.
  - apply (neither_hypothesis_fallback (Fin (3 # 10)) (Fin (7 # 10)) 6);
      reflexivity.
  - apply (neither_hypothesis_fallback (Fin (3 # 10)) (Fin (95 # 100)) 4);
      reflexivity.
Defined.

(** ** Circularity of a contour without perimeter *)

Section Perimeter.
Context `{MathRuntime}.

Lemma perimeter_fold (l : list (point * point)) (a : Q) :
  exists q,
    foldl (fun acc '((xi, yi), (xj, yj)) =>
             let dx := xj - xi in
             let dy := yj - yi in
             num_add acc (Fin (Math_sqrt (dx * dx + dy * dy))))
          (Fin a) l = Fin q
    /\ (a <= q)%Q
    /\ ((q == a)%Q -> Forall (fun pr => (segment_length pr == 0)%Q) l).
Proof.
  revert a. induction l as [|[[xi yi] [xj yj]] l IH]; intros a; simpl.
  - exists a. split; [reflexivity|]. split; [lra|]. constructor.
  - destruct (IH (a + Math_sqrt ((xj - xi) * (xj - xi) + (yj - yi) * (yj - yi)))%Q)
      as (q & Hq & Hle & Hz).
    pose proof (Math_sqrt_nonneg ((xj - xi) * (xj - xi) + (yj - yi) * (yj - yi))).
    exists q. split; [exact Hq|]. split; [clear - Hle H0; lra|].
    intros Heq. constructor.
    + simpl. clear - Hle H0 Heq. lra.
    + apply Hz. clear - Hle H0 Heq. lra.
Qed.

Lemma perimeter_spec (c : list point) :
  exists q,
    calculateContourPerimeter c = Fin q
    /\ (0 <= q)%Q
    /\ ((q == 0)%Q ->
        Forall (fun pr => (segment_length pr == 0)%Q) (cyclic_pairs c)).
Proof. exact (perimeter_fold (cyclic_pairs c) 0). Qed.

Lemma perimeter_finite (c : list point) :
  exists q, calculateContourPerimeter c = Fin q /\ (0 <= q)%Q.
Proof.
  destruct (perimeter_spec c) as (q & Hq & Hle & _).
  exists q. split; [exact Hq | exact Hle].
Qed.

Lemma segment_length_0 (p q : point) :
  (segment_length (p, q) == 0)%Q -> p = q.
Proof.
  destruct p as [xi yi], q as [xj yj]. simpl. intros Hs.
  assert (Hn : ~ 0 < (xj - xi) * (xj - xi) + (yj - yi) * (yj - yi)).
  { intros Hpos. apply Math_sqrt_pos in Hpos. lra. }
  pose proof (Z.square_nonneg (xj - xi)) as Hx.
  pose proof (Z.square_nonneg (yj - yi)) as Hy.
  assert (Hx0 : (xj - xi) * (xj - xi) = 0) by lia.
  assert (Hy0 : (yj - yi) * (yj - yi) = 0) by lia.
  apply Z.mul_eq_0 in Hx0, Hy0.
  f_equal; lia.
Qed.

Lemma shoelace_fold_degenerate (l : list (point * point)) (a : Z) :
  Forall (fun pr => pr.1 = pr.2) l ->
  foldl (fun acc '((xi, yi), (xj, yj)) => acc + xi * yj - xj * yi) a l = a.
Proof.
  intros Hl. revert a.
  induction Hl as [|[[xi yi] [xj yj]] l Hp _ IH]; intros a; simpl.
  - reflexivity.
  - simpl in Hp. injection Hp as -> ->. rewrite IH. lia.
Qed.

Lemma zero_perimeter_shoelace (c : list point) :
  num_eq (calculateContourPerimeter c) (Fin 0) -> shoelace c = 0.
Proof.
  intros Hp.
  destruct (perimeter_spec c) as (q & Hq & _ & Hz).
  rewrite Hq in Hp. simpl in Hp.
  unfold shoelace. apply shoelace_fold_degenerate.
  eapply Forall_impl; [apply Hz; exact Hp|].
  intros [p r] Hs. simpl. apply segment_length_0. exact Hs.
Qed.
End Perimeter.

Lemma circularity_zero_perimeter (a p : Q) :
  (p == 0)%Q ->
  calculateCircularity (Fin a) (Fin p)
  = if Qeq_bool a 0 then NaN else if Qlt_bool a 0 then NInf else PInf.
Proof.
  intros Hp. unfold calculateCircularity. simpl.
  assert (Hpp : Qeq_bool (p * p) 0 = true).
  { apply Qeq_bool_iff. rewrite Hp. reflexivity. }
  rewrite Hpp.
  destruct (Qeq_bool a 0) eqn:Ha; reflect_Q.
  - assert (E : Qeq_bool (4 * Math_PI * a) 0 = true).
    { apply Qeq_bool_iff. rewrite Ha. ring. }
    rewrite E. reflexivity.
  - assert (E : Qeq_bool (4 * Math_PI * a) 0 = false).
    { apply Qeq_bool_false. intros Hm. apply Ha.
      unfold Math_PI in Hm. lra. }
    rewrite E. unfold signed_inf.
    assert (Hs : Qlt_bool (4 * Math_PI * a) 0 = Qlt_bool a 0).
    { destruct (Qlt_bool a 0) eqn:Hl; reflect_Q.
      - apply Qlt_bool_iff. unfold Math_PI. lra.
      - apply Qlt_bool_false. unfold Math_PI. lra. }
    rewrite Hs. reflexivity.
Qed.

(** C4, as stated, fails: with perimeter 0 the quotient is not 0 but [NaN]
    for area 0 and [+Infinity] for area 1. *)
Lemma circularity_zero_perimeter_not_zero :
  ~ num_eq (calculateCircularity (Fin 0) (Fin 0)) (Fin 0)
  /\ ~ num_eq (calculateCircularity (Fin 1) (Fin 0)) (Fin 0)
  /\ calculateCircularity (Fin 0) (Fin 0) = NaN
  /\ calculateCircularity (Fin 1) (Fin 0) = PInf.
Proof. repeat split; intros []. Qed.

(** C4, amended. [calculateCircularity] has no guard: for perimeter 0 it
    yields [NaN] when the area is 0, and an infinity otherwise.  A contour
    whose perimeter is 0 has area 0, so its circularity is [NaN], which fails
    the test circularity > 0.6: the contour is not taken for a circle. *)
Theorem zero_perimeter_circularity `{MathRuntime} (c : list point) :
  num_eq (calculateContourPerimeter c) (Fin 0) ->
  let circ :=
    calculateCircularity (calculateContourArea c) (calculateContourPerimeter c) in
  circ = NaN
  /\ circle_detection circ = (false, Fin 0)
  /\ (forall a : Q, (0 < a)%Q ->
        calculateCircularity (Fin a) (calculateContourPerimeter c) = PInf).
Proof.
  intros Hp circ.
  pose proof (zero_perimeter_shoelace c Hp) as Hs.
  destruct (perimeter_finite c) as (q & Hq & _).
  rewrite Hq in Hp. simpl in Hp.
  assert (Hc : circ = NaN).
  { subst circ. unfold calculateContourArea. rewrite Hs, Hq. simpl.
    rewrite (circularity_zero_perimeter _ q Hp). reflexivity. }
  split; [exact Hc|]. split.
  - rewrite Hc. reflexivity.
  - intros a Ha. rewrite Hq, (circularity_zero_perimeter a q Hp).
    destruct (Qeq_bool a 0) eqn:E; reflect_Q; [lra|].
    destruct (Qlt_bool a 0) eqn:E'; reflect_Q; [lra|reflexivity].
Qed.

Lemma zero_perimeter_circularity_witness :
  calculateCircularity (calculateContourArea [(3, 3)])
    (@calculateContourPerimeter fixed_point_runtime [(3, 3)]) = NaN.
Proof.
  apply (@zero_perimeter_circularity fixed_point_runtime [(3, 3)]).
  reflexivity.
Defined.

(** ** Binarisation *)

Lemma ToUint8_floor (v : Q) :
  (0 <= v)%Q -> (v <= 255)%Q -> ToUint8 (Fin v) = Qfloor v.
Proof.
  intros H0 H255.
  assert (Hq : Z.quot (Qnum v) (Z.pos (Qden v)) = Qfloor v).
  { destruct v as [n d]. simpl. apply Z.quot_div_nonneg; [|lia].
    unfold Qle in H0. simpl in H0. lia. }
  unfold ToUint8. rewrite Hq.
  apply Z.mod_small. split.
  - change 0 with (Qfloor 0). apply Qfloor_resp_le. exact H0.
  - assert (Qfloor v <= Qfloor 255) by (apply Qfloor_resp_le; exact H255).
    change (Qfloor 255) with 255 in *. lia.
Qed.

Lemma floor_exceeds (t : Z) (v : Q) :
  t < Qfloor v <-> (inject_Z (t + 1) <= v)%Q.
Proof.
  split.
  - intros Ht. apply Qle_trans with (inject_Z (Qfloor v)).
    + rewrite <- Zle_Qle. lia.
    + apply Qfloor_le.
  - intros Hv. apply Qfloor_resp_le in Hv. rewrite Qfloor_Z in Hv. lia.
Qed.

Lemma round_half_even_nonneg (q : Q) : (0 <= q)%Q -> 0 <= round_half_even q.
Proof.
  intros Hq. unfold round_half_even.
  assert (0 <= Qfloor q).
  { change 0 with (Qfloor 0). apply Qfloor_resp_le. exact Hq. }
  destruct (q - inject_Z (Qfloor q) ?= 1 # 2)%Q; [|lia|lia].
  destruct (Z.even (Qfloor q)); lia.
Qed.

Lemma binary64_nonneg (q : Q) : (0 <= q)%Q -> (0 <= binary64 q)%Q.
Proof.
  intros Hq. unfold binary64. destruct (Qeq_bool q 0); [lra|].
  assert (Hulp : (0 < 2 ^ (binade q - 52))%Q) by (apply Qpower_0_lt; lra).
  apply Qmult_le_0_compat; [|lra].
  change 0%Q with (inject_Z 0). rewrite <- Zle_Qle.
  apply round_half_even_nonneg. apply Qle_shift_div_l; [exact Hulp | lra].
Qed.

Lemma fmul_nonneg (x y : Q) : (0 <= x)%Q -> (0 <= y)%Q -> (0 <= fmul x y)%Q.
Proof.
  intros Hx Hy. apply binary64_nonneg, Qmult_le_0_compat; assumption.
Qed.

Lemma fadd_nonneg (x y : Q) : (0 <= x)%Q -> (0 <= y)%Q -> (0 <= fadd x y)%Q.
Proof. intros Hx Hy. apply binary64_nonneg. lra. Qed.

Lemma clamped_luminance_range (r g b a : Z) :
  0 <= r -> 0 <= g -> 0 <= b ->
  exists v, clamped_luminance r g b a = Fin v /\ (0 <= v)%Q /\ (v <= 255)%Q.
Proof.
  intros Hr Hg Hb. unfold clamped_luminance, luminance.
  rewrite Zle_Qle in Hr, Hg, Hb. change (inject_Z 0) with 0%Q in *.
  set (boost := if 200 <? a then (15 # 10)%Q else 1%Q).
  assert (Hboost : (0 <= boost)%Q) by (subst boost; destruct (200 <? a); lra).
  set (lum := fmul _ boost).
  assert (Hlum : (0 <= lum)%Q).
  { subst lum. apply fmul_nonneg; [|exact Hboost].
    assert (Hc : forall c, (0 <= c)%Q -> (0 <= binary64 c)%Q)
      by exact binary64_nonneg.
    apply fadd_nonneg; [apply fadd_nonneg|]; apply fmul_nonneg;
      first [assumption | apply Hc; discriminate]. }
  unfold Math_min.
  destruct (Qle_bool 255 lum) eqn:E; reflect_Q; eexists;
    (split; [reflexivity|]); split; lra.
Qed.

(** C9, as stated, fails: the boosted luminance of this pixel, about
    0.114 * 30 * 1.5 = 5.13, exceeds the threshold 5, and the pixel is
    background all the same. *)
Lemma binarize_truncation_counterexample :
  canvas_data dim_blue_pixel = [0; 0; 30; 255]
  /\ num_gt (clamped_luminance 0 0 30 255) (Fin (512 # 100)) = true
  /\ num_gt (clamped_luminance 0 0 30 255)
            (Fin (inject_Z CONFIG.thresholdValue)) = true
  /\ binarize dim_blue_pixel = [0].
Proof. repeat split; vm_compute; reflexivity. Qed.

(** The rounding of the source is felt at one grey: without rounding the
    boosted luminance of (4, 4, 4) would be 6; the source computes
    5.999999999999999 and the pixel is background. *)
Lemma binarize_rounds :
  ((((299 # 1000) * 4 + (587 # 1000) * 4 + (114 # 1000) * 4) * (15 # 10)
    == 6)%Q)
  /\ num_gt (Fin 6) (clamped_luminance 4 4 4 255) = true
  /\ binarize dark_grey_pixel = [0].
Proof. repeat split; vm_compute; reflexivity. Qed.

Lemma gray_at_pixel (data : list Z) (k : nat) (r g b a : Z) :
  data !! (4 * k)%nat = Some r ->
  data !! (4 * k + 1)%nat = Some g ->
  data !! (4 * k + 2)%nat = Some b ->
  data !! (4 * k + 3)%nat = Some a ->
  gray_at data k = ToUint8 (clamped_luminance r g b a).
Proof.
  intros Hr Hg Hb Ha. unfold gray_at, clamped_luminance.
  rewrite Hr, Hg, Hb, Ha. reflexivity.
Qed.

(** C9, amended.  [gray] is a [Uint8Array]: the clamped luminance
    (0.299 R + 0.587 G + 0.114 B, times 1.5 when alpha > 200, at most 255,
    as the source computes it in binary64) loses its fraction when it is
    stored.  For every threshold, a pixel is foreground (255) if and only if
    the integer part of its clamped luminance exceeds the threshold, that
    is, if and only if the clamped luminance is at least threshold + 1;
    otherwise it is background (0).  [detectShape] takes the threshold of
    the configuration, 5. *)
Theorem binarize_foreground (cv : canvas) (k : nat) (r g b a threshold : Z) :
  (k < canvas_width cv * canvas_height cv)%nat ->
  canvas_data cv !! (4 * k)%nat = Some r ->
  canvas_data cv !! (4 * k + 1)%nat = Some g ->
  canvas_data cv !! (4 * k + 2)%nat = Some b ->
  canvas_data cv !! (4 * k + 3)%nat = Some a ->
  0 <= r -> 0 <= g -> 0 <= b ->
  let mask := threshold_image threshold (grayscale cv) in
  exists v : Q,
    clamped_luminance r g b a = Fin v
    /\ (mask !! k = Some 255 \/ mask !! k = Some 0)
    /\ (mask !! k = Some 255 <-> threshold < Qfloor v)
    /\ (threshold < Qfloor v <-> (inject_Z (threshold + 1) <= v)%Q)
    /\ binarize cv = threshold_image CONFIG.thresholdValue (grayscale cv).
Proof.
  intros Hk Hr Hg Hb Ha Hr0 Hg0 Hb0 mask.
  destruct (clamped_luminance_range r g b a Hr0 Hg0 Hb0) as (v & Hv & H0 & H255).
  exists v. split; [exact Hv|].
  assert (Hmask : mask !! k = Some (if threshold <? Qfloor v then 255 else 0)).
  { subst mask. unfold threshold_image, grayscale.
    rewrite !list_lookup_fmap, lookup_seq_lt by exact Hk.
    cbn [fmap option_fmap option_map Nat.add].
    rewrite (gray_at_pixel _ k r g b a Hr Hg Hb Ha), Hv,
      (ToUint8_floor v H0 H255).
    reflexivity. }
  rewrite Hmask.
  destruct (Z.ltb_spec threshold (Qfloor v)) as [Hlt | Hge].
  - split; [left; reflexivity|]. split; [tauto|].
    split; [apply floor_exceeds | reflexivity].
  - split; [right; reflexivity|]. split; [split; [discriminate | lia]|].
    split; [apply floor_exceeds | reflexivity].
Qed.

Lemma binarize_foreground_witness :
  exists v : Q,
    clamped_luminance 0 0 30 255 = Fin v
    /\ (binarize dim_blue_pixel !! 0%nat = Some 255
        \/ binarize dim_blue_pixel !! 0%nat = Some 0)
    /\ (binarize dim_blue_pixel !! 0%nat = Some 255 <-> 5 < Qfloor v)
    /\ (5 < Qfloor v <-> (inject_Z (5 + 1) <= v)%Q)
    /\ binarize dim_blue_pixel
       = threshold_image CONFIG.thresholdValue (grayscale dim_blue_pixel).
Proof.
  apply (binarize_foreground dim_blue_pixel 0 0 0 30 255 5);
    first [reflexivity | lia | (simpl; lia)].
Defined.

(** ** The gap search of [traceContour] *)

Lemma square_offsets_spec (r : Z) (d : Z * Z) :
  d ∈ square_offsets r <-> d <> (0, 0) /\ - r <= d.1 <= r /\ - r <= d.2 <= r.
Proof.
  unfold square_offsets. rewrite list_elem_of_bind. split.
  - intros (dy & Hd & Hdy). apply list_elem_of_bind in Hd as (dx & Hd & Hdx).
    apply elem_of_seqZ in Hdy, Hdx.
    destruct ((dx =? 0) && (dy =? 0)) eqn:E.
    + inversion Hd.
    + apply list_elem_of_singleton in Hd as ->. simpl. split; [|lia].
      intros [= -> ->]. discriminate.
  - intros (Hne & Hx & Hy). destruct d as [dx dy]. simpl in *.
    exists dy. split; [|apply elem_of_seqZ; lia].
    apply list_elem_of_bind. exists dx. split; [|apply elem_of_seqZ; lia].
    destruct ((dx =? 0) && (dy =? 0)) eqn:E.
    + apply andb_true_iff in E as [E1 E2].
      apply Z.eqb_eq in E1, E2. subst. contradiction.
    + apply list_elem_of_singleton. reflexivity.
Qed.

Lemma within_square_offsets (r x y : Z) (p : point) :
  In p (map (shift x y) (square_offsets r)) <-> within r x y p.
Proof.
  rewrite in_map_iff. unfold within, shift. split.
  - intros ([dx dy] & <- & Hd). apply list_elem_of_In, square_offsets_spec in Hd.
    simpl in *. destruct Hd as (Hne & Hx & Hy). split; [|lia].
    intros [= Hx' Hy']. apply Hne. f_equal; lia.
  - intros (Hne & Hx & Hy). destruct p as [px py]. simpl in *.
    exists (px - x, py - y). split; [simpl; f_equal; lia|].
    apply list_elem_of_In, square_offsets_spec. simpl. split; [|lia].
    intros [= Hx' Hy']. apply Hne. f_equal; lia.
Qed.

Lemma find_app {A} (f : A -> bool) (l1 l2 : list A) :
  List.find f (l1 ++ l2)
  = match List.find f l1 with Some a => Some a | None => List.find f l2 end.
Proof.
  induction l1 as [|a l1 IH]; simpl; [reflexivity|].
  destruct (f a); [reflexivity | exact IH].
Qed.

Lemma find_direction_None binary visited width height x y :
  find_direction binary visited width height x y = None
  <-> Forall (fun d => available binary visited width height (shift x y d) = false)
             directions.
Proof.
  unfold find_direction. rewrite Forall_forall. split.
  - intros Hf d Hd. apply (find_none _ _ Hf). apply in_map, list_elem_of_In, Hd.
  - intros Hall.
    destruct (List.find _ _) as [p|] eqn:E; [|reflexivity].
    apply find_some in E as [Hin Hp].
    apply in_map_iff in Hin as (d & <- & Hd).
    apply list_elem_of_In in Hd. rewrite (Hall d Hd) in Hp. discriminate.
Qed.

Lemma find_gap_Some binary visited width height x y p :
  find_gap binary visited width height x y = Some p ->
  available binary visited width height p = true
  /\ within 3 x y p
  /\ ((exists q, within 2 x y q
                 /\ available binary visited width height q = true) ->
      within 2 x y p).
Proof.
  unfold find_gap. rewrite map_app, find_app. intros Hf.
  destruct (List.find _ (map (shift x y) (square_offsets 2))) as [p2|] eqn:E2.
  - injection Hf as ->. apply find_some in E2 as [Hin Hp].
    apply within_square_offsets in Hin. split; [exact Hp|].
    split; [|intros _; exact Hin].
    destruct Hin as (Hne & Hx & Hy). split; [exact Hne|lia].
  - apply find_some in Hf as [Hin Hp].
    apply within_square_offsets in Hin. split; [exact Hp|].
    split; [exact Hin|].
    intros (q & Hq & Hav). apply within_square_offsets in Hq.
    rewrite (find_none _ _ E2 q Hq) in Hav. discriminate.
Qed.

Lemma find_gap_None binary visited width height x y :
  find_gap binary visited width height x y = None ->
  forall p, within 3 x y p -> available binary visited width height p = false.
Proof.
  unfold find_gap. intros Hf p Hp. apply (find_none _ _ Hf).
  rewrite map_app. apply in_or_app. right.
  apply within_square_offsets. exact Hp.
Qed.

(** C7, as stated, fails: the start pixel of a trace has no unvisited
    foreground neighbour, the stack is empty and an unvisited foreground
    pixel lies at distance 2, yet the trace stops with the start pixel
    alone. *)
Lemma gap_search_skipped_at_start :
  find_direction gapped_row [1; 0; 0; 0; 0] 5 1 0 0 = None
  /\ find_gap gapped_row [1; 0; 0; 0; 0] 5 1 0 0 = Some (2, 0)
  /\ trace_step gapped_row 5 1 [1; 0; 0; 0; 0] [(0, 0)] 0 0 []
     = stopped [1; 0; 0; 0; 0] [(0, 0)]
  /\ trace_step gapped_row 5 1 [1; 0; 0; 0; 0] [(0, 0)] 0 0 []
     <> take_pixel 5 [1; 0; 0; 0; 0] [(0, 0)] [] (2, 0)
  /\ traceContour gapped_row [0; 0; 0; 0; 0] 5 1 0 0
     = Some ([1; 0; 0; 0; 0], [(0, 0)]).
Proof. repeat split. discriminate. Qed.

(** C7, amended.  When the current pixel [(x, y)] has no unvisited
    foreground pixel among its 8 neighbours (NW, N, NE, W, E, SW, S, SE) and
    the stack is empty, then, provided the contour already holds more than
    one point, the trace looks for an unvisited foreground pixel at most 2,
    then at most 3, columns and rows away; the pixel found is marked
    visited, appended to the contour and becomes the pixel the trace goes on
    from; when there is none the trace ends.  When the contour holds only
    its start point the trace ends without that search. *)
Theorem gap_search_after_second_point
    (binary visited : list Z) (width height x y : Z) (contour : list point)
    (fuel : nat) :
  Forall (fun d => available binary visited width height (shift x y d) = false)
         directions ->
  let st := {| ts_visited := visited; ts_contour := contour;
               ts_stack := [(x, y)] |} in
  ((1 < length contour)%nat ->
   match find_gap binary visited width height x y with
   | Some p =>
       available binary visited width height p = true
       /\ within 3 x y p
       /\ ((exists q, within 2 x y q
                      /\ available binary visited width height q = true) ->
           within 2 x y p)
       /\ trace_loop (S fuel) binary width height st
          = trace_loop fuel binary width height
              {| ts_visited := set visited (p.2 * width + p.1) 1;
                 ts_contour := contour ++ [p];
                 ts_stack := [p] |}
   | None =>
       (forall p, within 3 x y p ->
                  available binary visited width height p = false)
       /\ trace_loop (S fuel) binary width height st
          = Some (stopped visited contour)
   end)
  /\ ((length contour <= 1)%nat ->
      trace_loop (S fuel) binary width height st
      = Some (stopped visited contour)).
Proof.
  intros Hnone st. apply find_direction_None in Hnone.
  assert (Hstop : forall f, trace_loop f binary width height
                              (stopped visited contour)
                            = Some (stopped visited contour)).
  { intros [|f]; reflexivity. }
  split.
  - intros Hlen. apply Nat.ltb_lt in Hlen.
    destruct (find_gap binary visited width height x y) as [p|] eqn:Hgap.
    + destruct (find_gap_Some _ _ _ _ _ _ _ Hgap) as (Hav & Hw3 & Hw2).
      repeat split; try assumption; try apply Hw3; try (apply Hw2; assumption).
      simpl. unfold trace_step. rewrite Hnone, Hlen, Hgap. reflexivity.
    + split; [exact (find_gap_None _ _ _ _ _ _ Hgap)|].
      simpl. unfold trace_step. rewrite Hnone, Hlen, Hgap. apply Hstop.
  - intros Hlen. simpl. unfold trace_step. rewrite Hnone.
    assert (E : (1 <? length contour)%nat = false) by (apply Nat.ltb_ge; lia).
    rewrite E. simpl. apply Hstop.
Qed.

Lemma gap_search_after_second_point_witness :
  trace_loop 3 [255; 255; 0; 255; 0; 0; 0] 7 1
    {| ts_visited := [1; 1; 0; 0; 0; 0; 0];
       ts_contour := [(0, 0); (1, 0)];
       ts_stack := [(1, 0)] |}
  = trace_loop 2 [255; 255; 0; 255; 0; 0; 0] 7 1
      {| ts_visited := [1; 1; 0; 1; 0; 0; 0];
         ts_contour := [(0, 0); (1, 0); (3, 0)];
         ts_stack := [(3, 0)] |}.
Proof.
  assert (Hdir : Forall
            (fun d => available [255; 255; 0; 255; 0; 0; 0]
                        [1; 1; 0; 0; 0; 0; 0] 7 1 (shift 1 0 d) = false)
            directions).
  { repeat constructor. }
  assert (Hlen : (1 < length [(0, 0); (1, 0)])%nat) by (simpl; lia).
  exact (proj2 (proj2 (proj2
    (proj1 (gap_search_after_second_point
              [255; 255; 0; 255; 0; 0; 0] [1; 1; 0; 0; 0; 0; 0] 7 1 1 0
              [(0, 0); (1, 0)] 2 Hdir) Hlen)))).
Defined.

(** ** The anchor of the hull scan *)

Lemma find_start_anchored (pts : list point) (i start : nat) (best : point) :
  Forall (fun p => lower p best = false) pts ->
  find_start pts i start best = start.
Proof.
  intros Hall. revert i.
  induction Hall as [|p pts Hp _ IH]; intros i; simpl.
  - reflexivity.
  - rewrite Hp. apply IH.
Qed.

(** The exchange of line 491 shows on an array whose lowest point is not
    its first element: here the first two points come back exchanged.  The
    function is private to the module and [detectShape], its one caller,
    passes it a traced contour, which begins with its lowest point (section
    "The contour after the hull stage"): no such array reaches it. *)
Lemma hull_reorders_its_argument :
  calculateConvexHull [(1, 1); (0, 0); (2, 0)]
  = (Some [(0, 0); (1, 1); (2, 0)], Some [(0, 0); (2, 0); (1, 1)]).
Proof. reflexivity. Qed.

(** ** Douglas-Peucker simplification *)

Section Simplifier.
Context `{MathRuntime}.
Variables firstPoint lastPoint : point.

Local Abbreviation dist p := (perpendicularDistance p firstPoint lastPoint).
Local Abbreviation scan pts i m idx :=
  (farthest pts i firstPoint lastPoint m idx).

Lemma farthest_app (l1 l2 : list point) i m idx :
  scan (l1 ++ l2) i m idx
  = scan l2 (i + length l1) (scan l1 i m idx).1 (scan l1 i m idx).2.
Proof.
  revert i m idx. induction l1 as [|p l1 IH]; intros i m idx; simpl.
  - rewrite Nat.add_0_r. reflexivity.
  - destruct (num_gt (dist p) m); rewrite IH;
      replace (S i + length l1)%nat with (i + S (length l1))%nat by lia;
      reflexivity.
Qed.

(** The index the loop ends with is the one it started with or the
    position of a point it has visited. *)
Lemma farthest_index (l : list point) i m idx :
  (scan l i m idx).2 = idx
  \/ (i <= (scan l i m idx).2 < i + length l)%nat.
Proof.
  revert i m idx. induction l as [|p l IH]; intros i m idx; simpl.
  - left. reflexivity.
  - destruct (num_gt (dist p) m).
    + destruct (IH (S i) (dist p) i) as [-> | Hr]; right; lia.
    + destruct (IH (S i) m idx) as [-> | Hr]; [left; reflexivity | right; lia].
Qed.

(** When the index has not moved, neither has the maximum: no point went
    beyond it. *)
Lemma farthest_unmoved (l : list point) i m idx :
  (idx < i)%nat ->
  (scan l i m idx).2 = idx ->
  (scan l i m idx).1 = m /\ Forall (fun p => num_gt (dist p) m = false) l.
Proof.
  revert i m idx. induction l as [|p l IH]; intros i m idx Hlt; simpl.
  - intros _. split; [reflexivity | constructor].
  - destruct (num_gt (dist p) m) eqn:E.
    + intros Hidx. exfalso.
      destruct (farthest_index l (S i) (dist p) i) as [Hi | Hi]; lia.
    + intros Hidx. destruct (IH (S i) m idx) as [Hm Hall]; [lia | exact Hidx |].
      split; [exact Hm | constructor; assumption].
Qed.

Lemma farthest_quiet (l : list point) i m idx :
  Forall (fun p => num_gt (dist p) m = false) l ->
  scan l i m idx = (m, idx).
Proof.
  intros Hall. revert i. induction Hall as [|p l Hp _ IH]; intros i; simpl.
  - reflexivity.
  - rewrite Hp. apply IH.
Qed.

(** The maximum the loop ends with is the one it started with or the
    distance of a point it has visited, and it is a number. *)
Lemma farthest_max (l : list point) i m idx :
  is_NaN m = false ->
  is_NaN (scan l i m idx).1 = false
  /\ ((scan l i m idx).1 = m
      \/ exists p, p ∈ l /\ (scan l i m idx).1 = dist p).
Proof.
  revert i m idx. induction l as [|p l IH]; intros i m idx Hm; simpl.
  - split; [exact Hm | left; reflexivity].
  - destruct (num_gt (dist p) m) eqn:E.
    + apply num_gt_not_NaN in E as [Hd _].
      destruct (IH (S i) (dist p) i Hd) as [Hn Hor].
      split; [exact Hn|]. right.
      destruct Hor as [Heq | (q & Hq & Heq)].
      * exists p. split; [left | exact Heq].
      * exists q. split; [right; exact Hq | exact Heq].
    + destruct (IH (S i) m idx Hm) as [Hn Hor].
      split; [exact Hn|].
      destruct Hor as [Heq | (q & Hq & Heq)].
      * left. exact Heq.
      * right. exists q. split; [right; exact Hq | exact Heq].
Qed.

(** No visited point, and not the starting maximum, lies beyond the
    maximum the loop ends with. *)
Lemma farthest_upper (l : list point) i m idx :
  is_NaN m = false ->
  num_gt m (scan l i m idx).1 = false
  /\ Forall (fun p => num_gt (dist p) (scan l i m idx).1 = false) l.
Proof.
  revert i m idx. induction l as [|p l IH]; intros i m idx Hm; simpl.
  - split; [apply num_gt_irrefl | constructor].
  - destruct (num_gt (dist p) m) eqn:E.
    + pose proof E as E'. apply num_gt_not_NaN in E' as [Hd _].
      destruct (IH (S i) (dist p) i Hd) as [Hle Hall].
      split; [|constructor; assumption].
      destruct (num_gt m (scan l (S i) (dist p) i).1) eqn:E2;
        [|reflexivity].
      rewrite (num_gt_trans _ _ _ E E2) in Hle. discriminate.
    + destruct (IH (S i) m idx Hm) as [Hle Hall].
      split; [exact Hle|]. constructor; [|exact Hall].
      destruct (num_gt (dist p) (scan l (S i) m idx).1) eqn:E2;
        [|reflexivity].
      rewrite (num_gt_le_trans _ _ _ E2 Hle Hm) in E. discriminate.
Qed.

(** The farthest point of a chain is the farthest point of every
    sub-chain that keeps it: if the loop over [before ++ far :: after]
    ends at [far], so does the loop over [before' ++ far :: after'] when
    [before'] holds points of [before] and [after'] points of [after]. *)
Lemma farthest_subchain (before after before' after' : list point)
    (far : point) (maxDist : number) :
  scan (before ++ far :: after) 1 (Fin 0) 0 = (maxDist, S (length before)) ->
  before' ⊆ before -> after' ⊆ after ->
  maxDist = dist far
  /\ scan (before' ++ far :: after') 1 (Fin 0) 0
     = (dist far, S (length before')).
Proof.
  intros Hscan Hb Ha.
  rewrite farthest_app in Hscan. simpl in Hscan.
  pose proof (farthest_index before 1 (Fin 0) 0) as Hidx.
  pose proof (farthest_upper before 1 (Fin 0) 0 eq_refl) as [Hle0 Hupper].
  set (m1 := (scan before 1 (Fin 0) 0).1) in *.
  set (i1 := (scan before 1 (Fin 0) 0).2) in *.
  destruct (num_gt (dist far) m1) eqn:E.
  - (* the loop over [before ++ far :: after] moved to [far] *)
    assert (Hq : (scan after (S (S (length before))) (dist far)
                    (S (length before))).2 = S (length before)).
    { rewrite Hscan. reflexivity. }
    apply farthest_unmoved in Hq as [Hm Hquiet]; [|lia].
    rewrite Hscan in Hm. simpl in Hm. split; [exact Hm|].
    rewrite farthest_app. simpl.
    pose proof (farthest_max before' 1 (Fin 0) 0 eq_refl) as [Hn' Hor].
    set (m1' := (scan before' 1 (Fin 0) 0).1) in *.
    assert (Hbelow : num_gt m1' m1 = false).
    { destruct Hor as [-> | (p & Hp & ->)]; [exact Hle0|].
      rewrite Forall_forall in Hupper. apply Hupper, Hb, Hp. }
    rewrite (num_gt_le_trans _ _ _ E Hbelow Hn').
    apply farthest_quiet. rewrite Forall_forall in *.
    intros p Hp. apply Hquiet, Ha, Hp.
  - (* otherwise its index would not be that of [far] *)
    exfalso.
    pose proof (farthest_index after (S (S (length before))) m1 i1) as Hi.
    rewrite Hscan in Hi. simpl in Hi. lia.
Qed.

(** A loop that ends at index 0 has met no point farther than 0. *)
Lemma farthest_index_0 (l : list point) :
  (scan l 1 (Fin 0) 0).2 = 0%nat -> (scan l 1 (Fin 0) 0).1 = Fin 0.
Proof.
  intros Hidx. apply farthest_unmoved in Hidx as [Hm _]; [exact Hm | lia].
Qed.
End Simplifier.

Section Idempotence.
Context `{MathRuntime}.

(** A chain of two points or more is its first point, the points between
    and its last point. *)
Lemma chain_decompose (c : list point) :
  (2 <= length c)%nat -> exists a mid b, c = a :: mid ++ [b].
Proof.
  destruct c as [|a c]; simpl; [lia|]. intros Hlen.
  destruct (exists_last (l := c)) as (mid & b & ->).
  - destruct c; simpl in *; [lia | discriminate].
  - exists a, mid, b. reflexivity.
Qed.

Lemma chain_length (a : point) mid b :
  length (a :: mid ++ [b]) = S (S (length mid)).
Proof. simpl. rewrite length_app. simpl. lia. Qed.

Lemma chain_last (a : point) mid b : last (a :: mid ++ [b]) = Some b.
Proof. rewrite app_comm_cons. apply last_snoc. Qed.

Lemma chain_interior (a : point) mid b : interior (a :: mid ++ [b]) = mid.
Proof.
  unfold interior. rewrite chain_length. simpl.
  rewrite Nat.sub_0_r. apply take_app_length.
Qed.

Lemma chain_take (a : point) before far after b :
  take (S (length before) + 1) (a :: (before ++ far :: after) ++ [b])
  = a :: before ++ [far].
Proof.
  replace (S (length before) + 1)%nat with (S (length (before ++ [far])))
    by (rewrite length_app; simpl; lia).
  simpl. f_equal.
  replace ((before ++ far :: after) ++ [b])
    with ((before ++ [far]) ++ after ++ [b])
    by (rewrite <- !app_assoc; reflexivity).
  apply take_app_length.
Qed.

Lemma chain_drop (a : point) before far after b :
  drop (S (length before)) (a :: (before ++ far :: after) ++ [b])
  = far :: after ++ [b].
Proof.
  simpl. rewrite <- app_assoc. rewrite drop_app_length. reflexivity.
Qed.

Lemma approxPolyDP_unfold fuel (c : list point) eps :
  approxPolyDP (S fuel) c eps
  = if (length c <=? 2)%nat then Some c
    else
      match head c, last c with
      | Some firstPoint, Some lastPoint =>
          let '(maxDist, index) :=
            farthest (interior c) 1 firstPoint lastPoint (Fin 0) 0 in
          if num_gt maxDist eps then
            match approxPolyDP fuel (take (index + 1) c) eps,
                  approxPolyDP fuel (drop index c) eps with
            | Some firstHalf, Some secondHalf =>
                Some (take (length firstHalf - 1) firstHalf ++ secondHalf)
            | _, _ => None
            end
          else Some [firstPoint; lastPoint]
      | _, _ => None
      end.
Proof. reflexivity. Qed.

Lemma approxPolyDP_short fuel (c : list point) eps :
  (length c <= 2)%nat -> approxPolyDP fuel c eps = Some c.
Proof.
  intros Hl. apply Nat.leb_le in Hl.
  destruct fuel; simpl; rewrite Hl; reflexivity.
Qed.

Lemma approxPolyDP_chain fuel (a : point) mid b eps :
  mid <> [] ->
  approxPolyDP (S fuel) (a :: mid ++ [b]) eps
  = let c := a :: mid ++ [b] in
    let far := farthest mid 1 a b (Fin 0) 0 in
    if num_gt far.1 eps then
      match approxPolyDP fuel (take (far.2 + 1) c) eps,
            approxPolyDP fuel (drop far.2 c) eps with
      | Some firstHalf, Some secondHalf =>
          Some (take (length firstHalf - 1) firstHalf ++ secondHalf)
      | _, _ => None
      end
    else Some [a; b].
Proof.
  intros Hmid. rewrite approxPolyDP_unfold.
  assert (Hlen : (length (a :: mid ++ [b]) <=? 2)%nat = false).
  { apply Nat.leb_gt. rewrite chain_length.
    destruct mid; [contradiction | simpl; lia]. }
  rewrite Hlen, chain_last, chain_interior. cbn [head].
  destruct (farthest mid 1 a b (Fin 0) 0) as [maxDist index]. reflexivity.
Qed.

Lemma approxPolyDP_0 (a : point) mid b eps :
  mid <> [] -> approxPolyDP 0 (a :: mid ++ [b]) eps = None.
Proof.
  intros Hmid. destruct mid as [|m mid]; [contradiction|].
  cbn [approxPolyDP]. rewrite chain_length. reflexivity.
Qed.

(** The recursion on [contour.slice(index)] with [index] 0 is a call on
    the same contour: such a run has no result. *)
Lemma approxPolyDP_stuck (a : point) mid b eps :
  mid <> [] ->
  (farthest mid 1 a b (Fin 0) 0).2 = 0%nat ->
  num_gt (farthest mid 1 a b (Fin 0) 0).1 eps = true ->
  forall fuel, approxPolyDP fuel (a :: mid ++ [b]) eps = None.
Proof.
  intros Hmid Hidx Hgt fuel. induction fuel as [|fuel IH].
  - apply approxPolyDP_0, Hmid.
  - rewrite approxPolyDP_chain by exact Hmid. cbn zeta.
    rewrite Hgt, Hidx. rewrite drop_0, IH.
    destruct (approxPolyDP fuel (take _ _) eps); reflexivity.
Qed.

(** The index found in a chain with points between its ends that is about
    to be split is the position of one of these points. *)
Lemma split_point (a : point) mid b eps fuel R :
  mid <> [] ->
  approxPolyDP fuel (a :: mid ++ [b]) eps = Some R ->
  num_gt (farthest mid 1 a b (Fin 0) 0).1 eps = true ->
  exists before far after,
    mid = before ++ far :: after
    /\ (farthest mid 1 a b (Fin 0) 0).2 = S (length before).
Proof.
  intros Hmid HR Hgt.
  destruct (farthest_index a b mid 1 (Fin 0) 0) as [Hidx | Hidx].
  - rewrite (approxPolyDP_stuck a mid b eps Hmid Hidx Hgt) in HR. discriminate.
  - set (k := (farthest mid 1 a b (Fin 0) 0).2) in *.
    destruct (lookup_lt_is_Some_2 mid (k - 1)) as [far Hfar]; [lia|].
    exists (take (k - 1) mid), far, (drop (S (k - 1)) mid). split.
    + symmetry. apply take_drop_middle, Hfar.
    + rewrite length_take. lia.
Qed.

Lemma approxPolyDP_spec (fuel : nat) :
  forall (a : point) mid b eps R,
    approxPolyDP fuel (a :: mid ++ [b]) eps = Some R ->
    exists midR,
      R = a :: midR ++ [b] /\ midR ⊆ mid
      /\ approxPolyDP fuel R eps = Some R.
Proof.
  induction fuel as [|fuel IH]; intros a mid b eps R HR.
  - destruct mid as [|m mid].
    + rewrite approxPolyDP_short in HR by (simpl; lia).
      injection HR as <-. exists []. split; [reflexivity|].
      split; [apply list_subseteq_nil|]. apply approxPolyDP_short. simpl. lia.
    + rewrite approxPolyDP_0 in HR by discriminate. discriminate.
  - destruct (decide (mid = [])) as [-> | Hmid].
    { rewrite approxPolyDP_short in HR by (simpl; lia).
      injection HR as <-. exists []. split; [reflexivity|].
      split; [apply list_subseteq_nil|]. apply approxPolyDP_short. simpl. lia. }
    pose proof HR as HR'.
    rewrite approxPolyDP_chain in HR by exact Hmid. cbn zeta in HR.
    destruct (num_gt (farthest mid 1 a b (Fin 0) 0).1 eps) eqn:Hgt.
    + destruct (split_point a mid b eps _ R Hmid HR' Hgt)
        as (before & far & after & -> & Hidx).
      rewrite Hidx, chain_take, chain_drop in HR.
      destruct (approxPolyDP fuel (a :: before ++ [far]) eps)
        as [firstHalf|] eqn:E1; [|discriminate].
      destruct (approxPolyDP fuel (far :: after ++ [b]) eps)
        as [secondHalf|] eqn:E2; [|discriminate].
      injection HR as <-.
      apply IH in E1 as (before' & -> & Hb & E1).
      apply IH in E2 as (after' & -> & Ha & E2).
      assert (Hshape :
        take (length (a :: before' ++ [far]) - 1) (a :: before' ++ [far])
        ++ far :: after' ++ [b]
        = a :: (before' ++ far :: after') ++ [b]).
      { rewrite chain_length. simpl. rewrite take_app_length.
        rewrite <- app_assoc. reflexivity. }
      rewrite Hshape.
      exists (before' ++ far :: after'). split; [reflexivity|].
      split.
      { intros p. rewrite !elem_of_app, !elem_of_cons.
        intros [Hp | [-> | Hp]]; [left; apply Hb, Hp | right; left; reflexivity
                                   | right; right; apply Ha, Hp]. }
      rewrite approxPolyDP_chain by (destruct before'; discriminate).
      cbn zeta.
      destruct (farthest_subchain a b before after before' after' far
                  (farthest (before ++ far :: after) 1 a b (Fin 0) 0).1)
        as [Hmax Hscan]; [| exact Hb | exact Ha |].
      { rewrite <- Hidx. apply surjective_pairing. }
      rewrite Hscan. cbn [fst snd]. rewrite <- Hmax, Hgt.
      rewrite chain_take, chain_drop, E1, E2, Hshape. reflexivity.
    + injection HR as <-. exists []. split; [reflexivity|].
      split; [apply list_subseteq_nil|]. apply approxPolyDP_short. simpl. lia.
Qed.

(** With an [epsilon] that is not negative the recursion ends: every
    call splits at a point between the ends, into two shorter chains. *)
Lemma approxPolyDP_returns (eps : number) :
  num_gt (Fin 0) eps = false ->
  forall fuel (c : list point),
    (length c <= fuel)%nat -> exists R, approxPolyDP fuel c eps = Some R.
Proof.
  intros Heps fuel. induction fuel as [|fuel IH]; intros c Hlen.
  - exists c. apply approxPolyDP_short. lia.
  - destruct (le_lt_dec (length c) 2) as [Hs | Hl].
    { exists c. apply approxPolyDP_short. exact Hs. }
    destruct (chain_decompose c) as (a & mid & b & ->); [lia|].
    rewrite chain_length in Hlen, Hl.
    assert (Hmid : mid <> []) by (destruct mid; [simpl in Hl; lia | discriminate]).
    rewrite approxPolyDP_chain by exact Hmid. cbn zeta.
    destruct (num_gt (farthest mid 1 a b (Fin 0) 0).1 eps) eqn:Hgt;
      [|eexists; reflexivity].
    destruct (farthest_index a b mid 1 (Fin 0) 0) as [Hidx | Hidx].
    { rewrite (farthest_index_0 a b mid Hidx), Heps in Hgt. discriminate. }
    set (k := (farthest mid 1 a b (Fin 0) 0).2) in *.
    destruct (IH (take (k + 1) (a :: mid ++ [b]))) as [firstHalf ->].
    { rewrite length_take, chain_length. lia. }
    destruct (IH (drop k (a :: mid ++ [b]))) as [secondHalf ->].
    { rewrite length_drop, chain_length. lia. }
    eexists. reflexivity.
Qed.
End Idempotence.

(** C8. [approxPolyDP] is idempotent: a result of [approxPolyDP] on a chain
    of points is returned unchanged when [approxPolyDP] is applied to it with
    the same epsilon.  With an epsilon that is not negative the function
    returns a result for every chain (a recursion depth of the length of the
    chain is enough). *)
Theorem approxPolyDP_idempotent `{MathRuntime} (c : list point) (eps : number) :
  (num_gt (Fin 0) eps = false ->
   exists r, approxPolyDP (length c) c eps = Some r)
  /\ (forall fuel r,
        approxPolyDP fuel c eps = Some r -> approxPolyDP fuel r eps = Some r).
Proof.
  split.
  - intros Heps. apply approxPolyDP_returns; [exact Heps | lia].
  - intros fuel r Hr.
    destruct (le_lt_dec (length c) 1) as [Hs | Hl].
    + rewrite approxPolyDP_short in Hr by lia. injection Hr as <-.
      apply approxPolyDP_short. lia.
    + destruct (chain_decompose c) as (a & mid & b & ->); [lia|].
      apply approxPolyDP_spec in Hr as (midR & _ & _ & Hr). exact Hr.
Qed.

Lemma approxPolyDP_idempotent_witness :
  @approxPolyDP fixed_point_runtime 6
    [(0, 0); (1, 1); (2, 0); (3, 5); (4, 0); (5, 0)] (Fin 2)
  = Some [(0, 0); (3, 5); (5, 0)]
  /\ @approxPolyDP fixed_point_runtime 6 [(0, 0); (3, 5); (5, 0)] (Fin 2)
     = Some [(0, 0); (3, 5); (5, 0)].
Proof.
  assert (Hfirst : @approxPolyDP fixed_point_runtime 6
            [(0, 0); (1, 1); (2, 0); (3, 5); (4, 0); (5, 0)] (Fin 2)
          = Some [(0, 0); (3, 5); (5, 0)]).
  { vm_compute. reflexivity. }
  split; [exact Hfirst|].
  exact (proj2 (@approxPolyDP_idempotent fixed_point_runtime
                  [(0, 0); (1, 1); (2, 0); (3, 5); (4, 0); (5, 0)] (Fin 2))
               6%nat _ Hfirst).
Defined.

(** ** Pixels, indices and marks *)

Lemma in_bounds_inside width height x y :
  in_bounds width height x y = true <-> inside width height (x, y).
Proof.
  unfold in_bounds, inside. simpl.
  rewrite negb_true_iff, !orb_false_iff. lia.
Qed.

Lemma pixel_index_inj width height p q :
  inside width height p -> inside width height q ->
  pixel_index width p = pixel_index width q -> p = q.
Proof.
  destruct p as [x1 y1], q as [x2 y2]. unfold inside, pixel_index. simpl.
  intros [Hx1 Hy1] [Hx2 Hy2] Heq.
  assert (y1 = y2) by nia. subst. f_equal. lia.
Qed.

Lemma reads_spec a idx v : reads a idx v = true <-> get a idx = Some v.
Proof.
  unfold reads. destruct (get a idx) as [u|]; [|split; discriminate].
  rewrite Z.eqb_eq. split; congruence.
Qed.

Lemma available_spec binary visited width height p :
  available binary visited width height p = true
  <-> inside width height p
      /\ get binary (pixel_index width p) = Some 255
      /\ get visited (pixel_index width p) = Some 0.
Proof.
  destruct p as [x y]. unfold available, pixel_index. simpl.
  rewrite !andb_true_iff, in_bounds_inside, !reads_spec. tauto.
Qed.

Lemma get_set_eq a i v : is_Some (get a i) -> get (set a i v) i = Some v.
Proof.
  unfold get, set. destruct (i <? 0); intros Hs.
  - destruct Hs; discriminate.
  - apply list_lookup_insert_eq, lookup_lt_is_Some, Hs.
Qed.

Lemma get_set_ne a i j v : i <> j -> get (set a i v) j = get a j.
Proof.
  unfold get, set. intros Hne.
  destruct (i <? 0) eqn:Hi, (j <? 0) eqn:Hj; try reflexivity.
  apply list_lookup_insert_ne. apply Z.ltb_ge in Hi, Hj. lia.
Qed.

Lemma length_set a i v : length (set a i v) = length a.
Proof. unfold set. destruct (i <? 0); [reflexivity | apply length_insert]. Qed.

Lemma marks_kept_refl visited : marks_kept visited visited.
Proof. intros i. left. reflexivity. Qed.

Lemma marks_kept_set visited0 visited i :
  marks_kept visited0 visited -> get visited i = Some 0 ->
  marks_kept visited0 (set visited i 1).
Proof.
  intros Hk Hi j. destruct (Z.eq_dec i j) as [<- | Hne].
  - right. split.
    + destruct (Hk i) as [Heq | [_ H1]]; congruence.
    + apply get_set_eq. rewrite Hi. eexists; reflexivity.
  - rewrite get_set_ne by exact Hne. apply Hk.
Qed.

Lemma marks_kept_1 visited0 visited i :
  marks_kept visited0 visited -> get visited0 i = Some 1 ->
  get visited i = Some 1.
Proof. intros Hk H1. destruct (Hk i) as [Heq | [H0 _]]; congruence. Qed.

Lemma marks_kept_0 visited0 visited i :
  marks_kept visited0 visited -> get visited i = Some 0 ->
  get visited0 i = Some 0.
Proof. intros Hk H0. destruct (Hk i) as [Heq | [_ H1]]; congruence. Qed.

Lemma unvisited_le visited : (unvisited visited <= length visited)%nat.
Proof. unfold unvisited. apply List.filter_length_le. Qed.

Lemma unvisited_cons v visited :
  unvisited (v :: visited)
  = ((if (0 =? v)%Z then 1 else 0) + unvisited visited)%nat.
Proof. unfold unvisited. simpl. destruct v; reflexivity. Qed.

Lemma unvisited_insert (l : list Z) (n : nat) :
  l !! n = Some 0 -> unvisited l = S (unvisited (<[n := 1]> l)).
Proof.
  revert n. induction l as [|v l IH]; intros n Hn.
  - destruct n; discriminate.
  - destruct n as [|n].
    + simpl in Hn. injection Hn as ->. reflexivity.
    + change (<[S n := 1]> (v :: l)) with (v :: <[n := 1]> l).
      rewrite !unvisited_cons, (IH n Hn). lia.
Qed.

Lemma unvisited_set visited i :
  get visited i = Some 0 -> unvisited visited = S (unvisited (set visited i 1)).
Proof.
  unfold get, set. destruct (i <? 0); [discriminate|]. apply unvisited_insert.
Qed.

(** ** A trace *)

Section Trace.
Variables (binary : list Z) (width height : Z).
(** [visited0] is the array when [traceContour] is called, [start] the
    pixel it is called on. *)
Variables (visited0 : list Z) (start : point).

Local Abbreviation tracing := (trace_inv binary width height visited0 start).

Lemma take_pixel_inv visited contour stack p :
  tracing visited contour ->
  available binary visited width height p = true ->
  tracing (ts_visited (take_pixel width visited contour stack p))
          (ts_contour (take_pixel width visited contour stack p)).
Proof.
  intros [Hk Hnd Hhd Hpts] Hav. apply available_spec in Hav as (Hin & Hb & Hv).
  simpl. fold (pixel_index width p).
  assert (Hset : get (set visited (pixel_index width p) 1) (pixel_index width p)
                 = Some 1).
  { apply get_set_eq. rewrite Hv. eexists; reflexivity. }
  split.
  - apply marks_kept_set; assumption.
  - apply NoDup_app. split; [exact Hnd|]. split; [|apply NoDup_singleton].
    intros q Hq Hqp. apply list_elem_of_singleton in Hqp as ->.
    rewrite Forall_forall in Hpts. destruct (Hpts p Hq) as (_ & _ & _ & H1).
    congruence.
  - destruct contour; [discriminate | exact Hhd].
  - apply Forall_app. split.
    + eapply Forall_impl; [exact Hpts|].
      intros q (Hq & Hqb & Hq0 & Hq1). repeat split; try assumption; try apply Hq.
      destruct (Z.eq_dec (pixel_index width p) (pixel_index width q)) as [<- | Hne].
      * exact Hset.
      * rewrite get_set_ne by exact Hne. exact Hq1.
    + constructor; [|constructor].
      repeat split; try assumption; try apply Hin.
      eapply marks_kept_0; eassumption.
Qed.

Lemma trace_step_inv visited contour x y stack :
  tracing visited contour ->
  tracing
    (ts_visited (trace_step binary width height visited contour x y stack))
    (ts_contour (trace_step binary width height visited contour x y stack)).
Proof.
  intros Hinv. unfold trace_step.
  destruct (find_direction binary visited width height x y) as [p|] eqn:Hd.
  - apply take_pixel_inv; [exact Hinv|]. apply find_some in Hd. apply Hd.
  - destruct ((length stack =? 0)%nat && (1 <? length contour)%nat);
      [|exact Hinv].
    destruct (find_gap binary visited width height x y) as [p|] eqn:Hg;
      [|exact Hinv].
    apply take_pixel_inv; [exact Hinv|]. apply find_some in Hg. apply Hg.
Qed.

(** A turn of the loop marks a pixel or shortens the stack. *)
Lemma trace_step_measure visited contour x y stack :
  let st := trace_step binary width height visited contour x y stack in
  (2 * unvisited (ts_visited st) + length (ts_stack st)
   < 2 * unvisited visited + S (length stack))%nat.
Proof.
  assert (Htake : forall p,
    available binary visited width height p = true ->
    (2 * unvisited (ts_visited (take_pixel width visited contour stack p))
     + length (ts_stack (take_pixel width visited contour stack p))
     < 2 * unvisited visited + S (length stack))%nat).
  { intros p Hav. apply available_spec in Hav as (_ & _ & Hv).
    simpl. fold (pixel_index width p).
    rewrite (unvisited_set visited _ Hv). lia. }
  unfold trace_step.
  destruct (find_direction binary visited width height x y) as [p|] eqn:Hd.
  - apply Htake. apply find_some in Hd. apply Hd.
  - destruct ((length stack =? 0)%nat && (1 <? length contour)%nat);
      [|simpl; lia].
    destruct (find_gap binary visited width height x y) as [p|] eqn:Hg;
      [|simpl; lia].
    apply Htake. apply find_some in Hg. apply Hg.
Qed.

Lemma trace_loop_returns (fuel : nat) :
  forall st,
    (2 * unvisited (ts_visited st) + length (ts_stack st) < fuel)%nat ->
    is_Some (trace_loop fuel binary width height st).
Proof.
  induction fuel as [|fuel IH]; intros st Hlt; [lia|].
  destruct st as [visited contour [|[x y] stack]]; simpl in *.
  - eexists; reflexivity.
  - apply IH.
    pose proof (trace_step_measure visited contour x y stack) as Hm.
    simpl in Hm. lia.
Qed.

Lemma trace_loop_inv (fuel : nat) :
  forall st st',
    tracing (ts_visited st) (ts_contour st) ->
    trace_loop fuel binary width height st = Some st' ->
    tracing (ts_visited st') (ts_contour st') /\ ts_stack st' = [].
Proof.
  induction fuel as [|fuel IH]; intros st st' Hinv Hrun;
    destruct st as [visited contour [|[x y] stack]]; simpl in *.
  - injection Hrun as <-. split; [exact Hinv | reflexivity].
  - discriminate.
  - injection Hrun as <-. split; [exact Hinv | reflexivity].
  - eapply IH; [|exact Hrun]. apply trace_step_inv, Hinv.
Qed.

(** [traceContour], called on a pixel of the shape that lies in the image
    and is not visited, returns: the contour begins with that pixel, holds
    no pixel twice, and holds only pixels of the shape that lie in the
    image, were not visited before the call and are visited after it. *)
Lemma traceContour_spec :
  inside width height start ->
  get binary (pixel_index width start) = Some 255 ->
  get visited0 (pixel_index width start) = Some 0 ->
  exists visited contour,
    traceContour binary visited0 width height start.1 start.2
    = Some (visited, contour)
    /\ tracing visited contour.
Proof.
  intros Hin Hb Hv. unfold traceContour.
  fold (pixel_index width start).
  set (st := {| ts_visited := set visited0 (pixel_index width start) 1;
                ts_contour := [(start.1, start.2)];
                ts_stack := [(start.1, start.2)] |}).
  destruct (trace_loop_returns (2 * length visited0 + 2) st) as [st' Hrun].
  { simpl. rewrite <- (length_set visited0 (pixel_index width start) 1).
    pose proof (unvisited_le (set visited0 (pixel_index width start) 1)). lia. }
  rewrite Hrun. exists (ts_visited st'), (ts_contour st').
  split; [reflexivity|].
  eapply trace_loop_inv; [|exact Hrun]. simpl.
  assert (Hstart : (start.1, start.2) = start) by (destruct start; reflexivity).
  rewrite Hstart. split.
  - apply marks_kept_set; [apply marks_kept_refl | exact Hv].
  - apply NoDup_singleton.
  - reflexivity.
  - constructor; [|constructor]. repeat split; try assumption; try apply Hin.
    apply get_set_eq. rewrite Hv. eexists; reflexivity.
Qed.
End Trace.

(** ** The scan for starting points *)

Lemma StronglySorted_seqZ (m n : Z) : StronglySorted Z.lt (seqZ m n).
Proof.
  destruct (Z.le_gt_cases n 0) as [Hn | Hn].
  { rewrite seqZ_nil by exact Hn. constructor. }
  rewrite <- (Z2Nat.id n) by lia. generalize (Z.to_nat n) as k. clear.
  intros k. revert m. induction k as [|k IH]; intros m.
  - constructor.
  - rewrite seqZ_cons by lia. constructor.
    + replace (Z.pred (Z.of_nat (S k))) with (Z.of_nat k) by lia. apply IH.
    + apply Forall_seqZ. intros j Hj. lia.
Qed.

Lemma StronglySorted_bind {A B} (R' : A -> A -> Prop) (R : B -> B -> Prop)
    (f : A -> list B) (l : list A) :
  StronglySorted R' l ->
  (forall x, StronglySorted R (f x)) ->
  (forall x x' a b, R' x x' -> a ∈ f x -> b ∈ f x' -> R a b) ->
  StronglySorted R (l ≫= f).
Proof.
  intros Hl Hf Hcross. induction Hl as [|x l Hl IH Hx]; simpl.
  - constructor.
  - apply StronglySorted_app_2; [|apply Hf | exact IH].
    intros a b Ha Hb. apply list_elem_of_bind in Hb as (x' & Hb & Hx').
    rewrite Forall_forall in Hx. eapply Hcross; [apply Hx, Hx' | exact Ha | exact Hb].
Qed.

Lemma interior_pixels_row_major width height :
  row_major (interior_pixels width height).
Proof.
  unfold row_major, interior_pixels.
  apply (StronglySorted_bind Z.lt); [apply StronglySorted_seqZ | |].
  - intros y. apply (StronglySorted_bind Z.lt); [apply StronglySorted_seqZ | |].
    + intros x. repeat constructor.
    + intros x x' a b Hlt Ha Hb.
      apply list_elem_of_singleton in Ha as ->.
      apply list_elem_of_singleton in Hb as ->.
      unfold lower. simpl. rewrite orb_false_iff, andb_false_iff.
      split; [lia | right; lia].
  - intros y y' a b Hlt Ha Hb.
    apply list_elem_of_bind in Ha as (x & Ha & _).
    apply list_elem_of_bind in Hb as (x' & Hb & _).
    apply list_elem_of_singleton in Ha as ->.
    apply list_elem_of_singleton in Hb as ->.
    unfold lower. simpl. rewrite orb_false_iff, andb_false_iff.
    split; [lia | left; lia].
Qed.

Lemma interior_pixels_inside width height p :
  p ∈ interior_pixels width height -> inside width height p.
Proof.
  unfold interior_pixels. intros Hp.
  apply list_elem_of_bind in Hp as (y & Hp & Hy).
  apply list_elem_of_bind in Hp as (x & Hp & Hx).
  apply list_elem_of_singleton in Hp as ->.
  apply elem_of_seqZ in Hx, Hy. unfold inside. simpl. lia.
Qed.

(** The blur writes 255 only at the index of a pixel of its loops. *)
Lemma blur_pixels_foreground enhanced width (pixels : list point) init i :
  get (foldl (blur_pixel enhanced width) init pixels) i = Some 255 ->
  get init i = Some 255 \/ exists p, p ∈ pixels /\ i = pixel_index width p.
Proof.
  revert init. induction pixels as [|[x y] pixels IH]; intros init Hget; simpl in *.
  - left. exact Hget.
  - destruct (IH _ Hget) as [Hinit | (p & Hp & ->)].
    + destruct (Z.eq_dec (y * width + x) i) as [<- | Hne].
      * right. exists (x, y). split; [left | reflexivity].
      * left. unfold blur_pixel in Hinit.
        rewrite get_set_ne in Hinit by exact Hne. exact Hinit.
    + right. exists p. split; [right; exact Hp | reflexivity].
Qed.

Lemma blur_foreground enhanced width height p :
  inside width height p ->
  get (blur enhanced width height) (pixel_index width p) = Some 255 ->
  p ∈ interior_pixels width height.
Proof.
  intros Hin Hget. apply blur_pixels_foreground in Hget as [Hinit | (q & Hq & Heq)].
  - unfold get in Hinit. destruct (pixel_index width p <? 0); [discriminate|].
    apply lookup_replicate in Hinit as [? _]. discriminate.
  - rewrite (pixel_index_inj width height p q Hin
               (interior_pixels_inside _ _ _ Hq) Heq).
    exact Hq.
Qed.

Section Scan.
Variables (blurred : list Z) (width height : Z).

Local Abbreviation scanning := (scan_inv blurred width height).

Lemma scan_inv_skip x y pixels visited contours :
  reads blurred (y * width + x) 255 && reads visited (y * width + x) 0 = false ->
  scanning ((x, y) :: pixels) visited contours ->
  scanning pixels visited contours.
Proof.
  intros Htest [Hnd Hpts Hlen Hanc Hpend]. split; try assumption.
  intros p Hin Hb Hv.
  destruct (proj1 (elem_of_cons _ _ _) (Hpend p Hin Hb Hv)) as [-> | Hp];
    [|exact Hp].
  apply reads_spec in Hb, Hv. unfold pixel_index in Hb, Hv. simpl in Hb, Hv.
  rewrite Hb, Hv in Htest. discriminate.
Qed.

(** A trace started on the first pixel still to come gives a new contour
    that is anchored and shares no pixel with the contours found so far. *)
Lemma scan_inv_trace x y pixels visited contours visited' contour :
  Forall (fun q => lower q (x, y) = false) pixels ->
  scanning ((x, y) :: pixels) visited contours ->
  trace_inv blurred width height visited (x, y) visited' contour ->
  scanning pixels visited'
    (if (2 <? length contour)%nat then contours ++ [contour] else contours).
Proof.
  intros Hlow [Hnd Hpts Hlen Hanc Hpend] [Hk Hcnd Hhd Hcpts].
  rewrite Forall_forall in Hcpts.
  assert (Hold :
    Forall (Forall (fun p => inside width height p
                             /\ get visited' (pixel_index width p) = Some 1))
           contours).
  { eapply Forall_impl; [exact Hpts|]. intros c Hc.
    eapply Forall_impl; [exact Hc|]. intros p [Hin H1].
    split; [exact Hin|]. eapply marks_kept_1; eassumption. }
  assert (Hpend' :
    forall p, inside width height p ->
              get blurred (pixel_index width p) = Some 255 ->
              get visited' (pixel_index width p) = Some 0 ->
              p ∈ pixels).
  { intros p Hin Hb Hv.
    pose proof (marks_kept_0 _ _ _ Hk Hv) as Hv0.
    destruct (proj1 (elem_of_cons _ _ _) (Hpend p Hin Hb Hv0)) as [-> | Hp];
      [|exact Hp].
    exfalso. destruct contour as [|p0 contour]; [discriminate|].
    injection Hhd as ->.
    destruct (Hcpts (x, y)) as (_ & _ & _ & H1); [left|]. congruence. }
  destruct (2 <? length contour)%nat eqn:Hlong; [|split; assumption].
  apply Nat.ltb_lt in Hlong. split.
  - rewrite concat_app. simpl. rewrite app_nil_r.
    apply NoDup_app. split; [exact Hnd|]. split; [|exact Hcnd].
    intros p Hp Hpc. apply list_elem_of_In, in_concat in Hp as (c & Hc & Hp).
    apply list_elem_of_In in Hc, Hp.
    rewrite Forall_forall in Hpts. specialize (Hpts c Hc).
    rewrite Forall_forall in Hpts. destruct (Hpts p Hp) as [_ H1].
    destruct (Hcpts p Hpc) as (_ & _ & H0 & _). congruence.
  - apply Forall_app. split; [exact Hold|]. constructor; [|constructor].
    apply Forall_forall. intros p Hp.
    destruct (Hcpts p Hp) as (Hin & _ & _ & H1). split; assumption.
  - apply Forall_app. split; [exact Hlen|]. constructor; [lia | constructor].
  - apply Forall_app. split; [exact Hanc|]. constructor; [|constructor].
    destruct contour as [|p0 contour]; [discriminate|].
    injection Hhd as ->. simpl. apply Forall_forall. intros p Hp.
    destruct (Hcpts p) as (Hin & Hb & H0 & _); [right; exact Hp|].
    destruct (proj1 (elem_of_cons _ _ _) (Hpend p Hin Hb H0)) as [-> | Hq].
    + unfold lower. simpl. rewrite Z.ltb_irrefl, Z.ltb_irrefl, andb_false_r.
      reflexivity.
    + rewrite Forall_forall in Hlow. apply Hlow, Hq.
  - exact Hpend'.
Qed.

Lemma scan_pixels_spec (pixels : list point) :
  forall visited contours,
    row_major pixels ->
    Forall (inside width height) pixels ->
    scanning pixels visited contours ->
    exists visited' contours',
      scan_pixels blurred width height pixels visited contours
      = Some (visited', contours')
      /\ scanning [] visited' contours'.
Proof.
  induction pixels as [|[x y] pixels IH]; intros visited contours Hrm Hin Hinv.
  - exists visited, contours. split; [reflexivity | exact Hinv].
  - apply StronglySorted_cons in Hrm as [Hlow Hrm].
    apply Forall_cons in Hin as [Hxy Hin].
    cbn [scan_pixels].
    destruct (reads blurred (y * width + x) 255
              && reads visited (y * width + x) 0) eqn:Htest.
    + apply andb_true_iff in Htest as [Hb Hv]. apply reads_spec in Hb, Hv.
      destruct (traceContour_spec blurred width height visited (x, y) Hxy Hb Hv)
        as (visited' & contour & Hrun & Htr).
      simpl in Hrun. rewrite Hrun.
      apply IH; [exact Hrm | exact Hin |].
      eapply scan_inv_trace; eassumption.
    + apply IH; [exact Hrm | exact Hin |].
      eapply scan_inv_skip; eassumption.
Qed.
End Scan.

(** Every run of [findContours] returns, and its contours satisfy the
    invariant of the scan. *)
Lemma findContours_spec (binary : list Z) (width height : Z) :
  exists visited contours,
    findContours binary width height = Some contours
    /\ scan_inv (blur (enhance binary) width height) width height
                [] visited contours.
Proof.
  unfold findContours.
  set (blurred := blur (enhance binary) width height).
  destruct (scan_pixels_spec blurred width height
              (interior_pixels width height)
              (replicate (length blurred) 0) [])
    as (visited & contours & Hrun & Hinv).
  - apply interior_pixels_row_major.
  - apply Forall_forall. intros p. apply interior_pixels_inside.
  - split; try constructor.
    intros p Hin Hb _. eapply blur_foreground; eassumption.
  - rewrite Hrun. exists visited, contours. split; [reflexivity | exact Hinv].
Qed.

(** C10. [findContours] returns for every image; every contour it returns
    has at least 3 points, no pixel occurs twice in the contours taken
    together (so neither twice in one contour nor in two contours), and
    every point lies in the image: 0 <= x < width and 0 <= y < height. *)
Theorem findContours_contours (binary : list Z) (width height : Z) :
  exists contours,
    findContours binary width height = Some contours
    /\ Forall (fun contour => (3 <= length contour)%nat) contours
    /\ NoDup (concat contours)
    /\ Forall (Forall (fun '(x, y) => 0 <= x < width /\ 0 <= y < height))
              contours.
Proof.
  destruct (findContours_spec binary width height)
    as (visited & contours & Hrun & [Hnd Hpts Hlen _ _]).
  exists contours. split; [exact Hrun|]. split; [exact Hlen|].
  split; [exact Hnd|].
  eapply Forall_impl; [exact Hpts|]. intros c Hc.
  eapply Forall_impl; [exact Hc|]. intros [x y] [Hin _]. exact Hin.
Qed.

(** ** The detector as a whole *)

Lemma determine_shape_range (circ sol : number) (corners : nat) :
  (determine_shape circ sol corners).1 <> unknown
  /\ num_between 0 1 (determine_shape circ sol corners).2.
Proof.
  destruct (num_gt circ (Fin CONFIG.circularity)) eqn:Hc;
    destruct (Nat.eqb corners 3 && num_gt sol (Fin (85 # 100))) eqn:Ht.
  - apply andb_true_iff in Ht as [Hn Hs]. apply Nat.eqb_eq in Hn. subst corners.
    rewrite (determine_shape_both circ sol Hc Hs).
    destruct (margin_range _ _ (circleConfidence_range circ Hc)
                (triangleConfidence_unit sol Hs)) as [Hwin Hlose].
    destruct (num_gt (circleConfidence_of circ) (triangleConfidence_of sol)).
    + split; [discriminate | apply Hwin; reflexivity].
    + split; [discriminate | apply Hlose; reflexivity].
  - pose proof (circleConfidence_range circ Hc) as Hr.
    unfold determine_shape, circle_detection, triangle_detection.
    rewrite Hc, Ht. cbn [fst snd negb andb]. split; [discriminate | exact Hr].
  - pose proof Ht as Ht'. apply andb_true_iff in Ht' as [_ Hs].
    pose proof (triangleConfidence_unit sol Hs) as Hr.
    unfold determine_shape, circle_detection, triangle_detection.
    rewrite Hc, Ht. cbn [fst snd negb andb]. split; [discriminate | exact Hr].
  - unfold determine_shape, circle_detection, triangle_detection.
    rewrite Hc, Ht. cbn [fst snd negb andb].
    destruct (Nat.leb corners 4); (split; [discriminate | simpl; split; lra]).
Qed.

Lemma sort_insert_not_nil cmp a sorted : sort_insert cmp a sorted <> [].
Proof. destruct sorted as [|b sorted]; simpl; [|destruct (cmp a b)]; discriminate. Qed.

Lemma length_swap_to_front contour start :
  length (swap_to_front contour start) = length contour.
Proof.
  unfold swap_to_front.
  destruct (contour !! 0%nat), (contour !! start); try reflexivity.
  rewrite !length_insert. reflexivity.
Qed.

(** The hull of a contour of two points or more is an array of points. *)
Lemma calculateConvexHull_returns (contour : list point) :
  (2 <= length contour)%nat ->
  exists contour' hull,
    calculateConvexHull contour = (Some contour', Some hull)
    /\ length contour' = length contour.
Proof.
  intros Hlen. destruct contour as [|p0 pts]; [simpl in Hlen; lia|].
  unfold calculateConvexHull.
  pose proof (length_swap_to_front (p0 :: pts) (find_start pts 1 0 p0)) as Hl.
  destruct (swap_to_front (p0 :: pts) (find_start pts 1 0 p0))
    as [|startPoint [|q others]]; simpl in Hl, Hlen; try lia.
  unfold graham_scan.
  change (sort (by_polar_angle startPoint) (q :: others))
    with (sort_insert (by_polar_angle startPoint) q
            (sort (by_polar_angle startPoint) others)).
  destruct (sort_insert (by_polar_angle startPoint) q
              (sort (by_polar_angle startPoint) others))
    as [|q' rest] eqn:E.
  { apply sort_insert_not_nil in E. contradiction. }
  eexists _, _. split; [reflexivity | simpl; lia].
Qed.

Section DetectorTotal.
Context `{MathRuntime}.

Lemma largest_In (first : list point) others :
  In (largest first others) (first :: others).
Proof.
  unfold largest. revert first.
  induction others as [|c others IH]; intros first; cbn [foldl].
  - left. reflexivity.
  - destruct (num_gt (calculateContourArea c) (calculateContourArea first)).
    + destruct (IH c) as [Heq | Hin];
        [right; left; exact Heq | right; right; exact Hin].
    + destruct (IH first) as [Heq | Hin];
        [left; exact Heq | right; right; exact Hin].
Qed.

Lemma epsilon_not_negative (contour : list point) :
  num_gt (Fin 0)
         (num_mul (Fin CONFIG.triangleTolerance)
                  (calculateContourPerimeter contour)) = false.
Proof.
  destruct (perimeter_finite contour) as (q & -> & Hq). simpl.
  apply Qlt_bool_false. unfold CONFIG.triangleTolerance. lra.
Qed.
End DetectorTotal.

(** C5. For every canvas [detectShape] returns a result whose confidence
    is a finite value in the closed interval from 0 to 1, and a result of
    shape unknown has confidence 0. *)
Theorem detectShape_confidence `{MathRuntime} (cv : canvas) :
  exists r,
    detectShape cv = Some r
    /\ num_between 0 1 (confidence r)
    /\ (detectedShape r = unknown -> confidence r = Fin 0).
Proof.
  unfold detectShape.
  destruct (findContours_spec (binarize cv)
              (Z.of_nat (canvas_width cv)) (Z.of_nat (canvas_height cv)))
    as (visited & contours & -> & [_ _ Hlen _ _]).
  destruct (List.filter _ contours) as [|first others] eqn:Hvalid.
  { eexists. split; [reflexivity|]. simpl. split; [split; lra | reflexivity]. }
  set (mainContour := largest first others).
  assert (Hmain : (3 <= length mainContour)%nat).
  { pose proof (largest_In first others) as Hin. rewrite <- Hvalid in Hin.
    apply filter_In in Hin as [Hin _].
    rewrite Forall_forall in Hlen. apply Hlen, list_elem_of_In, Hin. }
  destruct (calculateConvexHull_returns mainContour) as (c' & hull & -> & Hc');
    [lia|].
  destruct (approxPolyDP_returns _ (epsilon_not_negative mainContour)
              (length c') c') as [polygon ->]; [lia|].
  destruct (determine_shape_range
              (calculateCircularity (calculateContourArea mainContour)
                 (calculateContourPerimeter mainContour))
              (num_div (calculateContourArea mainContour)
                 (calculateContourArea hull))
              (length polygon)) as [Hshape Hconf].
  destruct (determine_shape _ _ _) as [s conf]. simpl in *.
  eexists. split; [reflexivity|]. simpl.
  split; [exact Hconf | intros Hs; contradiction].
Qed.

(** ** Directions in the upper half plane *)

Lemma angle_compare_upper (u v : point) :
  upper u -> upper v -> angle_compare u v = (0 ?= cross u v).
Proof.
  destruct u as [a b], v as [c d]. unfold upper, angle_compare, angle_class, cross.
  simpl fst; simpl snd. intros Hu Hv.
  remember (0 ?= a * d - b * c) as r eqn:Hr. symmetry in Hr.
  destruct (Z.ltb_spec b 0); [lia|]. destruct (Z.ltb_spec d 0); [lia|].
  destruct (Z.ltb_spec 0 b), (Z.ltb_spec 0 d); simpl.
  - reflexivity.
  - destruct (Z.ltb_spec c 0); [lia|]. simpl.
    symmetry. rewrite <- Hr. apply Z.compare_gt_iff. nia.
  - destruct (Z.ltb_spec a 0); [lia|]. simpl.
    symmetry. rewrite <- Hr. apply Z.compare_lt_iff. nia.
  - destruct (Z.ltb_spec a 0); [lia|]. destruct (Z.ltb_spec c 0); [lia|].
    reflexivity.
Qed.

Lemma cross_upper_trans (u v w : point) :
  upper u -> upper v -> upper w ->
  0 <= cross u v -> 0 <= cross v w -> 0 <= cross u w.
Proof.
  destruct u as [a b], v as [c d], w as [e f]. unfold upper, cross. simpl.
  intros Hu Hv Hw Huv Hvw.
  assert (Hid : (a * f - b * e) * d = (a * d - b * c) * f + (c * f - d * e) * b)
    by ring.
  destruct Hv as [Hd | [-> Hc]].
  - assert (0 <= (a * f - b * e) * d) by nia. nia.
  - assert (b = 0) by nia. subst b. nia.
Qed.

(** Between two directions that point the same way there is only that
    way. *)
Lemma cross_upper_squeeze (u v w : point) :
  upper u -> upper v -> upper w ->
  0 <= cross u v -> 0 <= cross v w -> cross u w = 0 -> cross u v = 0.
Proof.
  destruct u as [a b], v as [c d], w as [e f]. unfold upper, cross. simpl.
  intros Hu Hv Hw Huv Hvw Huw.
  assert (Hid : (a * d - b * c) * f + (c * f - d * e) * b = (a * f - b * e) * d)
    by ring.
  rewrite Huw in Hid.
  destruct Hw as [Hf | [-> He]].
  - assert (0 <= (c * f - d * e) * b) by nia.
    assert ((a * d - b * c) * f = 0) by nia. nia.
  - assert (b = 0) by nia. subst b.
    assert (d = 0) by nia. subst d. lia.
Qed.

Lemma cross_parallel (d u v : point) :
  d <> (0, 0) -> cross d u = 0 -> cross d v = 0 -> cross u v = 0.
Proof.
  destruct d as [a b], u as [c e], v as [f g]. unfold cross. simpl.
  intros Hd Hu Hv.
  assert (H1 : (c * g - e * f) * a = (a * g - b * f) * c - (a * e - b * c) * f)
    by ring.
  assert (H2 : (c * g - e * f) * b = (a * g - b * f) * e - (a * e - b * c) * g)
    by ring.
  rewrite Hu, Hv in H1, H2.
  destruct (Z.eq_dec a 0) as [-> | Ha]; [|nia].
  destruct (Z.eq_dec b 0) as [-> | Hb]; [contradiction | nia].
Qed.

Lemma upper_not_0 (v : point) : upper v -> v <> (0, 0).
Proof. unfold upper. intros Hv ->. simpl in Hv. lia. Qed.

(** ** The shoelace sum seen from a point *)

Lemma shoelace_chain (s : point) (l : list point) :
  forall a b acc,
    foldl (fun acc '((xi, yi), (xj, yj)) => acc + xi * yj - xj * yi) acc
          (zip (a :: l) (l ++ [b]))
    = acc + fan s a l b + cross s b - cross s a.
Proof.
  induction l as [|x l IH]; intros [ax ay] [bx by_] acc.
  - destruct s as [sx sy]. simpl. unfold cross, vec. simpl. ring.
  - destruct x as [xx xy].
    change (zip ((ax, ay) :: (xx, xy) :: l) (((xx, xy) :: l) ++ [(bx, by_)]))
      with (((ax, ay), (xx, xy)) :: zip ((xx, xy) :: l) (l ++ [(bx, by_)])).
    cbn [foldl fan]. rewrite IH.
    destruct s as [sx sy]. unfold cross, vec. simpl. ring.
Qed.

(** The shoelace sum does not depend on the origin. *)
Lemma shoelace_fan (s a : point) (l : list point) :
  shoelace (a :: l) = fan s a l a.
Proof.
  unfold shoelace, cyclic_pairs. rewrite (shoelace_chain s). ring.
Qed.

Lemma cross_0_l (v : point) : cross (0, 0) v = 0.
Proof. unfold cross. simpl. ring. Qed.

Lemma cross_0_r (v : point) : cross v (0, 0) = 0.
Proof. unfold cross. simpl. ring. Qed.

Lemma cross_antisym (u v : point) : cross u v = - cross v u.
Proof. unfold cross. ring. Qed.

Lemma vec_self (s : point) : vec s s = (0, 0).
Proof. unfold vec. f_equal; ring. Qed.

(** On one line through [s] the steps of a chain enclose nothing. *)
Lemma fan_collinear (s d : point) (l : list point) :
  d <> (0, 0) ->
  forall a b,
    Forall (fun p => cross d (vec s p) = 0) (a :: l ++ [b]) ->
    fan s a l b = 0.
Proof.
  intros Hd. induction l as [|x l IH]; intros a b Hall.
  - simpl in *. inversion Hall as [|? ? Ha Hb]; subst.
    inversion Hb; subst. eapply cross_parallel; eassumption.
  - simpl in *. inversion Hall as [|? ? Ha Hrest]; subst.
    rewrite (IH x b Hrest). inversion Hrest; subst.
    rewrite (cross_parallel d (vec s a) (vec s x)) by assumption. ring.
Qed.

(** A chain that turns counter-clockwise around [s] and comes back to [s]
    encloses a non-negative sum, which is 0 only if all its points lie in
    the direction of the first. *)
Lemma fan_nonneg (s : point) (tl : list point) :
  forall h,
    Forall (fun p => upper (vec s p)) (h :: tl) ->
    StronglySorted (ccw_le s) (h :: tl) ->
    0 <= fan s h tl s
    /\ (fan s h tl s = 0 ->
        Forall (fun p => cross (vec s h) (vec s p) = 0) tl).
Proof.
  induction tl as [|x tl IH]; intros h Hup Hss.
  - simpl. rewrite vec_self, cross_0_r. split; [lia | constructor].
  - apply StronglySorted_cons in Hss as [Hh Hss].
    apply Forall_cons in Hup as [Hhu Hup].
    destruct (IH x Hup Hss) as [Hge Hzero].
    apply Forall_cons in Hh as [Hhx _]. unfold ccw_le in Hhx.
    simpl. split; [lia|].
    intros Hsum. assert (Hc : cross (vec s h) (vec s x) = 0) by lia.
    constructor; [exact Hc|].
    eapply Forall_impl; [apply Hzero; lia|].
    intros p Hp. simpl in Hp.
    apply (cross_parallel (vec s x)).
    + apply upper_not_0. apply Forall_cons in Hup as [Hxu _]. exact Hxu.
    + rewrite cross_antisym, Hc. reflexivity.
    + exact Hp.
Qed.

(** ** The sort by polar angle *)

Lemma sort_insert_perm cmp a (l : list point) : sort_insert cmp a l ≡ₚ a :: l.
Proof.
  induction l as [|b l IH]; simpl; [reflexivity|].
  destruct (cmp a b); try reflexivity.
  rewrite IH. apply Permutation_swap.
Qed.

Lemma sort_perm cmp (l : list point) : sort cmp l ≡ₚ l.
Proof.
  induction l as [|a l IH]; simpl; [reflexivity|].
  rewrite sort_insert_perm, IH. reflexivity.
Qed.

Section PolarOrder.
Variable s : point.

Lemma by_polar_angle_upper (a b : point) :
  upper (vec s a) -> upper (vec s b) ->
  by_polar_angle s a b = (0 ?= cross (vec s a) (vec s b)).
Proof. apply angle_compare_upper. Qed.

Lemma ccw_le_trans (a b c : point) :
  upper (vec s a) -> upper (vec s b) -> upper (vec s c) ->
  ccw_le s a b -> ccw_le s b c -> ccw_le s a c.
Proof. unfold ccw_le. apply cross_upper_trans. Qed.

Lemma sort_insert_sorted (a : point) (l : list point) :
  upper (vec s a) -> Forall (fun p => upper (vec s p)) l ->
  StronglySorted (ccw_le s) l ->
  StronglySorted (ccw_le s) (sort_insert (by_polar_angle s) a l).
Proof.
  intros Ha Hup Hss. induction Hss as [|b l Hss IH Hb]; simpl.
  - repeat constructor.
  - apply Forall_cons in Hup as [Hbu Hup].
    rewrite (by_polar_angle_upper a b Ha Hbu).
    destruct (Z.compare_spec 0 (cross (vec s a) (vec s b))) as [Heq | Hlt | Hgt].
    + constructor; [constructor; assumption|].
      constructor; [unfold ccw_le; lia|].
      rewrite Forall_forall in Hb, Hup |- *. intros x Hx.
      apply (ccw_le_trans a b x); auto. unfold ccw_le. lia.
    + constructor; [constructor; assumption|].
      constructor; [unfold ccw_le; lia|].
      rewrite Forall_forall in Hb, Hup |- *. intros x Hx.
      apply (ccw_le_trans a b x); auto. unfold ccw_le. lia.
    + constructor; [apply IH, Hup|].
      rewrite sort_insert_perm. constructor; [|exact Hb].
      unfold ccw_le. rewrite cross_antisym. lia.
Qed.

Lemma sort_sorted (l : list point) :
  Forall (fun p => upper (vec s p)) l ->
  StronglySorted (ccw_le s) (sort (by_polar_angle s) l).
Proof.
  induction 1 as [|a l Ha Hup IH]; simpl; [constructor|].
  apply sort_insert_sorted; [exact Ha | | exact IH].
  rewrite sort_perm. exact Hup.
Qed.
End PolarOrder.

(** ** The anchor *)

Lemma lower_spec (p q : point) :
  lower p q = true <-> p.2 < q.2 \/ (p.2 = q.2 /\ p.1 < q.1).
Proof.
  unfold lower. rewrite orb_true_iff, andb_true_iff, !Z.ltb_lt, Z.eqb_eq.
  reflexivity.
Qed.

Lemma lower_false (p q : point) :
  lower p q = false <-> q.2 < p.2 \/ (q.2 = p.2 /\ q.1 <= p.1).
Proof.
  rewrite <- not_true_iff_false, lower_spec. lia.
Qed.

(** The anchor search ends at a point of the contour that no point is
    lower than. *)
Lemma find_start_lowest (pts : list point) :
  forall (seen : list point) (start : nat) (best : point),
    (seen ++ pts) !! start = Some best ->
    Forall (fun q => lower q best = false) seen ->
    exists s,
      (seen ++ pts) !! find_start pts (length seen) start best = Some s
      /\ Forall (fun q => lower q s = false) (seen ++ pts).
Proof.
  induction pts as [|p pts IH]; intros seen start best Hbest Hseen; simpl.
  - exists best. split; [exact Hbest|]. rewrite app_nil_r. exact Hseen.
  - replace (seen ++ p :: pts) with ((seen ++ [p]) ++ pts) in *
      by (rewrite <- app_assoc; reflexivity).
    replace (S (length seen)) with (length (seen ++ [p]))
      by (rewrite length_app; simpl; lia).
    destruct (lower p best) eqn:Hp.
    + apply IH.
      * rewrite lookup_app_l by (rewrite length_app; simpl; lia).
        rewrite lookup_app_r by lia. rewrite Nat.sub_diag. reflexivity.
      * apply Forall_app. split.
        -- eapply Forall_impl; [exact Hseen|]. intros q Hq.
           apply lower_false in Hq. apply lower_spec in Hp.
           apply lower_false. lia.
        -- constructor; [apply lower_false; lia | constructor].
    + apply IH; [exact Hbest|].
      apply Forall_app. split; [exact Hseen|]. constructor; [exact Hp | constructor].
Qed.

(** After the exchange the contour is its lowest point followed by the
    other points: the same points in another order. *)
Lemma anchor_first (p0 : point) (pts : list point) :
  exists s others,
    swap_to_front (p0 :: pts) (find_start pts 1 0 p0) = s :: others
    /\ s :: others ≡ₚ p0 :: pts
    /\ Forall (fun q => lower q s = false) others.
Proof.
  destruct (find_start_lowest pts [p0] 0 p0 eq_refl) as (s & Hs & Hlow).
  { constructor; [apply lower_false; lia | constructor]. }
  simpl in Hs, Hlow. unfold swap_to_front. simpl (_ !! 0%nat).
  rewrite Hs.
  destruct (find_start pts 1 0 p0) as [|k] eqn:Hk.
  - simpl in Hs. injection Hs as <-. exists p0, pts.
    split; [reflexivity|]. split; [reflexivity|].
    apply Forall_cons in Hlow as [_ Hlow]. exact Hlow.
  - simpl in Hs. exists s, (<[k := p0]> pts).
    split; [reflexivity|].
    assert (Hperm : s :: <[k := p0]> pts ≡ₚ p0 :: pts).
    { rewrite <- (take_drop_middle pts k s Hs) at 2.
      rewrite insert_take_drop by (apply lookup_lt_Some in Hs; exact Hs).
      rewrite <- !Permutation_middle. apply Permutation_swap. }
    split; [exact Hperm|].
    assert (Hall : Forall (fun q => lower q s = false) (s :: <[k := p0]> pts)).
    { rewrite Hperm. exact Hlow. }
    apply Forall_cons in Hall as [_ Hall]. exact Hall.
Qed.

Lemma upper_from_anchor (s p : point) :
  lower p s = false -> p <> s -> upper (vec s p).
Proof.
  destruct s as [sx sy], p as [px py]. intros Hl Hne.
  apply lower_false in Hl. unfold upper, vec. simpl in *.
  assert (px <> sx \/ py <> sy).
  { destruct (Z.eq_dec px sx), (Z.eq_dec py sy); subst; auto. }
  lia.
Qed.

(** ** The contour after the hull stage *)

Lemma hull_keeps_anchored (c : list point) :
  anchored c -> (calculateConvexHull c).1 = Some c.
Proof.
  destruct c as [|p0 pts]; [intros []|]. simpl. intros Hanc.
  rewrite (find_start_anchored pts 1 0 p0 Hanc). reflexivity.
Qed.

(** C2.  The hull stage leaves the contour it is given as it found it.
    [calculateConvexHull] is private to the module and has one caller,
    [detectShape], which passes it the main contour: the first contour of
    largest area among the contours of [findContours] that pass the area
    filter.  Every contour that [findContours] returns begins with its
    lowest point (the leftmost among the lowest), so the anchor search ends
    with [start = 0], the exchange of line 491 puts both elements where they
    were, and the caller's array after the call is the array before the
    call, element for element and in order.  The first part is about every
    contour of every trace, the second about the argument of the call in
    [detectShape]. *)
Theorem hull_keeps_traced_contour :
  (forall binary width height contours c,
     findContours binary width height = Some contours ->
     c ∈ contours ->
     anchored c /\ (calculateConvexHull c).1 = Some c)
  /\ (forall (cv : canvas) contours first others,
        findContours (binarize cv) (Z.of_nat (canvas_width cv))
                     (Z.of_nat (canvas_height cv)) = Some contours ->
        List.filter
          (fun contour =>
             num_gt (calculateContourArea contour) (Fin CONFIG.contourMinArea))
          contours = first :: others ->
        (calculateConvexHull (largest first others)).1
        = Some (largest first others)).
Proof.
  assert (Htraced : forall binary width height contours c,
             findContours binary width height = Some contours ->
             c ∈ contours -> anchored c).
  { intros binary width height contours c Hrun Hc.
    destruct (findContours_spec binary width height)
      as (visited & contours' & Hrun' & [_ _ _ Hanc _]).
    rewrite Hrun in Hrun'. injection Hrun' as <-.
    rewrite Forall_forall in Hanc. exact (Hanc c Hc). }
  split.
  - intros binary width height contours c Hrun Hc.
    pose proof (Htraced _ _ _ _ _ Hrun Hc) as Hanc.
    split; [exact Hanc | apply hull_keeps_anchored, Hanc].
  - intros cv contours first others Hrun Hvalid.
    apply hull_keeps_anchored. apply (Htraced _ _ _ _ _ Hrun).
    pose proof (largest_In first others) as Hin. rewrite <- Hvalid in Hin.
    apply filter_In in Hin as [Hin _]. apply list_elem_of_In, Hin.
Qed.

Lemma hull_keeps_traced_contour_witness :
  findContours small_square 8 8
  = Some [[(3, 2); (4, 2); (3, 3); (2, 3); (2, 4); (3, 4);
           (4, 3); (5, 3); (4, 4); (5, 4); (4, 5); (3, 5)]]
  /\ (calculateConvexHull
        [(3, 2); (4, 2); (3, 3); (2, 3); (2, 4); (3, 4);
         (4, 3); (5, 3); (4, 4); (5, 4); (4, 5); (3, 5)]).1
     = Some [(3, 2); (4, 2); (3, 3); (2, 3); (2, 4); (3, 4);
             (4, 3); (5, 3); (4, 4); (5, 4); (4, 5); (3, 5)].
Proof.
  assert (Hrun : findContours small_square 8 8
    = Some [[(3, 2); (4, 2); (3, 3); (2, 3); (2, 4); (3, 4);
             (4, 3); (5, 3); (4, 4); (5, 4); (4, 5); (3, 5)]]).
  { vm_compute. reflexivity. }
  split; [exact Hrun|].
  apply (proj1 hull_keeps_traced_contour small_square 8 8 _ _ Hrun).
  left.
Defined.

(** ** The scan of the hull *)

Lemma isCounterClockwise_cross (p1 p2 p3 : point) :
  isCounterClockwise p1 p2 p3 = (0 <? cross (vec p1 p2) (vec p1 p3)).
Proof. reflexivity. Qed.

Section Graham.
(** [s] is the anchor and [q0] the first of the sorted points. *)
Variables s q0 : point.

Local Abbreviation hull_state := (hull_inv s q0).

(** The loop pops a final part of the hull and never the anchor; when it
    pops everything else, the first point of the hull was not to the right
    of the way from [s] to [p]. *)
Lemma pop_while_prefix (p : point) (hs : list point) :
  exists hs1 hs2,
    hs = hs1 ++ hs2
    /\ pop_while (rev hs ++ [s]) p = rev hs1 ++ [s]
    /\ (hs1 = [] -> forall h1, head hs = Some h1 ->
                               isCounterClockwise s h1 p = false).
Proof.
  induction hs as [|t hs IH] using rev_ind.
  - exists [], []. split; [reflexivity|]. split; [reflexivity|].
    intros _ h1 Hh. discriminate.
  - rewrite rev_app_distr. cbn [rev app].
    destruct (rev hs ++ [s]) as [|below rest] eqn:Hrev.
    { destruct (rev hs); discriminate. }
    cbn [pop_while].
    destruct (isCounterClockwise below t p) eqn:Hccw.
    + exists (hs ++ [t]), []. split; [rewrite app_nil_r; reflexivity|].
      split.
      * rewrite rev_app_distr. cbn [rev app]. rewrite Hrev. reflexivity.
      * intros Hnil. destruct hs; discriminate.
    + destruct IH as (hs1 & hs2 & Hsplit & Hpop & Hfirst).
      exists hs1, (hs2 ++ [t]). split; [rewrite app_assoc, <- Hsplit; reflexivity|].
      split; [exact Hpop|].
      intros Hnil h1 Hh. destruct hs as [|h hs'].
      * simpl in Hh, Hrev. injection Hh as <-. injection Hrev as <- _.
        exact Hccw.
      * apply Hfirst; [exact Hnil | exact Hh].
Qed.

Lemma graham_step (p : point) (hs remaining : list point) :
  hull_state hs (p :: remaining) ->
  StronglySorted (ccw_le s) (p :: remaining) ->
  upper (vec s p) ->
  exists hs',
    p :: pop_while (rev hs ++ [s]) p = rev hs' ++ [s]
    /\ hull_state hs' remaining
    /\ last hs' = Some p.
Proof.
  intros [Hne Hss Hup (h1 & Hh1 & Hpar) Hbefore] Hrem Hp.
  destruct (pop_while_prefix p hs) as (hs1 & hs2 & -> & Hpop & Hfirst).
  apply StronglySorted_cons in Hrem as [Hprem Hrem].
  apply StronglySorted_app in Hss as (_ & Hss1 & _).
  pose proof (proj1 (proj1 (Forall_app _ _ _) Hup)) as Hup1.
  pose proof (proj1 (proj1 (Forall_app _ _ _) Hbefore)) as Hbefore1.
  rewrite Forall_forall in Hup, Hbefore.
  exists (hs1 ++ [p]). split; [|split; [split|]].
  - rewrite Hpop, rev_app_distr. reflexivity.
  - destruct hs1; discriminate.
  - apply StronglySorted_app_2; [|exact Hss1 | repeat constructor].
    intros h q Hh Hq. apply list_elem_of_singleton in Hq as ->.
    rewrite Forall_forall in Hbefore1. specialize (Hbefore1 h Hh).
    apply Forall_cons in Hbefore1 as [Hhp _]. exact Hhp.
  - apply Forall_app. split; [exact Hup1|].
    constructor; [exact Hp | constructor].
  - destruct hs1 as [|h hs1].
    + exists p. split; [reflexivity|].
      specialize (Hfirst eq_refl h1 Hh1).
      rewrite isCounterClockwise_cross in Hfirst. apply Z.ltb_ge in Hfirst.
      assert (Hh1in : h1 ∈ [] ++ hs2).
      { destruct hs2; [discriminate|]. injection Hh1 as ->. left. }
      assert (Hle : ccw_le s h1 p).
      { specialize (Hbefore h1 Hh1in). apply Forall_cons in Hbefore as [Hc _].
        exact Hc. }
      unfold ccw_le in Hle.
      apply (cross_parallel (vec s h1)).
      * apply upper_not_0. apply Hup, Hh1in.
      * lia.
      * exact Hpar.
    + exists h1. split; [exact Hh1 | exact Hpar].
  - apply Forall_app. split.
    + eapply Forall_impl; [exact Hbefore1|]. intros h Hh.
      apply Forall_cons in Hh as [_ Hh]. exact Hh.
    + constructor; [exact Hprem | constructor].
  - apply last_snoc.
Qed.

Lemma graham_fold (remaining : list point) :
  forall hs,
    hull_state hs remaining ->
    StronglySorted (ccw_le s) remaining ->
    Forall (fun p => upper (vec s p)) remaining ->
    exists hs',
      foldl (fun hull p => p :: pop_while hull p) (rev hs ++ [s]) remaining
      = rev hs' ++ [s]
      /\ hull_state hs' []
      /\ last hs' = last (hs ++ remaining).
Proof.
  induction remaining as [|p remaining IH]; intros hs Hinv Hss Hup.
  - exists hs. split; [reflexivity|]. split; [exact Hinv|].
    rewrite app_nil_r. reflexivity.
  - apply Forall_cons in Hup as [Hp Hup].
    destruct (graham_step p hs remaining Hinv Hss Hp) as (hs1 & Hstep & Hinv1 & Hlast).
    apply StronglySorted_cons in Hss as [_ Hss].
    destruct (IH hs1 Hinv1 Hss Hup) as (hs' & Hfold & Hinv' & Hlast').
    exists hs'. split; [|split; [exact Hinv'|]].
    + cbn [foldl]. rewrite Hstep. exact Hfold.
    + rewrite Hlast', !last_app, last_cons, Hlast.
      destruct (last remaining); reflexivity.
Qed.
End Graham.

Lemma cross_self (u : point) : cross u u = 0.
Proof. unfold cross. ring. Qed.

Lemma sorted_last_bound (s : point) (l : list point) (ql : point) :
  StronglySorted (ccw_le s) l -> last l = Some ql ->
  Forall (fun p => ccw_le s p ql \/ p = ql) l.
Proof.
  induction 1 as [|a l Hss IH Ha]; intros Hlast; [constructor|].
  destruct l as [|b l].
  - injection Hlast as <-. constructor; [right; reflexivity | constructor].
  - rewrite last_cons_cons in Hlast. constructor; [|apply IH, Hlast].
    left. rewrite Forall_forall in Ha. apply Ha.
    apply list_elem_of_lookup. exists (length l).
    rewrite last_lookup in Hlast. exact Hlast.
Qed.

(** A hull that encloses nothing comes from a contour that encloses
    nothing: when the points of a contour are distinct and the shoelace sum
    of its hull is 0, all points lie on one line through the anchor, and the
    shoelace sum of the contour is 0 as well. *)
Lemma hull_degenerate (c c' hull : list point) :
  NoDup c ->
  calculateConvexHull c = (Some c', Some hull) ->
  shoelace hull = 0 ->
  shoelace c = 0.
Proof.
  intros Hnd Hhull Harea.
  destruct c as [|p0 pts]; [discriminate|].
  destruct (anchor_first p0 pts) as (s & others & Hswap & Hperm & Hlow).
  unfold calculateConvexHull in Hhull. rewrite Hswap in Hhull.
  injection Hhull as _ Hscan.
  assert (Hnd' : NoDup (s :: others)) by (rewrite Hperm; exact Hnd).
  apply NoDup_cons in Hnd' as [Hs _].
  assert (Hup : Forall (fun p => upper (vec s p)) others).
  { rewrite Forall_forall in Hlow |- *. intros p Hp.
    apply upper_from_anchor; [apply Hlow, Hp|]. intros ->. contradiction. }
  pose proof (sort_sorted s others Hup) as Hss.
  pose proof (sort_perm (by_polar_angle s) others) as Hsp.
  assert (Hups : Forall (fun p => upper (vec s p))
                        (sort (by_polar_angle s) others))
    by (rewrite Hsp; exact Hup).
  destruct (sort (by_polar_angle s) others) as [|q0 rest] eqn:Hsorted;
    [discriminate|].
  unfold graham_scan in Hscan. injection Hscan as <-.
  (* the invariant of the scan, from its first state to its last *)
  pose proof Hss as Hss'. apply StronglySorted_cons in Hss' as [Hq0 Hrest].
  pose proof Hups as Hups'. apply Forall_cons in Hups' as [Hq0u Hrestu].
  destruct (graham_fold s q0 rest [q0]) as (hs & Hfold & Hinv & Hlast);
    [|exact Hrest | exact Hrestu |].
  { split.
    - discriminate.
    - repeat constructor.
    - constructor; [exact Hq0u | constructor].
    - exists q0. split; [reflexivity | apply cross_self].
    - constructor; [exact Hq0 | constructor]. }
  change (rev [q0] ++ [s]) with [q0; s] in Hfold.
  rewrite Hfold, rev_app_distr, rev_involutive in Harea. cbn [rev app] in Harea.
  destruct Hinv as [Hne Hhs Hhsu (h1 & Hh1 & Hpar) _].
  destruct hs as [|h tl]; [contradiction|]. injection Hh1 as ->.
  rewrite (shoelace_fan s) in Harea. cbn [fan] in Harea.
  rewrite vec_self, cross_0_l, Z.add_0_l in Harea.
  destruct (fan_nonneg s tl h1 Hhsu Hhs) as [_ Hzero].
  specialize (Hzero Harea).
  (* the last sorted point lies in the direction of the first *)
  change ([q0] ++ rest) with (q0 :: rest) in Hlast.
  assert (Hql : exists ql, last (q0 :: rest) = Some ql
                           /\ cross (vec s h1) (vec s ql) = 0
                           /\ ql ∈ q0 :: rest).
  { destruct (last (h1 :: tl)) as [ql|] eqn:E.
    - exists ql. split; [symmetry; exact Hlast|]. split.
      + assert (Hin : ql ∈ h1 :: tl).
        { rewrite last_lookup in E. apply list_elem_of_lookup. eauto. }
        apply elem_of_cons in Hin as [-> | Hin]; [apply cross_self|].
        rewrite Forall_forall in Hzero. apply Hzero, Hin.
      + rewrite last_lookup in Hlast. symmetry in Hlast.
        apply list_elem_of_lookup. eauto.
    - apply last_None in E. discriminate. }
  destruct Hql as (ql & Hqlast & Hparl & Hqlin).
  assert (Hh1u : upper (vec s h1)).
  { apply Forall_cons in Hhsu as [Hu _]. exact Hu. }
  assert (Hends : cross (vec s q0) (vec s ql) = 0).
  { apply (cross_parallel (vec s h1));
      [apply upper_not_0, Hh1u | exact Hpar | exact Hparl]. }
  assert (Hqlu : upper (vec s ql)).
  { rewrite Forall_forall in Hups. apply Hups, Hqlin. }
  assert (Hline : Forall (fun p => cross (vec s q0) (vec s p) = 0) (q0 :: rest)).
  { pose proof (sorted_last_bound s _ ql Hss Hqlast) as Hbound.
    constructor; [apply cross_self|].
    apply Forall_cons in Hbound as [_ Hbound].
    rewrite Forall_forall in Hbound, Hq0, Hrestu |- *. intros p Hp.
    destruct (Hbound p Hp) as [Hle | ->]; [|exact Hends].
    apply (cross_upper_squeeze (vec s q0) (vec s p) (vec s ql)); auto.
    - apply Hq0, Hp.  }
  (* so do all points of the contour *)
  assert (Hall : Forall (fun p => cross (vec s q0) (vec s p) = 0) (p0 :: pts)).
  { rewrite <- Hperm. constructor; [rewrite vec_self; apply cross_0_r|].
    rewrite <- Hsp. exact Hline. }
  rewrite (shoelace_fan s). apply (fan_collinear s (vec s q0)).
  - apply upper_not_0, Hq0u.
  - rewrite app_comm_cons. apply Forall_app. split; [exact Hall|].
    apply Forall_cons in Hall as [Hp0 _]. constructor; [exact Hp0 | constructor].
Qed.

Lemma area_zero (c : list point) :
  num_eq (calculateContourArea c) (Fin 0) <-> shoelace c = 0.
Proof.
  unfold calculateContourArea. simpl.
  unfold Qeq, Qabs, Qdiv, Qmult, Qinv, inject_Z. simpl. lia.
Qed.

Lemma traced_contour_NoDup binary width height contours (c : list point) :
  findContours binary width height = Some contours -> c ∈ contours -> NoDup c.
Proof.
  intros Hrun Hc.
  destruct (findContours_spec binary width height)
    as (visited & contours' & Hrun' & [Hnd _ _ _ _]).
  rewrite Hrun in Hrun'. injection Hrun' as <-.
  apply list_elem_of_In, in_split in Hc as (l1 & l2 & ->).
  rewrite concat_app in Hnd. simpl in Hnd.
  apply NoDup_app in Hnd as (_ & _ & Hnd).
  apply NoDup_app in Hnd as (Hnd & _). exact Hnd.
Qed.

(** A contour that passes the area filter of [detectShape] never has a hull
    of area 0. *)
Lemma main_contour_hull_positive (c c' hull : list point) :
  NoDup c ->
  calculateConvexHull c = (Some c', Some hull) ->
  num_gt (calculateContourArea c) (Fin CONFIG.contourMinArea) = true ->
  ~ num_eq (calculateContourArea hull) (Fin 0).
Proof.
  intros Hnd Hhull Harea Hzero. apply area_zero in Hzero.
  pose proof (hull_degenerate c c' hull Hnd Hhull Hzero) as Hc.
  unfold calculateContourArea in Harea. rewrite Hc in Harea. discriminate.
Qed.

(** The points have to be distinct: a contour that comes back to its lowest
    point can enclose an area while its hull encloses none, and the quotient
    is then [+Infinity].  The tracer never produces such a contour. *)
Lemma repeated_point_hull :
  calculateConvexHull [(0, 0); (1, 0); (0, 1); (0, 0)]
  = (Some [(0, 0); (1, 0); (0, 1); (0, 0)], Some [(0, 0); (0, 1)])
  /\ num_div (calculateContourArea [(0, 0); (1, 0); (0, 1); (0, 0)])
             (calculateContourArea [(0, 0); (0, 1)]) = PInf.
Proof. split; reflexivity. Qed.

(** C3. When the hull of a contour of distinct points (as traced contours
    are) has area 0, the contour has area 0 too, and the quotient area /
    hull area is [NaN], computed without failure: the test solidity > 0.85
    fails, [isTriangle] is false whatever the corner count, and the result
    comes from the circle hypothesis or from the fallback, never from the
    triangle hypothesis. *)
Theorem degenerate_hull_not_triangle
    (c c' hull : list point) (corners : nat) (circ : number) :
  NoDup c ->
  calculateConvexHull c = (Some c', Some hull) ->
  num_eq (calculateContourArea hull) (Fin 0) ->
  let solidity :=
    num_div (calculateContourArea c) (calculateContourArea hull) in
  num_eq (calculateContourArea c) (Fin 0)
  /\ solidity = NaN
  /\ triangle_detection corners solidity = (false, Fin 0)
  /\ determine_shape circ solidity corners
     = if num_gt circ (Fin CONFIG.circularity)
       then (circle, circleConfidence_of circ)
       else (if Nat.leb corners 4 then triangle else circle, Fin (5 # 10)).
Proof.
  intros Hnd Hhull Hzero solidity.
  apply area_zero in Hzero.
  pose proof (hull_degenerate c c' hull Hnd Hhull Hzero) as Hc.
  split; [apply area_zero, Hc|].
  assert (Hsol : solidity = NaN).
  { subst solidity. unfold calculateContourArea. rewrite Hc, Hzero. reflexivity. }
  rewrite Hsol. split; [reflexivity|].
  assert (Ht : triangle_detection corners NaN = (false, Fin 0)).
  { unfold triangle_detection. simpl. rewrite andb_false_r. reflexivity. }
  split; [exact Ht|].
  unfold determine_shape. rewrite Ht. unfold circle_detection.
  destruct (num_gt circ (Fin CONFIG.circularity)); [reflexivity|].
  simpl. destruct (Nat.leb corners 4); reflexivity.
Qed.

Lemma degenerate_hull_not_triangle_witness :
  calculateConvexHull [(0, 0); (1, 0); (2, 0)]
  = (Some [(0, 0); (1, 0); (2, 0)], Some [(0, 0); (2, 0)])
  /\ num_div (calculateContourArea [(0, 0); (1, 0); (2, 0)])
             (calculateContourArea [(0, 0); (2, 0)]) = NaN
  /\ triangle_detection 3
       (num_div (calculateContourArea [(0, 0); (1, 0); (2, 0)])
                (calculateContourArea [(0, 0); (2, 0)])) = (false, Fin 0).
Proof.
  assert (Hhull : calculateConvexHull [(0, 0); (1, 0); (2, 0)]
                  = (Some [(0, 0); (1, 0); (2, 0)], Some [(0, 0); (2, 0)]))
    by reflexivity.
  assert (Hnd : NoDup [(0, 0); (1, 0); (2, 0)]).
  { apply NoDup_ListNoDup. repeat constructor; simpl; intuition discriminate. }
  assert (Hzero : num_eq (calculateContourArea [(0, 0); (2, 0)]) (Fin 0))
    by reflexivity.
  split; [exact Hhull|].
  destruct (degenerate_hull_not_triangle _ _ _ 3 (Fin 0) Hnd Hhull Hzero)
    as (_ & Hsol & Htri & _).
  split; [exact Hsol | exact Htri].
Defined.

(** ** The measures of a contour *)

Lemma fan_translate (s d : point) (l : list point) :
  forall a b,
    fan (s.1 + d.1, s.2 + d.2) (a.1 + d.1, a.2 + d.2) (translate d l)
        (b.1 + d.1, b.2 + d.2)
    = fan s a l b.
Proof.
  induction l as [|x l IH]; intros a b; cbn [translate fmap list_fmap fan].
  - unfold cross, vec. simpl. ring.
  - fold (translate d l). rewrite IH. unfold cross, vec. simpl. ring.
Qed.

Lemma shoelace_translate (d : point) (c : list point) :
  shoelace (translate d c) = shoelace c.
Proof.
  destruct c as [|a l]; [reflexivity|].
  change (translate d (a :: l))
    with ((a.1 + d.1, a.2 + d.2) :: translate d l).
  rewrite (shoelace_fan (0 + d.1, 0 + d.2)), (shoelace_fan (0, 0) a).
  apply (fan_translate (0, 0)).
Qed.

Lemma zip_translate (d : point) (l1 l2 : list point) :
  zip (translate d l1) (translate d l2)
  = (fun pr : point * point =>
       ((pr.1.1 + d.1, pr.1.2 + d.2), (pr.2.1 + d.1, pr.2.2 + d.2)))
      <$> zip l1 l2.
Proof.
  revert l2. induction l1 as [|p l1 IH]; intros [|q l2]; try reflexivity.
  cbn [translate fmap list_fmap zip zip_with]. f_equal. apply IH.
Qed.

Lemma cyclic_pairs_translate (d : point) (c : list point) :
  cyclic_pairs (translate d c)
  = (fun pr : point * point =>
       ((pr.1.1 + d.1, pr.1.2 + d.2), (pr.2.1 + d.1, pr.2.2 + d.2)))
      <$> cyclic_pairs c.
Proof.
  destruct c as [|a l]; [reflexivity|].
  change (cyclic_pairs (translate d (a :: l)))
    with (zip (translate d (a :: l)) (translate d l ++ translate d [a])).
  unfold translate at 2 3. rewrite <- fmap_app. apply zip_translate.
Qed.

Section TranslatedPerimeter.
Context `{MathRuntime}.

Lemma perimeter_translate (d : point) (c : list point) :
  calculateContourPerimeter (translate d c) = calculateContourPerimeter c.
Proof.
  unfold calculateContourPerimeter. rewrite cyclic_pairs_translate.
  generalize (Fin 0). induction (cyclic_pairs c) as [|[[xi yi] [xj yj]] l IH];
    intros acc; [reflexivity|].
  cbn [fmap list_fmap foldl fst snd]. rewrite IH. f_equal.
  replace (xj + d.1 - (xi + d.1)) with (xj - xi) by ring.
  replace (yj + d.2 - (yi + d.2)) with (yj - yi) by ring. reflexivity.
Qed.
End TranslatedPerimeter.

(** X9. Moving a contour changes none of its measures: the area, the
    perimeter and the circularity of the contour moved by [d] are those of
    the contour. *)
Theorem measures_translation `{MathRuntime} (d : point) (c : list point) :
  calculateContourArea (translate d c) = calculateContourArea c
  /\ calculateContourPerimeter (translate d c) = calculateContourPerimeter c
  /\ calculateCircularity (calculateContourArea (translate d c))
                          (calculateContourPerimeter (translate d c))
     = calculateCircularity (calculateContourArea c)
                            (calculateContourPerimeter c).
Proof.
  assert (Ha : calculateContourArea (translate d c) = calculateContourArea c).
  { unfold calculateContourArea. rewrite shoelace_translate. reflexivity. }
  rewrite Ha, perimeter_translate. repeat split.
Qed.

(** *** The area and the order of the points *)

Lemma fan_app (s : point) (l1 : list point) :
  forall a x l2 b,
    fan s a (l1 ++ x :: l2) b = fan s a l1 x + fan s x l2 b.
Proof.
  induction l1 as [|y l1 IH]; intros a x l2 b; cbn [app fan].
  - reflexivity.
  - rewrite IH. ring.
Qed.

Lemma shoelace_rotate (l1 l2 : list point) :
  shoelace (l2 ++ l1) = shoelace (l1 ++ l2).
Proof.
  destruct l1 as [|a l1]; [rewrite app_nil_r; reflexivity|].
  destruct l2 as [|x l2]; [rewrite app_nil_r; reflexivity|].
  cbn [app]. rewrite !(shoelace_fan (0, 0)), !fan_app. ring.
Qed.

Lemma fan_rev (s : point) (l : list point) :
  forall a b, fan s b (rev l) a = - fan s a l b.
Proof.
  induction l as [|x l IH]; intros a b; cbn [rev fan].
  - apply cross_antisym.
  - rewrite fan_app, IH. cbn [fan].
    rewrite (cross_antisym (vec s x) (vec s a)). ring.
Qed.

Lemma shoelace_rev (c : list point) : shoelace (rev c) = - shoelace c.
Proof.
  destruct c as [|a l]; [reflexivity|].
  cbn [rev]. rewrite (shoelace_rotate [a] (rev l)). cbn [app].
  rewrite !(shoelace_fan (0, 0)). apply fan_rev.
Qed.

Lemma area_of_shoelace (c : list point) :
  calculateContourArea c = Fin (Z.abs (shoelace c) # 2).
Proof.
  unfold calculateContourArea. simpl. unfold Qabs, Qdiv, Qmult, Qinv; simpl.
  rewrite Z.mul_1_r. reflexivity.
Qed.

(** X10. The area of a contour depends neither on the point the contour
    starts with nor on the direction it runs in. *)
Theorem area_rotation_reversal (l1 l2 : list point) :
  calculateContourArea (l2 ++ l1) = calculateContourArea (l1 ++ l2)
  /\ calculateContourArea (rev l1) = calculateContourArea l1.
Proof.
  rewrite !area_of_shoelace, shoelace_rotate, shoelace_rev, Z.abs_opp.
  split; reflexivity.
Qed.

(** X11. A contour of fewer than three points has area 0; the area of three
    points is half the absolute value of the cross product of two sides, and
    it is positive exactly when the points make a counter-clockwise turn in
    one of the two directions. *)
Theorem area_of_triangle (p1 p2 p3 : point) :
  num_eq (calculateContourArea []) (Fin 0)
  /\ num_eq (calculateContourArea [p1]) (Fin 0)
  /\ num_eq (calculateContourArea [p1; p2]) (Fin 0)
  /\ calculateContourArea [p1; p2; p3]
     = Fin (Z.abs (cross (vec p1 p2) (vec p1 p3)) # 2)
  /\ (num_gt (calculateContourArea [p1; p2; p3]) (Fin 0) = true
      <-> isCounterClockwise p1 p2 p3 = true
          \/ isCounterClockwise p1 p3 p2 = true).
Proof.
  assert (H3 : shoelace [p1; p2; p3] = cross (vec p1 p2) (vec p1 p3)).
  { destruct p1, p2, p3. unfold shoelace, cross, vec. simpl. ring. }
  rewrite !area_of_shoelace, H3.
  assert (H1 : shoelace [p1] = 0).
  { destruct p1. unfold shoelace. simpl. ring. }
  assert (H2 : shoelace [p1; p2] = 0).
  { destruct p1, p2. unfold shoelace. simpl. ring. }
  rewrite H1, H2. repeat split; try reflexivity.
  - intros Hgt. rewrite !isCounterClockwise_cross, !Z.ltb_lt.
    rewrite (cross_antisym (vec p1 p3)).
    simpl in Hgt. apply Qlt_bool_iff in Hgt. unfold Qlt in Hgt. simpl in Hgt.
    lia.
  - rewrite !isCounterClockwise_cross, !Z.ltb_lt.
    rewrite (cross_antisym (vec p1 p3)). intros Hc.
    simpl. apply Qlt_bool_iff. unfold Qlt. simpl. lia.
Qed.

(** ** The perimeter, the centroid and the distance to a line *)

Section PerimeterZero.
Context `{MathRuntime}.

Lemma perimeter_fold_zero (l : list (point * point)) (a : Q) :
  Forall (fun pr => pr.1 = pr.2) l ->
  exists q,
    foldl (fun acc '((xi, yi), (xj, yj)) =>
             let dx := xj - xi in
             let dy := yj - yi in
             num_add acc (Fin (Math_sqrt (dx * dx + dy * dy))))
          (Fin a) l = Fin q
    /\ (q == a)%Q.
Proof.
  intros Hl. revert a.
  induction Hl as [|[[xi yi] [xj yj]] l Hp _ IH]; intros a; simpl.
  - exists a. split; reflexivity.
  - simpl in Hp. injection Hp as -> ->.
    destruct (IH (a + Math_sqrt ((xj - xj) * (xj - xj) + (yj - yj) * (yj - yj)))%Q)
      as (q & Hq & Heq).
    exists q. split; [exact Hq|]. rewrite Heq.
    replace ((xj - xj) * (xj - xj) + (yj - yj) * (yj - yj)) with 0 by ring.
    rewrite Math_sqrt_0. ring.
Qed.

Lemma perimeter_in_place (c : list point) :
  Forall (fun pr : point * point => pr.1 = pr.2) (cyclic_pairs c) ->
  exists q, calculateContourPerimeter c = Fin q /\ (q == 0)%Q.
Proof. exact (perimeter_fold_zero (cyclic_pairs c) 0). Qed.

(** The points of a contour whose steps all stay in place are one point. *)
Lemma steps_in_place (c : list point) :
  Forall (fun pr : point * point => pr.1 = pr.2) (cyclic_pairs c) ->
  forall p q, p ∈ c -> q ∈ c -> p = q.
Proof.
  destruct c as [|a l]; [intros _ p q Hp; inversion Hp|].
  unfold cyclic_pairs. intros Hall.
  assert (Hl : Forall (fun p => p = a) l).
  { revert a Hall. induction l as [|x l IH]; intros a Hall; [constructor|].
    cbn [app zip zip_with] in Hall.
    apply Forall_cons in Hall as [Hax Hall]. simpl in Hax. subst x.
    constructor; [reflexivity|]. apply IH.
    cbn [zip zip_with]. exact Hall. }
  assert (Hc : forall p, p ∈ a :: l -> p = a).
  { intros p Hp. apply elem_of_cons in Hp as [-> | Hp]; [reflexivity|].
    rewrite Forall_forall in Hl. apply Hl, Hp. }
  intros p q Hp Hq. rewrite (Hc p Hp), (Hc q Hq). reflexivity.
Qed.

Lemma cyclic_pairs_elem (c : list point) (pr : point * point) :
  pr ∈ cyclic_pairs c -> pr.1 ∈ c /\ pr.2 ∈ c.
Proof.
  destruct c as [|a l]; [intros Hp; inversion Hp|].
  unfold cyclic_pairs. intros Hp. destruct pr as [p q].
  split.
  - eapply elem_of_zip_l. exact Hp.
  - apply elem_of_zip_r in Hp. simpl.
    apply elem_of_app in Hp as [Hq | Hq]; [right; exact Hq|].
    apply list_elem_of_singleton in Hq as ->. left.
Qed.
End PerimeterZero.

(** X12. The perimeter of a contour is a finite number that is not negative,
    and it is 0 exactly when all points of the contour are one point (an
    empty contour included). *)
Theorem perimeter_zero_iff `{MathRuntime} (c : list point) :
  (exists q, calculateContourPerimeter c = Fin q /\ (0 <= q)%Q)
  /\ (num_eq (calculateContourPerimeter c) (Fin 0)
      <-> forall p q, p ∈ c -> q ∈ c -> p = q).
Proof.
  split; [apply perimeter_finite|]. split.
  - intros Hp. destruct (perimeter_spec c) as (q & Hq & _ & Hz).
    rewrite Hq in Hp. simpl in Hp. apply steps_in_place.
    eapply Forall_impl; [apply Hz, Hp|].
    intros [p r] Hs. simpl. apply segment_length_0. exact Hs.
  - intros Hall.
    destruct (perimeter_in_place c) as (q & Hq & Heq).
    + apply Forall_forall. intros pr Hpr.
      apply cyclic_pairs_elem in Hpr as [H1 H2]. apply Hall; assumption.
    + rewrite Hq. exact Heq.
Qed.

(** *** The centroid *)

Lemma sum_bounds (g : Z -> point -> Z) (f : point -> Z) (lo hi : Z)
    (c : list point) :
  (forall acc p, g acc p = acc + f p) ->
  Forall (fun p => lo <= f p <= hi) c ->
  forall acc,
    acc + lo * Z.of_nat (length c) <= foldl g acc c
    <= acc + hi * Z.of_nat (length c).
Proof.
  intros Hg. induction 1 as [|p c Hp _ IH]; intros acc.
  - simpl. lia.
  - cbn [foldl]. rewrite Hg. specialize (IH (acc + f p)).
    rewrite length_cons, Nat2Z.inj_succ, !Z.mul_succ_r. lia.
Qed.

Lemma quotient_bounds (lo hi sum n : Z) :
  0 < n -> lo * n <= sum <= hi * n ->
  (inject_Z lo <= inject_Z sum / inject_Z n)%Q
  /\ (inject_Z sum / inject_Z n <= inject_Z hi)%Q.
Proof.
  intros Hn [Hlo Hhi].
  assert (Hq : (0 < inject_Z n)%Q) by (rewrite <- (Zlt_Qlt 0); exact Hn).
  split.
  - apply Qle_shift_div_l; [exact Hq|].
    rewrite <- inject_Z_mult, <- Zle_Qle. exact Hlo.
  - apply Qle_shift_div_r; [exact Hq|].
    rewrite <- inject_Z_mult, <- Zle_Qle. exact Hhi.
Qed.

(** X13. The centroid of an empty contour is ([NaN], [NaN]).  The centroid of
    a contour with points in it is a pair of finite numbers that lies in
    every upright rectangle that holds the points of the contour. *)
Theorem centroid_in_box (c : list point) :
  (c = [] -> calculateCentroid c = (NaN, NaN))
  /\ (c <> [] ->
      exists cx cy,
        calculateCentroid c = (Fin cx, Fin cy)
        /\ forall x0 x1 y0 y1,
             Forall (fun p => x0 <= p.1 <= x1 /\ y0 <= p.2 <= y1) c ->
             (inject_Z x0 <= cx)%Q /\ (cx <= inject_Z x1)%Q
             /\ (inject_Z y0 <= cy)%Q /\ (cy <= inject_Z y1)%Q).
Proof.
  split; [intros ->; reflexivity|].
  intros Hne. unfold calculateCentroid.
  set (n := Z.of_nat (length c)).
  assert (Hn : 0 < n) by (destruct c; [contradiction | subst n; simpl; lia]).
  assert (Hnz : Qeq_bool (inject_Z n) 0 = false).
  { apply Qeq_bool_false. intros Heq.
    apply (inject_Z_injective n 0) in Heq. lia. }
  cbn [num_div]. rewrite Hnz.
  eexists _, _. split; [reflexivity|].
  intros x0 x1 y0 y1 Hbox.
  destruct (quotient_bounds x0 x1 (foldl (fun acc '(x, _) => acc + x) 0 c) n Hn)
    as [Hx0 Hx1].
  { apply (sum_bounds (fun acc '(x, _) => acc + x) fst x0 x1 c
             (fun acc '(x, y) => eq_refl)
             (Forall_impl _ _ _ Hbox (fun p Hp => proj1 Hp)) 0). }
  destruct (quotient_bounds y0 y1 (foldl (fun acc '(_, y) => acc + y) 0 c) n Hn)
    as [Hy0 Hy1].
  { apply (sum_bounds (fun acc '(_, y) => acc + y) snd y0 y1 c
             (fun acc '(x, y) => eq_refl)
             (Forall_impl _ _ _ Hbox (fun p Hp => proj2 Hp)) 0). }
  repeat split; assumption.
Qed.

Lemma centroid_in_box_witness :
  exists cx cy,
    calculateCentroid [(0, 0); (4, 0); (4, 2)] = (Fin cx, Fin cy)
    /\ (inject_Z 0 <= cx)%Q /\ (cx <= inject_Z 4)%Q
    /\ (inject_Z 0 <= cy)%Q /\ (cy <= inject_Z 2)%Q.
Proof.
  destruct (proj2 (centroid_in_box [(0, 0); (4, 0); (4, 2)]))
    as (cx & cy & Hc & Hbox); [discriminate|].
  exists cx, cy. split; [exact Hc|]. apply Hbox.
  repeat constructor; simpl; lia.
Defined.

(** *** The distance to a line *)

Lemma distance_numerator (p a b : point) :
  (b.2 - a.2) * p.1 - (b.1 - a.1) * p.2 + b.1 * a.2 - b.2 * a.1
  = - cross (vec a b) (vec a p).
Proof. unfold cross, vec. simpl. ring. Qed.

(** X14. [perpendicularDistance] yields [NaN] for every point when the two
    points that give the line are one point.  Otherwise it yields a finite
    number that is not negative, and 0 exactly for the points on the line
    through the two. *)
Theorem perpendicularDistance_line `{MathRuntime} (p a b : point) :
  (a = b -> perpendicularDistance p a b = NaN)
  /\ (a <> b ->
      exists d, perpendicularDistance p a b = Fin d /\ (0 <= d)%Q
                /\ ((d == 0)%Q <-> cross (vec a b) (vec a p) = 0)).
Proof.
  destruct p as [x y], a as [x1 y1], b as [x2 y2].
  unfold perpendicularDistance.
  pose proof (distance_numerator (x, y) (x1, y1) (x2, y2)) as Hnum.
  cbn [fst snd] in Hnum. rewrite Hnum. split.
  - intros [= <- <-].
    replace ((y1 - y1) ^ 2 + (x1 - x1) ^ 2) with 0 by ring.
    assert (Hc : cross (vec (x1, y1) (x1, y1)) (vec (x1, y1) (x, y)) = 0).
    { unfold cross, vec. simpl. ring. }
    rewrite Hc. cbn [num_div].
    assert (Hz : Qeq_bool (Math_sqrt 0) 0 = true)
      by (apply Qeq_bool_iff, Math_sqrt_0).
    rewrite Hz. reflexivity.
  - intros Hne.
    assert (Hpos : 0 < (y2 - y1) ^ 2 + (x2 - x1) ^ 2).
    { assert (x2 - x1 <> 0 \/ y2 - y1 <> 0).
      { destruct (Z.eq_dec x1 x2), (Z.eq_dec y1 y2); subst;
          [contradiction | right; lia | left; lia | left; lia]. }
      nia. }
    apply Math_sqrt_pos in Hpos.
    set (len := Math_sqrt ((y2 - y1) ^ 2 + (x2 - x1) ^ 2)) in *.
    set (cr := cross (vec (x1, y1) (x2, y2)) (vec (x1, y1) (x, y))).
    cbn [num_div].
    assert (Hz : Qeq_bool len 0 = false).
    { apply Qeq_bool_false. intros Heq. rewrite Heq in Hpos.
      apply (Qlt_irrefl 0), Hpos. }
    rewrite Hz. eexists. split; [reflexivity|].
    assert (Habs : (0 <= inject_Z (Z.abs (- cr)))%Q).
    { rewrite <- (Zle_Qle 0). apply Z.abs_nonneg. }
    split.
    + apply Qle_shift_div_l; [exact Hpos|]. rewrite Qmult_0_l. exact Habs.
    + split.
      * intros Hd.
        assert (Hm : (inject_Z (Z.abs (- cr)) == 0)%Q).
        { rewrite <- (Qmult_div_r (inject_Z (Z.abs (- cr))) len), Hd
            by (intros Heq; rewrite Heq in Hpos; apply (Qlt_irrefl 0), Hpos).
          ring. }
        pose proof (proj1 (inject_Z_injective (Z.abs (- cr)) 0) Hm) as Hm'.
        clearbody cr. lia.
      * intros Hc. clearbody cr. subst cr.
        change (inject_Z (Z.abs (- 0))) with 0%Q.
        unfold Qdiv. apply Qmult_0_l.
Qed.

Lemma perpendicularDistance_line_witness :
  @perpendicularDistance fixed_point_runtime (3, 4) (1, 1) (1, 1) = NaN
  /\ exists d,
       @perpendicularDistance fixed_point_runtime (2, 2) (0, 0) (4, 4) = Fin d
       /\ (d == 0)%Q.
Proof.
  split.
  - exact (proj1 (@perpendicularDistance_line fixed_point_runtime
                    (3, 4) (1, 1) (1, 1)) eq_refl).
  - destruct (proj2 (@perpendicularDistance_line fixed_point_runtime
                       (2, 2) (0, 0) (4, 4)))
      as (d & Hd & _ & Hz); [discriminate|].
    exists d. split; [exact Hd|]. apply Hz. reflexivity.
Defined.

(** ** Douglas-Peucker: what the result keeps *)

Lemma adjacent_app (L1 : list point) (m : point) (L2 : list point) :
  forall r1 x y r2,
    L1 ++ m :: L2 = r1 ++ x :: y :: r2 ->
    (exists r2', L1 ++ [m] = r1 ++ x :: y :: r2' /\ r2 = r2' ++ L2)
    \/ (exists r1', m :: L2 = r1' ++ x :: y :: r2 /\ r1 = L1 ++ r1').
Proof.
  induction L1 as [|z L1 IH]; intros r1 x y r2 Heq.
  - right. exists r1. split; [exact Heq | reflexivity].
  - destruct r1 as [|z' r1].
    + injection Heq as -> Heq. destruct L1 as [|y' L1].
      * injection Heq as -> ->. left. exists []. split; reflexivity.
      * injection Heq as -> <-. left. exists (L1 ++ [m]). split.
        -- reflexivity.
        -- rewrite <- app_assoc. reflexivity.
    + injection Heq as <- Heq.
      destruct (IH r1 x y r2 Heq) as [(r2' & H1 & H2) | (r1' & H1 & H2)].
      * left. exists r2'. split; [simpl; rewrite H1; reflexivity | exact H2].
      * right. exists r1'. split; [exact H1 | simpl; rewrite H2; reflexivity].
Qed.

Section Cut.
Context `{MathRuntime}.

Lemma steps_within_pair (eps : number) (a b : point) (mid : list point) :
  within_epsilon eps a b mid -> steps_within eps (a :: mid ++ [b]) [a; b].
Proof.
  intros Hmid r1 x y r2 Heq.
  destruct r1 as [|z [|z' r1]]; simpl in Heq.
  - injection Heq as <- <- <-.
    exists [], mid, []. split; [reflexivity | exact Hmid].
  - injection Heq as _ Heq. discriminate.
  - injection Heq as _ _ Heq. destruct r1; discriminate.
Qed.

(** The loop of [approxPolyDP] that ends without a distance beyond
    [epsilon] has met no point beyond it. *)
Lemma farthest_within (eps : number) (a b : point) (mid : list point) :
  num_gt (farthest mid 1 a b (Fin 0) 0).1 eps = false ->
  within_epsilon eps a b mid.
Proof.
  intros Hgt.
  destruct (farthest_max a b mid 1 (Fin 0) 0 eq_refl) as [Hn _].
  destruct (farthest_upper a b mid 1 (Fin 0) 0 eq_refl) as [_ Hall].
  eapply Forall_impl; [exact Hall|]. intros p Hp. simpl in Hp.
  destruct (num_gt (perpendicularDistance p a b) eps) eqn:E; [|reflexivity].
  rewrite (num_gt_le_trans _ _ _ E Hgt Hn) in Hp. discriminate.
Qed.

Lemma approxPolyDP_cut (fuel : nat) :
  forall (a : point) mid b eps R,
    approxPolyDP fuel (a :: mid ++ [b]) eps = Some R ->
    exists midR,
      R = a :: midR ++ [b] /\ midR `sublist_of` mid
      /\ steps_within eps (a :: mid ++ [b]) R.
Proof.
  induction fuel as [|fuel IH]; intros a mid b eps R HR.
  - destruct mid as [|m mid].
    + rewrite approxPolyDP_short in HR by (simpl; lia).
      injection HR as <-. exists []. split; [reflexivity|].
      split; [constructor|]. apply (steps_within_pair eps a b []). constructor.
    + rewrite approxPolyDP_0 in HR by discriminate. discriminate.
  - destruct (decide (mid = [])) as [-> | Hmid].
    { rewrite approxPolyDP_short in HR by (simpl; lia).
      injection HR as <-. exists []. split; [reflexivity|].
      split; [constructor|]. apply (steps_within_pair eps a b []). constructor. }
    pose proof HR as HR'.
    rewrite approxPolyDP_chain in HR by exact Hmid. cbn zeta in HR.
    destruct (num_gt (farthest mid 1 a b (Fin 0) 0).1 eps) eqn:Hgt.
    + destruct (split_point a mid b eps _ R Hmid HR' Hgt)
        as (before & far & after & -> & Hidx).
      rewrite Hidx, chain_take, chain_drop in HR.
      destruct (approxPolyDP fuel (a :: before ++ [far]) eps)
        as [firstHalf|] eqn:E1; [|discriminate].
      destruct (approxPolyDP fuel (far :: after ++ [b]) eps)
        as [secondHalf|] eqn:E2; [|discriminate].
      injection HR as <-.
      apply IH in E1 as (before' & -> & Hb & S1).
      apply IH in E2 as (after' & -> & Ha & S2).
      assert (Hshape :
        take (length (a :: before' ++ [far]) - 1) (a :: before' ++ [far])
        ++ far :: after' ++ [b]
        = a :: (before' ++ far :: after') ++ [b]).
      { rewrite chain_length. simpl. rewrite take_app_length.
        rewrite <- app_assoc. reflexivity. }
      rewrite Hshape.
      exists (before' ++ far :: after'). split; [reflexivity|].
      split; [apply sublist_app; [exact Hb | apply sublist_skip, Ha]|].
      intros r1 x y r2 Heq.
      replace (a :: (before' ++ far :: after') ++ [b])
        with ((a :: before') ++ far :: (after' ++ [b])) in Heq
        by (simpl; rewrite <- app_assoc; reflexivity).
      apply adjacent_app in Heq as [(r2' & H1 & _) | (r1' & H1 & _)].
      * destruct (S1 r1 x y r2' H1) as (c1 & m & c2 & Hc & Hm).
        exists c1, m, (c2 ++ after ++ [b]). split; [|exact Hm].
        replace (a :: (before ++ far :: after) ++ [b])
          with ((a :: before ++ [far]) ++ after ++ [b])
          by (simpl; rewrite <- !app_assoc; reflexivity).
        rewrite Hc, <- !app_assoc. simpl. rewrite <- !app_assoc. reflexivity.
      * destruct (S2 r1' x y r2 H1) as (c1 & m & c2 & Hc & Hm).
        exists ((a :: before) ++ c1), m, c2. split; [|exact Hm].
        replace (a :: (before ++ far :: after) ++ [b])
          with ((a :: before) ++ far :: after ++ [b])
          by (simpl; rewrite <- !app_assoc; reflexivity).
        rewrite Hc, <- !app_assoc. reflexivity.
    + injection HR as <-. exists []. split; [reflexivity|].
      split; [apply sublist_nil_l|].
      apply steps_within_pair, farthest_within, Hgt.
Qed.

Lemma perpendicularDistance_same (p a : point) :
  perpendicularDistance p a a = NaN.
Proof.
  destruct p as [x y], a as [x1 y1]. unfold perpendicularDistance.
  replace ((y1 - y1) ^ 2 + (x1 - x1) ^ 2) with 0 by ring.
  replace ((y1 - y1) * x - (x1 - x1) * y + x1 * y1 - y1 * x1) with 0 by ring.
  cbn [Z.abs num_div].
  assert (Hz : Qeq_bool (Math_sqrt 0) 0 = true)
    by (apply Qeq_bool_iff, Math_sqrt_0).
  rewrite Hz. reflexivity.
Qed.

Lemma closed_chain_quiet (a : point) (mid : list point) :
  farthest mid 1 a a (Fin 0) 0 = (Fin 0, 0%nat).
Proof.
  apply farthest_quiet. apply Forall_forall. intros p _.
  rewrite perpendicularDistance_same. reflexivity.
Qed.
Lemma approxPolyDP_two (fuel : nat) (c : list point) (eps : number)
    (r : list point) :
  (2 <= length c)%nat -> approxPolyDP fuel c eps = Some r ->
  (2 <= length r)%nat.
Proof.
  intros Hlen Hr. destruct (chain_decompose c Hlen) as (a & mid & b & ->).
  apply approxPolyDP_cut in Hr as (midR & -> & _ & _).
  rewrite chain_length. lia.
Qed.
End Cut.

(** X15. A result of [approxPolyDP] holds points of the contour only, in the
    order of the contour; it begins and ends as the contour does; a contour
    of two points or more gives a result of two points or more, and never
    more points than it has. *)
Theorem approxPolyDP_sublist `{MathRuntime} (fuel : nat) (c : list point)
    (eps : number) (r : list point) :
  approxPolyDP fuel c eps = Some r ->
  r `sublist_of` c /\ head r = head c /\ last r = last c
  /\ (length r <= length c)%nat
  /\ ((2 <= length c)%nat -> (2 <= length r)%nat).
Proof.
  intros Hr. destruct (le_lt_dec (length c) 1) as [Hs | Hl].
  - rewrite approxPolyDP_short in Hr by lia. injection Hr as <-.
    repeat split; [reflexivity | lia | lia].
  - destruct (chain_decompose c) as (a & mid & b & ->); [lia|].
    apply approxPolyDP_cut in Hr as (midR & -> & Hsub & _).
    assert (Hall : a :: midR ++ [b] `sublist_of` a :: mid ++ [b]).
    { apply sublist_skip, sublist_app; [exact Hsub | reflexivity]. }
    split; [exact Hall|]. split; [reflexivity|].
    split; [rewrite !chain_last; reflexivity|].
    split; [apply sublist_length, Hall|].
    intros _. rewrite chain_length. lia.
Qed.

Lemma approxPolyDP_sublist_witness :
  @approxPolyDP fixed_point_runtime 6
    [(0, 0); (1, 1); (2, 0); (3, 5); (4, 0); (5, 0)] (Fin 2)
  = Some [(0, 0); (3, 5); (5, 0)]
  /\ [(0, 0); (3, 5); (5, 0)]
     `sublist_of` [(0, 0); (1, 1); (2, 0); (3, 5); (4, 0); (5, 0)].
Proof.
  assert (Hrun : @approxPolyDP fixed_point_runtime 6
            [(0, 0); (1, 1); (2, 0); (3, 5); (4, 0); (5, 0)] (Fin 2)
          = Some [(0, 0); (3, 5); (5, 0)]).
  { vm_compute. reflexivity. }
  split; [exact Hrun|].
  exact (proj1 (@approxPolyDP_sublist fixed_point_runtime 6 _ _ _ Hrun)).
Defined.

(** X16. The guarantee of the simplification: for every two points that
    follow one another in a result of [approxPolyDP], the contour runs from
    the first to the second through points none of which is farther than
    [epsilon] from the line through the two. *)
Theorem approxPolyDP_tolerance `{MathRuntime} (fuel : nat) (c : list point)
    (eps : number) (r : list point) :
  approxPolyDP fuel c eps = Some r ->
  forall r1 a b r2,
    r = r1 ++ a :: b :: r2 ->
    exists c1 mid c2,
      c = c1 ++ a :: mid ++ b :: c2
      /\ Forall (fun p => num_gt (perpendicularDistance p a b) eps = false) mid.
Proof.
  intros Hr. destruct (le_lt_dec (length c) 1) as [Hs | Hl].
  - rewrite approxPolyDP_short in Hr by lia. injection Hr as <-.
    intros r1 a b r2 ->. rewrite length_app in Hs. simpl in Hs. lia.
  - destruct (chain_decompose c) as (a & mid & b & ->); [lia|].
    apply approxPolyDP_cut in Hr as (midR & _ & _ & Hsteps). exact Hsteps.
Qed.

Lemma approxPolyDP_tolerance_witness :
  exists c1 mid c2,
    [(0, 0); (1, 1); (2, 0); (3, 5); (4, 0); (5, 0)]
    = c1 ++ (0, 0) :: mid ++ (3, 5) :: c2
    /\ Forall (fun p => num_gt (@perpendicularDistance fixed_point_runtime
                                  p (0, 0) (3, 5)) (Fin 2) = false) mid.
Proof.
  assert (Hrun : @approxPolyDP fixed_point_runtime 6
            [(0, 0); (1, 1); (2, 0); (3, 5); (4, 0); (5, 0)] (Fin 2)
          = Some [(0, 0); (3, 5); (5, 0)]).
  { vm_compute. reflexivity. }
  exact (@approxPolyDP_tolerance fixed_point_runtime 6 _ _ _ Hrun
           [] (0, 0) (3, 5) [(5, 0)] eq_refl).
Defined.

(** X17. A chain that ends at the point it begins with loses all points
    between: every distance to the line through its ends is [NaN], no
    distance counts as the largest, and with an [epsilon] that is not
    negative the result is the two ends. *)
Theorem approxPolyDP_closed_chain `{MathRuntime} (fuel : nat) (a : point)
    (mid : list point) (eps : number) :
  num_gt (Fin 0) eps = false ->
  Forall (fun p => perpendicularDistance p a a = NaN) mid
  /\ approxPolyDP (S fuel) (a :: mid ++ [a]) eps = Some [a; a].
Proof.
  intros Heps. split.
  - apply Forall_forall. intros p _.
    apply perpendicularDistance_same.
  - destruct (decide (mid = [])) as [-> | Hmid]; [reflexivity|].
    rewrite approxPolyDP_chain by exact Hmid. cbn zeta.
    rewrite closed_chain_quiet. cbn [fst snd]. rewrite Heps. reflexivity.
Qed.

Lemma approxPolyDP_closed_chain_witness :
  @approxPolyDP fixed_point_runtime 1 [(0, 0); (4, 0); (4, 4); (0, 0)] (Fin 1)
  = Some [(0, 0); (0, 0)].
Proof.
  exact (proj2 (@approxPolyDP_closed_chain fixed_point_runtime 0 (0, 0)
                  [(4, 0); (4, 4)] (Fin 1) eq_refl)).
Defined.

(** ** The hull *)

Lemma pop_while_cons (p t below : point) (hull : list point) :
  pop_while (t :: below :: hull) p
  = if isCounterClockwise below t p then t :: below :: hull
    else pop_while (below :: hull) p.
Proof. reflexivity. Qed.

Lemma pop_while_suffix (p : point) (hull : list point) :
  exists popped, hull = popped ++ pop_while hull p.
Proof.
  induction hull as [|t hull IH]; [exists []; reflexivity|].
  destruct hull as [|below hull]; [exists []; reflexivity|].
  rewrite pop_while_cons. destruct (isCounterClockwise below t p).
  - exists []. reflexivity.
  - destruct IH as (popped & Hp). exists (t :: popped).
    cbn [app]. f_equal. exact Hp.
Qed.

(** When the loop stops on a stack of two points or more, the new point
    makes a counter-clockwise turn with the two on top. *)
Lemma pop_while_top (p : point) (hull : list point) :
  forall t below rest,
    pop_while hull p = t :: below :: rest ->
    isCounterClockwise below t p = true.
Proof.
  induction hull as [|t0 hull IH]; intros t below rest Hpop; [discriminate|].
  destruct hull as [|b0 hull]; [discriminate|].
  rewrite pop_while_cons in Hpop.
  destruct (isCounterClockwise b0 t0 p) eqn:E.
  - injection Hpop as <- <- _. exact E.
  - eapply IH. exact Hpop.
Qed.

Lemma pop_while_last (p : point) (hull : list point) :
  last (pop_while hull p) = last hull.
Proof.
  induction hull as [|t hull IH]; [reflexivity|].
  destruct hull as [|below hull]; [reflexivity|].
  rewrite pop_while_cons. destruct (isCounterClockwise below t p); [reflexivity|].
  rewrite IH, last_cons_cons. reflexivity.
Qed.

Lemma stack_turns_suffix (l1 l2 : list point) :
  stack_turns (l1 ++ l2) -> stack_turns l2.
Proof.
  intros Hst m p3 p2 p1 l Heq. apply (Hst (l1 ++ m) p3 p2 p1 l).
  rewrite Heq, <- app_assoc. reflexivity.
Qed.

Lemma stack_turns_push (p : point) (hull : list point) :
  stack_turns hull -> stack_turns (p :: pop_while hull p).
Proof.
  intros Hst. destruct (pop_while_suffix p hull) as (popped & Hp).
  rewrite Hp in Hst. apply stack_turns_suffix in Hst.
  intros l2 p3 p2 p1 l1 Heq. destruct l2 as [|x l2]; simpl in Heq.
  - injection Heq as <- Heq. eapply pop_while_top. exact Heq.
  - injection Heq as _ Heq. eapply Hst. exact Heq.
Qed.

(** The state of the scan after the points of [done]: the stack holds
    points of [done] in their order, the anchor [s] at the bottom. *)
Lemma graham_scan_stack (s : point) (rest : list point) :
  forall hull done,
    stack_turns hull -> last hull = Some s -> (2 <= length hull)%nat ->
    rev hull `sublist_of` done ->
    let hull' := foldl (fun hull p => p :: pop_while hull p) hull rest in
    stack_turns hull' /\ last hull' = Some s /\ (2 <= length hull')%nat
    /\ rev hull' `sublist_of` done ++ rest.
Proof.
  induction rest as [|p rest IH]; intros hull done Hst Hlast Hlen Hsub.
  - simpl. rewrite app_nil_r. auto.
  - cbn [foldl].
    replace (done ++ p :: rest) with ((done ++ [p]) ++ rest)
      by (rewrite <- app_assoc; reflexivity).
    destruct (pop_while_suffix p hull) as (popped & Hp).
    assert (Hne : pop_while hull p <> []).
    { intros Hnil. pose proof (pop_while_last p hull) as Hl.
      rewrite Hnil, Hlast in Hl. discriminate. }
    apply IH.
    + apply stack_turns_push, Hst.
    + destruct (pop_while hull p) eqn:E; [contradiction|].
      rewrite last_cons_cons, <- E, pop_while_last. exact Hlast.
    + destruct (pop_while hull p); [contradiction | simpl; lia].
    + cbn [rev]. apply sublist_app; [|reflexivity].
      etransitivity; [|exact Hsub].
      rewrite Hp at 2. rewrite rev_app_distr. apply sublist_inserts_r.
      reflexivity.
Qed.

Lemma turns_of_stack (hull : list point) :
  stack_turns hull ->
  forall l1 p1 p2 p3 l2,
    rev hull = l1 ++ p1 :: p2 :: p3 :: l2 ->
    isCounterClockwise p1 p2 p3 = true.
Proof.
  intros Hst l1 p1 p2 p3 l2 Heq. apply (Hst (rev l2) p3 p2 p1 (rev l1)).
  rewrite <- (rev_involutive hull), Heq, rev_app_distr. simpl.
  rewrite <- !app_assoc. reflexivity.
Qed.

Lemma head_rev (l : list point) : head (rev l) = last l.
Proof.
  induction l as [|x l _] using rev_ind; [reflexivity|].
  rewrite rev_app_distr, last_snoc. reflexivity.
Qed.

(** What the scan returns for the anchor [s] and the sorted points. *)
Lemma graham_scan_spec (s : point) (sorted hull : list point) :
  graham_scan s sorted = Some hull ->
  (forall l1 p1 p2 p3 l2,
     hull = l1 ++ p1 :: p2 :: p3 :: l2 -> isCounterClockwise p1 p2 p3 = true)
  /\ head hull = Some s /\ (2 <= length hull)%nat
  /\ hull `sublist_of` s :: sorted.
Proof.
  destruct sorted as [|q rest]; [discriminate|].
  unfold graham_scan. intros [= <-].
  destruct (graham_scan_stack s rest [q; s] [s; q])
    as (Hst & Hlast & Hlen & Hsub).
  - intros l2 p3 p2 p1 l1 Heq.
    destruct l2 as [|x1 [|x2 [|x3 l2]]]; discriminate.
  - reflexivity.
  - simpl. lia.
  - reflexivity.
  - split; [apply turns_of_stack, Hst|].
    split; [|split; [rewrite length_rev; exact Hlen | exact Hsub]].
    rewrite head_rev. exact Hlast.
Qed.

Lemma lower_irrefl (p : point) : lower p p = false.
Proof. apply lower_false. lia. Qed.

(** X18. [calculateConvexHull] yields an array of points exactly for a contour
    of two points or more.  The hull then begins with the lowest point of
    the contour (the leftmost of the lowest), has two points or more, and
    holds points of the contour only, none more often than the contour
    does. *)
Theorem hull_of_contour (c : list point) :
  ((length c < 2)%nat -> (calculateConvexHull c).2 = None)
  /\ ((2 <= length c)%nat ->
      exists s hull,
        (calculateConvexHull c).2 = Some (s :: hull)
        /\ hull <> []
        /\ s ∈ c
        /\ Forall (fun p => lower p s = false) c
        /\ s :: hull ⊆+ c).
Proof.
  split.
  - destruct c as [|p0 [|p1 c]]; simpl; try lia; reflexivity.
  - intros Hlen.
    destruct (calculateConvexHull_returns c Hlen) as (c' & hull & Hrun & _).
    destruct c as [|p0 pts]; [simpl in Hlen; lia|].
    destruct (anchor_first p0 pts) as (s & others & Hswap & Hperm & Hlow).
    pose proof Hrun as Hrun'.
    unfold calculateConvexHull in Hrun'. rewrite Hswap in Hrun'.
    injection Hrun' as _ Hscan.
    apply graham_scan_spec in Hscan as (_ & Hhead & Hl & Hsub).
    destruct hull as [|s' hull]; [discriminate|]. injection Hhead as ->.
    exists s, hull. rewrite Hrun. split; [reflexivity|].
    split; [destruct hull; [simpl in Hl; lia | discriminate]|].
    assert (Hs : s ∈ p0 :: pts) by (rewrite <- Hperm; left).
    split; [exact Hs|]. split.
    + rewrite <- Hperm. constructor; [apply lower_irrefl | exact Hlow].
    + apply sublist_submseteq in Hsub.
      rewrite sort_perm, Hperm in Hsub. exact Hsub.
Qed.

Lemma hull_of_contour_witness :
  exists s hull,
    (calculateConvexHull [(1, 1); (0, 0); (2, 0)]).2 = Some (s :: hull)
    /\ hull <> []
    /\ s ∈ [(1, 1); (0, 0); (2, 0)]
    /\ Forall (fun p => lower p s = false) [(1, 1); (0, 0); (2, 0)]
    /\ s :: hull ⊆+ [(1, 1); (0, 0); (2, 0)].
Proof.
  apply (proj2 (hull_of_contour [(1, 1); (0, 0); (2, 0)])). simpl. lia.
Defined.

(** X19. The hull that [calculateConvexHull] returns turns the same way at
    every point: any three points that follow one another in it make a
    counter-clockwise turn, as [isCounterClockwise] tests it, so no three
    such points lie on one line. *)
Theorem hull_strict_turns (c c' hull : list point) :
  calculateConvexHull c = (Some c', Some hull) ->
  forall l1 p1 p2 p3 l2,
    hull = l1 ++ p1 :: p2 :: p3 :: l2 -> isCounterClockwise p1 p2 p3 = true.
Proof.
  intros Hrun. destruct c as [|p0 pts]; [discriminate|].
  unfold calculateConvexHull in Hrun.
  destruct (swap_to_front (p0 :: pts) (find_start pts 1 0 p0))
    as [|s others]; [discriminate|].
  injection Hrun as _ Hscan.
  apply graham_scan_spec in Hscan as [Hturns _]. exact Hturns.
Qed.

Lemma hull_strict_turns_witness :
  calculateConvexHull [(0, 0); (4, 0); (4, 4); (0, 4); (2, 2)]
  = (Some [(0, 0); (4, 0); (4, 4); (0, 4); (2, 2)],
     Some [(0, 0); (4, 0); (4, 4); (0, 4)])
  /\ isCounterClockwise (4, 0) (4, 4) (0, 4) = true.
Proof.
  assert (Hrun : calculateConvexHull [(0, 0); (4, 0); (4, 4); (0, 4); (2, 2)]
                 = (Some [(0, 0); (4, 0); (4, 4); (0, 4); (2, 2)],
                    Some [(0, 0); (4, 0); (4, 4); (0, 4)])).
  { vm_compute. reflexivity. }
  split; [exact Hrun|].
  exact (hull_strict_turns _ _ _ Hrun [(0, 0)] (4, 0) (4, 4) (0, 4) [] eq_refl).
Defined.

(** ** The path of a trace *)

Lemma directions_within (x y : Z) (p : point) :
  In p (map (shift x y) directions) <-> within 1 x y p.
Proof.
  unfold within, shift, directions. destruct p as [px py]. simpl. split.
  - intros Hin.
    repeat (destruct Hin as [[= <- <-] | Hin];
            [split; [intros [=]; lia | lia]|]).
    contradiction.
  - intros (Hne & Hx & Hy).
    assert (Hc : (px = x - 1 \/ px = x \/ px = x + 1)
                 /\ (py = y - 1 \/ py = y \/ py = y + 1)) by lia.
    destruct Hc as [[-> | [-> | ->]] [-> | [-> | ->]]];
      try (exfalso; apply Hne; reflexivity);
      repeat (first [left; f_equal; lia | right]).
Qed.

Lemma within_mono (r r' x y : Z) (p : point) :
  r <= r' -> within r x y p -> within r' x y p.
Proof. unfold within. intros Hr (Hne & Hx & Hy). split; [exact Hne | lia]. Qed.

Lemma consecutive_snoc (contour : list point) (z p q : point) :
  consecutive (contour ++ [z]) p q ->
  consecutive contour p q \/ (last contour = Some p /\ q = z).
Proof.
  intros (l1 & l2 & Heq).
  destruct l2 as [|y l2 _] using rev_ind.
  - right.
    replace (l1 ++ [p; q]) with ((l1 ++ [p]) ++ [q]) in Heq
      by (rewrite <- app_assoc; reflexivity).
    apply app_inj_tail in Heq as [-> ->]. split; [apply last_snoc | reflexivity].
  - left.
    replace (l1 ++ p :: q :: l2 ++ [y]) with ((l1 ++ p :: q :: l2) ++ [y]) in Heq
      by (rewrite <- app_assoc; reflexivity).
    apply app_inj_tail in Heq as [-> _]. exists l1, l2. reflexivity.
Qed.

Section Path.
Variables (binary : list Z) (width height : Z).
Variables (visited0 : list Z) (start : point).

Local Abbreviation on_path := (path_inv binary width height visited0 start).

Lemma take_pixel_path visited contour x y p :
  on_path {| ts_visited := visited; ts_contour := contour;
             ts_stack := [(x, y)] |} ->
  available binary visited width height p = true ->
  within 3 x y p ->
  on_path (take_pixel width visited contour [] p).
Proof.
  intros [Hst Hhd Hsteps Hmarks Hlen] Hav Hnear. simpl in *.
  apply available_spec in Hav as (_ & _ & Hv).
  split; simpl.
  - apply last_snoc.
  - destruct contour; [discriminate | exact Hhd].
  - intros a b Hab. apply consecutive_snoc in Hab as [Hab | [Hl ->]].
    + apply Hsteps, Hab.
    + rewrite Hst in Hl. injection Hl as <-. exact Hnear.
  - fold (pixel_index width p). intros i.
    destruct (Z.eq_dec (pixel_index width p) i) as [<- | Hne].
    + right. exists p. split; [apply elem_of_app; right; left|].
      split; [reflexivity|].
      apply get_set_eq. rewrite Hv. eexists; reflexivity.
    + rewrite get_set_ne by exact Hne.
      destruct (Hmarks i) as [Heq | (q & Hq & Hi & H1)]; [left; exact Heq|].
      right. exists q. split; [apply elem_of_app; left; exact Hq|].
      split; assumption.
  - rewrite length_set. exact Hlen.
Qed.

Lemma trace_step_path visited contour x y :
  on_path {| ts_visited := visited; ts_contour := contour;
             ts_stack := [(x, y)] |} ->
  on_path (trace_step binary width height visited contour x y []).
Proof.
  intros Hinv. unfold trace_step.
  destruct (find_direction binary visited width height x y) as [p|] eqn:Hd.
  - apply find_some in Hd as [Hin Hav].
    apply (take_pixel_path visited contour x y p Hinv Hav).
    apply (within_mono 1); [lia|]. apply directions_within, Hin.
  - assert (Hnone : exhausted binary visited width height 1 x y).
    { intros p Hp. apply (find_none _ _ Hd). apply directions_within, Hp. }
    cbn [length Nat.eqb andb].
    destruct (1 <? length contour)%nat eqn:Hlong.
    + destruct (find_gap binary visited width height x y) as [p|] eqn:Hg.
      * apply find_gap_Some in Hg as (Hav & Hnear & _).
        apply (take_pixel_path visited contour x y p Hinv Hav Hnear).
      * destruct Hinv as [Hst Hhd Hsteps Hmarks Hlen]. simpl in *.
        split; simpl; try assumption.
        exists x, y. split; [exact Hst|]. split; [exact Hnone|].
        intros _ p Hp. eapply find_gap_None; eassumption.
    + destruct Hinv as [Hst Hhd Hsteps Hmarks Hlen]. simpl in *.
      split; simpl; try assumption.
      exists x, y. split; [exact Hst|]. split; [exact Hnone|].
      intros Hl. apply Nat.ltb_ge in Hlong. lia.
Qed.

Lemma trace_loop_path (fuel : nat) :
  forall st st',
    on_path st ->
    trace_loop fuel binary width height st = Some st' ->
    on_path st' /\ ts_stack st' = [].
Proof.
  induction fuel as [|fuel IH]; intros st st' Hinv Hrun;
    destruct st as [visited contour [|[x y] stack]]; simpl in *.
  - injection Hrun as <-. split; [exact Hinv | reflexivity].
  - discriminate.
  - injection Hrun as <-. split; [exact Hinv | reflexivity].
  - destruct stack as [|p' stack]; [|destruct Hinv as [[] _ _ _ _]].
    eapply IH; [|exact Hrun]. apply trace_step_path, Hinv.
Qed.
End Path.

(** Every call of [traceContour] returns, whatever it is called on, and
    its last state is one of a trace that has come to its end. *)
Lemma traceContour_path_inv (binary visited : list Z) (width height x y : Z) :
  exists visited' contour,
    traceContour binary visited width height x y = Some (visited', contour)
    /\ path_inv binary width height visited (x, y)
         {| ts_visited := visited'; ts_contour := contour; ts_stack := [] |}.
Proof.
  unfold traceContour.
  set (st := {| ts_visited := set visited (y * width + x) 1;
                ts_contour := [(x, y)]; ts_stack := [(x, y)] |}).
  destruct (trace_loop_returns binary width height
              (2 * length visited + 2) st) as [st' Hrun].
  { simpl. rewrite <- (length_set visited (y * width + x) 1).
    pose proof (unvisited_le (set visited (y * width + x) 1)). lia. }
  rewrite Hrun. exists (ts_visited st'), (ts_contour st').
  split; [reflexivity|].
  destruct (trace_loop_path binary width height visited (x, y)
              (2 * length visited + 2) st st')
    as [Hinv Hstack]; [|exact Hrun|].
  - split; simpl.
    + reflexivity.
    + reflexivity.
    + intros p q (l1 & l2 & Heq).
      destruct l1 as [|? [|? ?]]; discriminate.
    + intros i. change (y * width + x) with (pixel_index width (x, y)).
      destruct (Z.eq_dec (pixel_index width (x, y)) i) as [<- | Hne].
      * destruct (get visited (pixel_index width (x, y))) as [v|] eqn:Hv.
        -- right. exists (x, y). split; [left|]. split; [reflexivity|].
           apply get_set_eq. rewrite Hv. eexists; reflexivity.
        -- left. unfold get, set in *.
           destruct (pixel_index width (x, y) <? 0); [reflexivity|].
           apply lookup_ge_None. rewrite length_insert.
           apply lookup_ge_None in Hv. exact Hv.
      * left. apply get_set_ne. exact Hne.
    + apply length_set.
  - destruct st' as [v c s]. simpl in *. subst s. exact Hinv.
Qed.

(** X6. [traceContour] returns for every image, array of marks and start
    pixel.  The contour begins with the start pixel and is a path: every
    point but the first lies at most three columns and three rows from the
    point before it, and is another pixel. *)
Theorem traceContour_path (binary visited : list Z) (width height x y : Z) :
  exists visited' contour,
    traceContour binary visited width height x y = Some (visited', contour)
    /\ head contour = Some (x, y)
    /\ forall p q, consecutive contour p q -> within 3 p.1 p.2 q.
Proof.
  destruct (traceContour_path_inv binary visited width height x y)
    as (visited' & contour & Hrun & [_ Hhd Hsteps _ _]).
  exists visited', contour. auto.
Qed.

(** X7. What [traceContour] changes in the caller's array [visited]: the
    array keeps its length, and an entry is what it was before the call or
    it is 1 and belongs to a pixel of the contour returned. *)
Theorem traceContour_marks (binary visited : list Z) (width height x y : Z) :
  exists visited' contour,
    traceContour binary visited width height x y = Some (visited', contour)
    /\ length visited' = length visited
    /\ forall i,
         get visited' i = get visited i
         \/ exists p, p ∈ contour /\ i = p.2 * width + p.1
                      /\ get visited' i = Some 1.
Proof.
  destruct (traceContour_path_inv binary visited width height x y)
    as (visited' & contour & Hrun & [_ _ _ Hmarks Hlen]).
  exists visited', contour. auto.
Qed.

(** X8. Where a trace ends: no pixel among the 8 neighbours of the last
    point of the contour lies in the image, is part of the shape and is
    unvisited, and, unless the contour is the start pixel alone, neither
    does any pixel at most three columns and three rows away. *)
Theorem traceContour_end (binary visited : list Z) (width height x y : Z) :
  exists visited' contour x' y',
    traceContour binary visited width height x y = Some (visited', contour)
    /\ last contour = Some (x', y')
    /\ (forall p, within 1 x' y' p ->
                  available binary visited' width height p = false)
    /\ ((1 < length contour)%nat ->
        forall p, within 3 x' y' p ->
                  available binary visited' width height p = false).
Proof.
  destruct (traceContour_path_inv binary visited width height x y)
    as (visited' & contour & Hrun & [(x' & y' & Hl & H1 & H3) _ _ _ _]).
  exists visited', contour, x', y'. auto.
Qed.

(** ** The blur *)

Lemma get_set_cases a i v j u :
  get (set a i v) j = Some u -> (i = j /\ u = v) \/ get a j = Some u.
Proof.
  intros Hget. destruct (Z.eq_dec i j) as [<- | Hne].
  - destruct (get a i) as [w|] eqn:Hw.
    + rewrite get_set_eq in Hget by (rewrite Hw; eexists; reflexivity).
      injection Hget as <-. left. split; reflexivity.
    + exfalso. unfold get, set in *.
      destruct (i <? 0); [discriminate|].
      apply lookup_ge_None in Hw.
      assert (Hn : <[Z.to_nat i := v]> a !! Z.to_nat i = None)
        by (apply lookup_ge_None; rewrite length_insert; exact Hw).
      congruence.
  - right. rewrite get_set_ne in Hget by exact Hne. exact Hget.
Qed.

(** The blur writes 255 only where the 3x3 sum exceeds 255. *)
Lemma blur_pixels_bright enhanced width (pixels : list point) init i :
  get (foldl (blur_pixel enhanced width) init pixels) i = Some 255 ->
  get init i = Some 255
  \/ exists p s, p ∈ pixels /\ i = pixel_index width p
                 /\ box_sum enhanced width p.1 p.2 = Some s /\ 255 < s.
Proof.
  revert init. induction pixels as [|[x y] pixels IH]; intros init Hget;
    simpl in *.
  - left. exact Hget.
  - destruct (IH _ Hget) as [Hinit | (p & s & Hp & Hi & Hs)].
    + unfold blur_pixel in Hinit.
      apply get_set_cases in Hinit as [[<- Hv] | Hinit]; [|left; exact Hinit].
      right. destruct (box_sum enhanced width x y) as [s|] eqn:Hbs;
        [|discriminate].
      destruct (255 * 1 <? s) eqn:E; [|discriminate].
      exists (x, y), s. split; [left|]. split; [reflexivity|].
      split; [exact Hbs|]. apply Z.ltb_lt in E. lia.
    + right. exists p, s. split; [right; exact Hp|]. auto.
Qed.

Lemma blur_bright enhanced width height p :
  inside width height p ->
  get (blur enhanced width height) (pixel_index width p) = Some 255 ->
  p ∈ interior_pixels width height
  /\ exists s, box_sum enhanced width p.1 p.2 = Some s /\ 255 < s.
Proof.
  intros Hin Hget.
  apply blur_pixels_bright in Hget as [Hinit | (q & s & Hq & Heq & Hs)].
  - unfold get in Hinit. destruct (pixel_index width p <? 0); [discriminate|].
    apply lookup_replicate in Hinit as [? _]. discriminate.
  - rewrite (pixel_index_inj width height p q Hin
               (interior_pixels_inside _ _ _ Hq) Heq).
    split; [exact Hq|]. exists s. exact Hs.
Qed.

Lemma interior_pixels_bounds width height p :
  p ∈ interior_pixels width height
  <-> 1 <= p.1 <= width - 2 /\ 1 <= p.2 <= height - 2.
Proof.
  unfold interior_pixels. rewrite list_elem_of_bind. split.
  - intros (y & Hp & Hy). apply list_elem_of_bind in Hp as (x & Hp & Hx).
    apply list_elem_of_singleton in Hp as ->.
    apply elem_of_seqZ in Hx, Hy. simpl. lia.
  - intros [Hx Hy]. exists p.2. split; [|apply elem_of_seqZ; lia].
    apply list_elem_of_bind. exists p.1. split; [|apply elem_of_seqZ; lia].
    destruct p. apply list_elem_of_singleton. reflexivity.
Qed.

(** *** The 3x3 sum counts the pixels of the shape *)

Lemma box_sum_cells enhanced width x y :
  box_sum enhanced width x y
  = foldl (fun acc cell =>
             match acc, cell with
             | Some s, Some v => Some (s + v)
             | _, _ => None
             end)
          (Some 0) (get enhanced <$> neighbourhood width x y).
Proof. reflexivity. Qed.

Lemma get_enhance binary i :
  get (enhance binary) i
  = (fun v => if 0 <? v then 255 else 0) <$> get binary i.
Proof.
  unfold get, enhance. destruct (i <? 0); [reflexivity|].
  apply list_lookup_fmap.
Qed.

Lemma sum_cells binary (cells : list Z) :
  forall a s,
    foldl (fun acc cell =>
             match acc, cell with
             | Some s, Some v => Some (s + v)
             | _, _ => None
             end)
          (Some a) (get (enhance binary) <$> cells) = Some s ->
    s = a + 255 * Z.of_nat
                    (length (List.filter
                               (fun i => match get binary i with
                                         | Some v => 0 <? v
                                         | None => false
                                         end) cells)).
Proof.
  induction cells as [|i cells IH]; intros a s Hs.
  - simpl in Hs. injection Hs as <-. simpl. lia.
  - cbn [fmap list_fmap foldl List.filter] in Hs |- *.
    rewrite get_enhance in Hs.
    destruct (get binary i) as [v|]; cbn [fmap option_fmap option_map] in Hs.
    + apply IH in Hs. destruct (0 <? v); cbn [length]; lia.
    + exfalso. clear - Hs. induction cells as [|j cells IH]; [discriminate|].
      apply IH. exact Hs.
Qed.

Lemma bright_count binary width x y s :
  box_sum (enhance binary) width x y = Some s -> 255 < s ->
  (2 <= foreground_count binary width x y)%nat.
Proof.
  rewrite box_sum_cells. intros Hs Hgt. apply sum_cells in Hs.
  unfold foreground_count. lia.
Qed.

(** ** The contours of [findContours] *)

(** What holds of every trace the scan can start holds of every contour it
    returns. *)
Lemma scan_pixels_contours (Q : list point -> Prop) blurred width height
    (pixels : list point) :
  (forall x y visited visited' contour,
     inside width height (x, y) ->
     get blurred (pixel_index width (x, y)) = Some 255 ->
     get visited (pixel_index width (x, y)) = Some 0 ->
     traceContour blurred visited width height x y = Some (visited', contour) ->
     Q contour) ->
  Forall (inside width height) pixels ->
  forall visited contours visited' contours',
    Forall Q contours ->
    scan_pixels blurred width height pixels visited contours
    = Some (visited', contours') ->
    Forall Q contours'.
Proof.
  intros HQ Hin. induction Hin as [|[x y] pixels Hxy _ IH];
    intros visited contours visited' contours' Hall Hrun.
  - injection Hrun as _ <-. exact Hall.
  - cbn [scan_pixels] in Hrun.
    destruct (reads blurred (y * width + x) 255
              && reads visited (y * width + x) 0) eqn:Htest.
    + apply andb_true_iff in Htest as [Hb Hv]. apply reads_spec in Hb, Hv.
      destruct (traceContour blurred visited width height x y)
        as [[visited1 contour]|] eqn:Htrace; [|discriminate].
      eapply IH; [|exact Hrun].
      destruct (2 <? length contour)%nat; [|exact Hall].
      apply Forall_app. split; [exact Hall|]. constructor; [|constructor].
      eapply HQ; eassumption.
    + eapply IH; eassumption.
Qed.

Lemma findContours_Forall (Q : list point -> Prop) binary width height :
  (forall x y visited visited' contour,
     inside width height (x, y) ->
     get (blur (enhance binary) width height) (pixel_index width (x, y))
     = Some 255 ->
     get visited (pixel_index width (x, y)) = Some 0 ->
     traceContour (blur (enhance binary) width height) visited width height x y
     = Some (visited', contour) ->
     Q contour) ->
  exists contours,
    findContours binary width height = Some contours /\ Forall Q contours.
Proof.
  intros HQ.
  destruct (findContours_spec binary width height)
    as (visited & contours & Hrun & _).
  exists contours. split; [exact Hrun|].
  unfold findContours in Hrun.
  destruct (scan_pixels _ _ _ _ _ _) as [[visited' contours']|] eqn:Hscan;
    [|discriminate].
  injection Hrun as <-.
  eapply scan_pixels_contours; [exact HQ | | constructor | exact Hscan].
  apply Forall_forall. intros p. apply interior_pixels_inside.
Qed.

(** X4. Every point of every contour that [findContours] returns lies off
    the border of the image (1 <= x <= width - 2, 1 <= y <= height - 2), and
    at least two of the nine pixels of the 3x3 square around it are
    non-zero in the binary image: a single pixel gives no contour point. *)
Theorem findContours_bright_interior (binary : list Z) (width height : Z) :
  exists contours,
    findContours binary width height = Some contours
    /\ Forall (Forall (fun p =>
                 1 <= p.1 <= width - 2 /\ 1 <= p.2 <= height - 2
                 /\ (2 <= foreground_count binary width p.1 p.2)%nat))
              contours.
Proof.
  apply findContours_Forall.
  intros x y visited visited' contour Hin Hb Hv Hrun.
  destruct (traceContour_spec _ width height visited (x, y) Hin Hb Hv)
    as (visited1 & contour1 & Hrun1 & [_ _ _ Hpts]).
  simpl in Hrun1. rewrite Hrun in Hrun1. injection Hrun1 as <- <-.
  eapply Forall_impl; [exact Hpts|].
  intros p (Hp & Hbright & _).
  apply blur_bright in Hbright as [Hint (s & Hs & Hgt)]; [|exact Hp].
  apply interior_pixels_bounds in Hint as [Hx Hy].
  split; [exact Hx|]. split; [exact Hy|].
  eapply bright_count; eassumption.
Qed.

(** X5. Every contour that [findContours] returns is a path: each of its
    points but the first is another pixel than the point before it and lies
    at most three columns and three rows from it. *)
Theorem findContours_paths (binary : list Z) (width height : Z) :
  exists contours,
    findContours binary width height = Some contours
    /\ Forall (fun contour =>
                 forall p q, consecutive contour p q -> within 3 p.1 p.2 q)
              contours.
Proof.
  apply findContours_Forall.
  intros x y visited visited' contour _ _ _ Hrun.
  destruct (traceContour_path_inv (blur (enhance binary) width height)
              visited width height x y)
    as (visited1 & contour1 & Hrun1 & [_ _ Hsteps _ _]).
  rewrite Hrun in Hrun1. injection Hrun1 as <- <-. exact Hsteps.
Qed.

(** *** Images without contours *)

Lemma scan_pixels_dark blurred width height (pixels : list point) :
  (forall i, get blurred i <> Some 255) ->
  forall visited contours,
    scan_pixels blurred width height pixels visited contours
    = Some (visited, contours).
Proof.
  intros Hdark. induction pixels as [|[x y] pixels IH];
    intros visited contours; [reflexivity|].
  cbn [scan_pixels].
  destruct (reads blurred (y * width + x) 255) eqn:Hb.
  - apply reads_spec in Hb. destruct (Hdark _ Hb).
  - apply IH.
Qed.

Lemma interior_pixels_small width height :
  width < 3 \/ height < 3 -> interior_pixels width height = [].
Proof.
  intros Hs. destruct (interior_pixels width height) as [|p l] eqn:E;
    [reflexivity|].
  assert (Hp : p ∈ interior_pixels width height) by (rewrite E; left).
  apply interior_pixels_bounds in Hp. lia.
Qed.

Lemma box_sum_background binary width x y s :
  Forall (fun v => v = 0) binary ->
  box_sum (enhance binary) width x y = Some s -> s = 0.
Proof.
  intros Hzero Hs. rewrite box_sum_cells in Hs. apply sum_cells in Hs.
  rewrite Hs.
  assert (Hf : forall cells,
    List.filter (fun i => match get binary i with
                          | Some v => 0 <? v
                          | None => false
                          end) cells = []).
  { induction cells as [|i cells IH]; [reflexivity|]. cbn [List.filter].
    destruct (get binary i) as [v|] eqn:Hv; [|exact IH].
    assert (v = 0).
    { unfold get in Hv. destruct (i <? 0); [discriminate|].
      rewrite Forall_forall in Hzero. apply Hzero.
      eapply list_elem_of_lookup_2. exact Hv. }
    subst v. exact IH. }
  rewrite Hf. reflexivity.
Qed.

Lemma findContours_background (binary : list Z) (width height : Z) :
  Forall (fun v => v = 0) binary -> findContours binary width height = Some [].
Proof.
  intros Hzero. unfold findContours.
  rewrite scan_pixels_dark; [reflexivity|].
  intros i Hi.
  apply blur_pixels_bright in Hi as [Hinit | (p & s & _ & _ & Hs & Hgt)].
  - unfold get in Hinit. destruct (i <? 0); [discriminate|].
    apply lookup_replicate in Hinit as [? _]. discriminate.
  - apply box_sum_background in Hs; [lia | exact Hzero].
Qed.

(** X3. [findContours] returns no contour for an image of fewer than 3
    columns or fewer than 3 rows, and none for an image without a pixel of
    the shape. *)
Theorem findContours_nothing (binary : list Z) (width height : Z) :
  (width < 3 \/ height < 3 -> findContours binary width height = Some [])
  /\ (Forall (fun v => v = 0) binary ->
      findContours binary width height = Some []).
Proof.
  split.
  - intros Hs. unfold findContours.
    rewrite (interior_pixels_small width height Hs). reflexivity.
  - apply findContours_background.
Qed.

Lemma findContours_nothing_witness :
  findContours [255; 255; 255; 255] 2 2 = Some [].
Proof.
  apply (proj1 (findContours_nothing [255; 255; 255; 255] 2 2)). lia.
Defined.

(** ** The mask *)

Lemma threshold_image_values threshold gray :
  Forall (fun v => v = 0 \/ v = 255) (threshold_image threshold gray).
Proof.
  unfold threshold_image. apply Forall_fmap, Forall_forall. intros g _. simpl.
  destruct (threshold <? g); [right | left]; reflexivity.
Qed.

Lemma enhance_mask (mask : list Z) :
  Forall (fun v => v = 0 \/ v = 255) mask -> enhance mask = mask.
Proof.
  induction 1 as [|v mask Hv _ IH]; [reflexivity|].
  unfold enhance in *. rewrite fmap_cons.
  f_equal; [destruct Hv as [-> | ->]; reflexivity | exact IH].
Qed.

(** X1. The mask that [detectShape] hands to [findContours] has one entry
    for every pixel of the canvas, each 0 or 255, and the first step of
    [findContours] ("any non-zero value becomes full intensity") leaves it
    as it is. *)
Theorem binarize_mask (cv : canvas) :
  length (binarize cv) = (canvas_width cv * canvas_height cv)%nat
  /\ Forall (fun v => v = 0 \/ v = 255) (binarize cv)
  /\ enhance (binarize cv) = binarize cv.
Proof.
  split; [|split].
  - unfold binarize, threshold_image, grayscale.
    rewrite !length_fmap, length_seq. reflexivity.
  - apply threshold_image_values.
  - apply enhance_mask, threshold_image_values.
Qed.

(** *** A canvas without colour *)

Lemma colour_channel (k j : nat) :
  (j < 3)%nat -> ((4 * k + j) mod 4 <> 3)%nat.
Proof.
  intros Hj. rewrite Nat.add_comm, (Nat.mul_comm 4 k), Nat.Div0.mod_add.
  rewrite Nat.mod_small by lia. lia.
Qed.

Lemma gray_at_colourless (data : list Z) (k : nat) :
  (forall i v, data !! i = Some v -> (i mod 4 <> 3)%nat -> v = 0) ->
  gray_at data k = 0.
Proof.
  intros Hdata. unfold gray_at.
  destruct (data !! (4 * k)%nat) as [r|] eqn:Hr; [|reflexivity].
  destruct (data !! (4 * k + 1)%nat) as [g|] eqn:Hg; [|reflexivity].
  destruct (data !! (4 * k + 2)%nat) as [b|] eqn:Hb; [|reflexivity].
  rewrite (Hdata _ _ Hg), (Hdata _ _ Hb) by (apply colour_channel; lia).
  rewrite (Hdata _ _ Hr)
    by (rewrite <- (Nat.add_0_r (4 * k)); apply colour_channel; lia).
  destruct (data !! (4 * k + 3)%nat) as [a|]; [|vm_compute; reflexivity].
  unfold luminance. destruct (200 <? a); vm_compute; reflexivity.
Qed.

Lemma binarize_colourless (cv : canvas) :
  (forall i v, canvas_data cv !! i = Some v -> (i mod 4 <> 3)%nat -> v = 0) ->
  Forall (fun v => v = 0) (binarize cv).
Proof.
  intros Hdata. unfold binarize, threshold_image, grayscale.
  rewrite <- list_fmap_compose. apply Forall_fmap, Forall_forall.
  intros k _. simpl. rewrite (gray_at_colourless _ k Hdata). reflexivity.
Qed.

(** X2. A canvas on which the red, green and blue channel of every pixel is
    0, whatever the alpha channel holds (black strokes on a transparent
    ground, for one), has an empty mask, and [detectShape] answers unknown
    with confidence 0 and without metrics. *)
Theorem detectShape_colourless `{MathRuntime} (cv : canvas) :
  (forall i v, canvas_data cv !! i = Some v -> (i mod 4 <> 3)%nat -> v = 0) ->
  Forall (fun v => v = 0) (binarize cv)
  /\ detectShape cv
     = Some {| detectedShape := unknown; confidence := Fin 0;
               result_metrics := None |}.
Proof.
  intros Hdata. pose proof (binarize_colourless cv Hdata) as Hzero.
  split; [exact Hzero|].
  unfold detectShape. rewrite (findContours_background _ _ _ Hzero).
  reflexivity.
Qed.

Lemma detectShape_colourless_witness :
  @detectShape fixed_point_runtime black_pixels
  = Some {| detectedShape := unknown; confidence := Fin 0;
            result_metrics := None |}.
Proof.
  apply (@detectShape_colourless fixed_point_runtime black_pixels).
  intros i v Hi Hmod.
  do 8 (destruct i as [|i];
        [simpl in Hi; injection Hi as <-;
         first [reflexivity | exfalso; apply Hmod; reflexivity]|]).
  discriminate.
Defined.

(** ** The decision *)

Lemma circleConfidence_positive circ :
  num_gt circ (Fin CONFIG.circularity) = true ->
  num_gt (circleConfidence_of circ) (Fin 0) = true.
Proof.
  unfold circleConfidence_of, CONFIG.circularity.
  destruct circ as [| | |q]; simpl; try discriminate.
  - intros _. reflexivity.
  - intros Hq. reflect_Q.
    destruct (Qle_bool 1 _) eqn:E; reflect_Q; simpl.
    + reflexivity.
    + apply Qlt_bool_iff. apply Qlt_shift_div_l; [reflexivity|]. lra.
Qed.

(** X21. When exactly one hypothesis holds, the detector answers that shape
    with its own confidence.  With the circle hypothesis alone the answer
    is circle, with a confidence greater than 0 and at most 1; with the
    triangle hypothesis alone it is triangle, with a confidence of at least
    0.85 and at most 1. *)
Theorem one_hypothesis (circ sol : number) (corners : nat) :
  (num_gt circ (Fin CONFIG.circularity) = true ->
   Nat.eqb corners 3 && num_gt sol (Fin (85 # 100)) = false ->
   determine_shape circ sol corners = (circle, circleConfidence_of circ)
   /\ num_gt (circleConfidence_of circ) (Fin 0) = true
   /\ num_between 0 1 (circleConfidence_of circ))
  /\ (num_gt circ (Fin CONFIG.circularity) = false ->
      Nat.eqb corners 3 && num_gt sol (Fin (85 # 100)) = true ->
      determine_shape circ sol corners = (triangle, triangleConfidence_of sol)
      /\ num_between (85 # 100) 1 (triangleConfidence_of sol)).
Proof.
  split.
  - intros Hc Ht. split; [|split].
    + unfold determine_shape, circle_detection, triangle_detection.
      rewrite Hc, Ht. reflexivity.
    + apply circleConfidence_positive, Hc.
    + apply circleConfidence_range, Hc.
  - intros Hc Ht. split.
    + unfold determine_shape, circle_detection, triangle_detection.
      rewrite Hc, Ht. reflexivity.
    + apply andb_true_iff in Ht as [_ Hs].
      apply triangleConfidence_range, Hs.
Qed.

Lemma one_hypothesis_witness :
  determine_shape (Fin (8 # 10)) (Fin (5 # 10)) 3
  = (circle, circleConfidence_of (Fin (8 # 10)))
  /\ determine_shape (Fin (5 # 10)) (Fin (9 # 10)) 3
     = (triangle, triangleConfidence_of (Fin (9 # 10))).
Proof.
  split.
  - exact (proj1 (proj1 (one_hypothesis (Fin (8 # 10)) (Fin (5 # 10)) 3)
                    eq_refl eq_refl)).
  - exact (proj1 (proj2 (one_hypothesis (Fin (5 # 10)) (Fin (9 # 10)) 3)
                    eq_refl eq_refl)).
Defined.

(** *** The main contour *)

Lemma area_gt (c1 c2 : list point) :
  num_gt (calculateContourArea c1) (calculateContourArea c2)
  = (double_area c2 <? double_area c1).
Proof.
  rewrite !area_of_shoelace. unfold double_area. simpl.
  destruct (Z.ltb_spec (Z.abs (shoelace c2)) (Z.abs (shoelace c1))).
  - apply Qlt_bool_iff. unfold Qlt. simpl. lia.
  - apply Qlt_bool_false. unfold Qle. simpl. lia.
Qed.

Lemma largest_cons (first c : list point) others :
  largest first (c :: others)
  = largest (if num_gt (calculateContourArea c) (calculateContourArea first)
             then c else first) others.
Proof. reflexivity. Qed.

Lemma largest_first (others : list (list point)) :
  forall first,
    exists before after,
      first :: others = before ++ largest first others :: after
      /\ Forall (fun c => double_area c < double_area (largest first others))
                before
      /\ Forall (fun c => double_area c <= double_area (largest first others))
                after.
Proof.
  induction others as [|c others IH]; intros first.
  - exists [], []. repeat split; constructor.
  - rewrite largest_cons, area_gt.
    destruct (Z.ltb_spec (double_area first) (double_area c)) as [Hlt | Hge].
    + destruct (IH c) as (before & after & Heq & Hb & Ha).
      exists (first :: before), after. split; [simpl; f_equal; exact Heq|].
      split; [|exact Ha]. constructor; [|exact Hb].
      destruct before as [|c' before]; simpl in Heq.
      * injection Heq as Hc _. rewrite <- Hc. exact Hlt.
      * injection Heq as <- _. apply Forall_cons in Hb as [Hc _]. lia.
    + destruct (IH first) as (before & after & Heq & Hb & Ha).
      destruct before as [|f before]; simpl in Heq.
      * injection Heq as Hf Ho. exists [], (c :: after).
        split; [simpl; f_equal; [exact Hf | f_equal; exact Ho]|].
        split; [constructor|]. constructor; [rewrite <- Hf; exact Hge | exact Ha].
      * injection Heq as <- Ho. exists (first :: c :: before), after.
        split; [simpl; do 2 f_equal; exact Ho|]. split; [|exact Ha].
        apply Forall_cons in Hb as [Hf Hb].
        constructor; [exact Hf|]. constructor; [lia | exact Hb].
Qed.

(** ** The outcome of [detectShape] *)

(** X20. The main contour of [detectShape] is the first contour of the
    greatest area: every contour before it in the list is smaller, and no
    contour after it is greater. *)
Theorem largest_first_greatest (first : list point)
    (others : list (list point)) :
  exists before after,
    first :: others = before ++ largest first others :: after
    /\ Forall (fun c => num_gt (calculateContourArea (largest first others))
                               (calculateContourArea c) = true) before
    /\ Forall (fun c => num_gt (calculateContourArea c)
                               (calculateContourArea (largest first others))
                        = false) after.
Proof.
  destruct (largest_first others first) as (before & after & Heq & Hb & Ha).
  exists before, after. split; [exact Heq|]. split.
  - eapply Forall_impl; [exact Hb|]. intros c Hc. simpl in Hc.
    rewrite area_gt. apply Z.ltb_lt, Hc.
  - eapply Forall_impl; [exact Ha|]. intros c Hc. simpl in Hc.
    rewrite area_gt. apply Z.ltb_ge, Hc.
Qed.

Lemma filter_nil_Forall {A} (f : A -> bool) (l : list A) :
  List.filter f l = [] <-> Forall (fun x => f x = false) l.
Proof.
  induction l as [|x l IH]; simpl.
  - split; [constructor | reflexivity].
  - destruct (f x) eqn:E.
    + split; [discriminate|]. intros Hall. apply Forall_cons in Hall as [Hx _].
      congruence.
    + rewrite IH. split; [intros Hl; constructor; assumption|].
      intros Hall. apply Forall_cons in Hall as [_ Hl]. exact Hl.
Qed.

Section Outcome.
Context `{MathRuntime}.

(** The run of [detectShape] on a canvas with a contour of an area above
    the minimum. *)
Lemma detectShape_run (cv : canvas) (contours : list (list point))
    (first : list point) (others : list (list point)) :
  findContours (binarize cv) (Z.of_nat (canvas_width cv))
               (Z.of_nat (canvas_height cv)) = Some contours ->
  List.filter
    (fun contour =>
       num_gt (calculateContourArea contour) (Fin CONFIG.contourMinArea))
    contours = first :: others ->
  let main := largest first others in
  exists hull polygon,
    calculateConvexHull main = (Some main, Some hull)
    /\ approxPolyDP (length main) main
         (num_mul (Fin CONFIG.triangleTolerance)
                  (calculateContourPerimeter main)) = Some polygon
    /\ main ∈ contours
    /\ num_gt (calculateContourArea main) (Fin CONFIG.contourMinArea) = true
    /\ detectShape cv
       = Some (let circ := calculateCircularity (calculateContourArea main)
                             (calculateContourPerimeter main) in
               let sol := num_div (calculateContourArea main)
                                  (calculateContourArea hull) in
               {| detectedShape := (determine_shape circ sol (length polygon)).1;
                  confidence := (determine_shape circ sol (length polygon)).2;
                  result_metrics :=
                    Some {| area := calculateContourArea main;
                            perimeter := calculateContourPerimeter main;
                            circularity := circ;
                            solidity := sol;
                            numCorners := length polygon |} |}).
Proof.
  intros Hrun Hvalid main.
  assert (Hin : main ∈ contours
                /\ num_gt (calculateContourArea main)
                          (Fin CONFIG.contourMinArea) = true).
  { pose proof (largest_In first others) as Hin. rewrite <- Hvalid in Hin.
    apply filter_In in Hin as [Hin Ha]. split; [apply list_elem_of_In, Hin|].
    exact Ha. }
  destruct Hin as [Hin Harea].
  destruct (findContours_spec (binarize cv)
              (Z.of_nat (canvas_width cv)) (Z.of_nat (canvas_height cv)))
    as (visited & contours' & Hrun' & [_ _ Hlen Hanc _]).
  rewrite Hrun in Hrun'. injection Hrun' as <-.
  rewrite Forall_forall in Hlen, Hanc.
  pose proof (Hlen main Hin) as Hmain.
  destruct (calculateConvexHull_returns main) as (c' & hull & Hhull & _);
    [lia|].
  assert (Hc' : c' = main).
  { pose proof (hull_keeps_anchored main (Hanc main Hin)) as Hk.
    rewrite Hhull in Hk. injection Hk as Hk. exact Hk. }
  subst c'.
  destruct (approxPolyDP_returns _ (epsilon_not_negative main)
              (length main) main) as [polygon Hpoly]; [lia|].
  exists hull, polygon. split; [exact Hhull|]. split; [exact Hpoly|].
  split; [exact Hin|]. split; [exact Harea|].
  unfold detectShape. rewrite Hrun, Hvalid. fold main.
  cbv zeta. rewrite Hhull, Hpoly.
  destruct (determine_shape _ _ _) as [s conf]. reflexivity.
Qed.
(** Every run of [detectShape] has a result, with a confidence between 0
    and 1 that is 0 for the shape unknown. *)
Lemma detectShape_outcome (cv : canvas) :
  exists r,
    detectShape cv = Some r
    /\ num_between 0 1 (confidence r)
    /\ (detectedShape r = unknown -> confidence r = Fin 0).
Proof.
  destruct (findContours_spec (binarize cv)
              (Z.of_nat (canvas_width cv)) (Z.of_nat (canvas_height cv)))
    as (visited & contours & Hrun & _).
  destruct (List.filter
              (fun contour =>
                 num_gt (calculateContourArea contour)
                        (Fin CONFIG.contourMinArea)) contours)
    as [|first others] eqn:Hvalid.
  - eexists. split.
    { unfold detectShape. rewrite Hrun, Hvalid. reflexivity. }
    simpl. split; [split; lra | reflexivity].
  - destruct (detectShape_run cv contours first others Hrun Hvalid)
      as (hull & polygon & _ & _ & _ & _ & Hr).
    eexists. split; [exact Hr|].
    cbv zeta. cbn [detectedShape confidence].
    match goal with
    | |- context [determine_shape ?c ?s ?n] =>
        pose proof (determine_shape_range c s n) as [Hne Hconf]
    end.
    split; [exact Hconf | intros Hu; contradiction].
Qed.
End Outcome.

(** X22. [detectShape] answers unknown exactly when no contour of the mask
    has an area above 20, and exactly then its result carries no metrics;
    with such a contour the answer is circle or triangle. *)
Theorem detectShape_unknown `{MathRuntime} (cv : canvas) :
  exists r contours,
    detectShape cv = Some r
    /\ findContours (binarize cv) (Z.of_nat (canvas_width cv))
                    (Z.of_nat (canvas_height cv)) = Some contours
    /\ (detectedShape r = unknown
        <-> Forall (fun contour =>
                      num_gt (calculateContourArea contour)
                             (Fin CONFIG.contourMinArea) = false) contours)
    /\ (detectedShape r = unknown <-> result_metrics r = None).
Proof.
  destruct (findContours_spec (binarize cv)
              (Z.of_nat (canvas_width cv)) (Z.of_nat (canvas_height cv)))
    as (visited & contours & Hrun & _).
  destruct (List.filter
              (fun contour =>
                 num_gt (calculateContourArea contour)
                        (Fin CONFIG.contourMinArea)) contours)
    as [|first others] eqn:Hvalid.
  - eexists _, contours. split.
    { unfold detectShape. rewrite Hrun, Hvalid. reflexivity. }
    split; [exact Hrun|]. simpl. split; [|tauto].
    split; [intros _; apply filter_nil_Forall, Hvalid | reflexivity].
  - destruct (detectShape_run cv contours first others Hrun Hvalid)
      as (hull & polygon & _ & _ & _ & _ & Hr).
    eexists _, contours. split; [exact Hr|]. split; [exact Hrun|].
    cbv zeta. cbn [detectedShape result_metrics].
    match goal with
    | |- context [determine_shape ?c ?s ?n] =>
        pose proof (determine_shape_range c s n) as [Hne _]
    end.
    split; split; try (intros Hu; contradiction); try discriminate.
    intros Hall. apply filter_nil_Forall in Hall. congruence.
Qed.

(** X23. The metrics of a result are those of a contour that encloses
    something: the area is above 20, the perimeter, the circularity and the
    solidity are finite numbers greater than 0 (no division by zero takes
    place), and the simplified polygon has at least 2 corners. *)
Theorem detectShape_metrics `{MathRuntime} (cv : canvas) :
  exists r,
    detectShape cv = Some r
    /\ forall m,
         result_metrics r = Some m ->
         num_gt (area m) (Fin CONFIG.contourMinArea) = true
         /\ (exists q, perimeter m = Fin q /\ (0 < q)%Q)
         /\ (exists q, circularity m = Fin q /\ (0 < q)%Q)
         /\ (exists q, solidity m = Fin q /\ (0 < q)%Q)
         /\ (2 <= numCorners m)%nat.
Proof.
  destruct (findContours_spec (binarize cv)
              (Z.of_nat (canvas_width cv)) (Z.of_nat (canvas_height cv)))
    as (visited & contours & Hrun & [_ _ Hlen _ _]).
  destruct (List.filter
              (fun contour =>
                 num_gt (calculateContourArea contour)
                        (Fin CONFIG.contourMinArea)) contours)
    as [|first others] eqn:Hvalid.
  { eexists. split.
    - unfold detectShape. rewrite Hrun, Hvalid. reflexivity.
    - intros m Hm. discriminate. }
  destruct (detectShape_run cv contours first others Hrun Hvalid)
    as (hull & polygon & Hhull & Hpoly & Hin & Harea & Hr).
  set (main := largest first others) in *.
  eexists. split; [exact Hr|]. cbv zeta. cbn [result_metrics].
  intros m [= <-].
  change (num_gt (calculateContourArea main) (Fin CONFIG.contourMinArea) = true
          /\ (exists q, calculateContourPerimeter main = Fin q /\ (0 < q)%Q)
          /\ (exists q, calculateCircularity (calculateContourArea main)
                          (calculateContourPerimeter main) = Fin q
                        /\ (0 < q)%Q)
          /\ (exists q, num_div (calculateContourArea main)
                                (calculateContourArea hull) = Fin q
                        /\ (0 < q)%Q)
          /\ (2 <= length polygon)%nat).
  split; [exact Harea|].
  rewrite (area_of_shoelace main), (area_of_shoelace hull).
  pose proof (traced_contour_NoDup _ _ _ _ main Hrun Hin) as Hnd.
  (* the area, as a rational *)
  rewrite area_of_shoelace in Harea.
  assert (Hd : 40 < Z.abs (shoelace main)).
  { simpl in Harea. apply Qlt_bool_iff in Harea. unfold Qlt in Harea.
    simpl in Harea. lia. }
  (* the perimeter *)
  destruct (perimeter_spec main) as (p & Hp & Hp0 & Hpz).
  assert (Hppos : (0 < p)%Q).
  { destruct (Qlt_le_dec 0 p) as [Hlt | Hle]; [exact Hlt|].
    assert (Hz : num_eq (calculateContourPerimeter main) (Fin 0)).
    { rewrite Hp. simpl. lra. }
    apply zero_perimeter_shoelace in Hz. lia. }
  rewrite Hp. split; [exists p; split; [reflexivity | exact Hppos]|].
  (* the hull *)
  assert (Hh : Z.abs (shoelace hull) <> 0).
  { intros Hz. assert (Hs : shoelace hull = 0) by lia.
    pose proof (hull_degenerate main main hull Hnd Hhull Hs). lia. }
  split; [|split].
  - unfold calculateCircularity. cbn [num_mul num_div].
    assert (Hpp : Qeq_bool (p * p) 0 = false).
    { apply Qeq_bool_false. intros Hz. nra. }
    rewrite Hpp. eexists. split; [reflexivity|].
    apply Qlt_shift_div_l; [nra|]. rewrite Qmult_0_l.
    assert (Ha : (0 < Z.abs (shoelace main) # 2)%Q)
      by (unfold Qlt; simpl; lia).
    unfold Math_PI. nra.
  - cbn [num_div].
    assert (Hhz : Qeq_bool (Z.abs (shoelace hull) # 2) 0 = false).
    { apply Qeq_bool_false. unfold Qeq. simpl. lia. }
    rewrite Hhz. eexists. split; [reflexivity|].
    apply Qlt_shift_div_l; [unfold Qlt; simpl; lia|].
    rewrite Qmult_0_l. unfold Qlt. simpl. lia.
  - apply approxPolyDP_two in Hpoly; [exact Hpoly|].
    rewrite Forall_forall in Hlen. specialize (Hlen main Hin). lia.
Qed.

Lemma detectShape_metrics_witness :
  exists r m,
    @detectShape fixed_point_runtime square_outline = Some r
    /\ result_metrics r = Some m
    /\ num_gt (area m) (Fin CONFIG.contourMinArea) = true
    /\ (2 <= numCorners m)%nat.
Proof.
  assert (Hfound : exists c others,
            findContours (binarize square_outline)
              (Z.of_nat (canvas_width square_outline))
              (Z.of_nat (canvas_height square_outline)) = Some (c :: others)
            /\ List.filter
                 (fun contour =>
                    num_gt (calculateContourArea contour)
                           (Fin CONFIG.contourMinArea)) (c :: others) = [c]).
  { vm_compute. eexists _, _. split; reflexivity. }
  destruct Hfound as (c & others & Hrun & Hvalid).
  destruct (@detectShape_run fixed_point_runtime square_outline (c :: others)
              c [] Hrun Hvalid) as (hull & polygon & _ & _ & _ & _ & Hr).
  destruct (@detectShape_metrics fixed_point_runtime square_outline)
    as (r & Hr' & Hm).
  rewrite Hr in Hr'. injection Hr' as <-.
  eexists _, _. split; [exact Hr|]. split; [reflexivity|].
  destruct (Hm _ eq_refl) as (Ha & _ & _ & _ & Hn). split; assumption.
Defined.

(** ** The label of the network *)

Lemma strict_eq_refl a : is_NaN a = false -> strict_eq a a = true.
Proof.
  destruct a; simpl; try reflexivity; try discriminate.
  intros _. apply Qeq_bool_iff. reflexivity.
Qed.

Lemma Math_max_NaN (values : list number) :
  Exists (fun v => is_NaN v = true) values ->
  forall acc,
    foldl (fun acc v =>
             match acc, v with
             | NaN, _ | _, NaN => NaN
             | _, _ => if num_gt v acc then v else acc
             end) acc values = NaN.
Proof.
  assert (Hstay : forall vs,
    foldl (fun acc v =>
             match acc, v with
             | NaN, _ | _, NaN => NaN
             | _, _ => if num_gt v acc then v else acc
             end) NaN vs = NaN).
  { induction vs as [|v vs IH]; [reflexivity | exact IH]. }
  induction 1 as [v values Hv | v values _ IH]; intros acc; cbn [foldl].
  - destruct v; try discriminate. destruct acc; apply Hstay.
  - apply IH.
Qed.

Lemma indexOf_NaN (values : list number) (i : nat) :
  indexOf values NaN i = None.
Proof.
  revert i. induction values as [|v values IH]; intros i; [reflexivity|].
  simpl. destruct v; apply IH.
Qed.

(** The running maximum over numbers: it is a number, not below the
    starting value, not below any value met, and it is the starting value
    or a value met. *)
Lemma Math_max_fold (values : list number) :
  Forall (fun v => is_NaN v = false) values ->
  forall acc, is_NaN acc = false ->
    let m := foldl (fun acc v =>
                      match acc, v with
                      | NaN, _ | _, NaN => NaN
                      | _, _ => if num_gt v acc then v else acc
                      end) acc values in
    is_NaN m = false
    /\ num_gt acc m = false
    /\ Forall (fun v => num_gt v m = false) values
    /\ (m = acc \/ m ∈ values).
Proof.
  induction 1 as [|v values Hv _ IH]; intros acc Hacc; cbn [foldl].
  - split; [exact Hacc|]. split; [apply num_gt_irrefl|].
    split; [constructor | left; reflexivity].
  - assert (Hstep : match acc, v with
                    | NaN, _ | _, NaN => NaN
                    | _, _ => if num_gt v acc then v else acc
                    end = if num_gt v acc then v else acc).
    { destruct acc, v; try discriminate; reflexivity. }
    rewrite Hstep.
    destruct (num_gt v acc) eqn:E.
    + destruct (IH v Hv) as (Hm & Hle & Hall & Hor).
      split; [exact Hm|]. split; [|split].
      * match goal with |- num_gt acc ?m = false =>
          destruct (num_gt acc m) eqn:E2; [|reflexivity] end.
        rewrite (num_gt_trans _ _ _ E E2) in Hle. discriminate.
      * constructor; assumption.
      * right. destruct Hor as [-> | Hin]; [left | right; exact Hin].
    + destruct (IH acc Hacc) as (Hm & Hle & Hall & Hor).
      split; [exact Hm|]. split; [exact Hle|]. split.
      * constructor; [|exact Hall].
        match goal with |- num_gt v ?m = false =>
          destruct (num_gt v m) eqn:E2; [|reflexivity] end.
        rewrite (num_gt_le_trans _ _ _ E2 Hle Hacc) in E. discriminate.
      * destruct Hor as [-> | Hin]; [left; reflexivity | right; right; exact Hin].
Qed.

(** Numbers that are equal are as great as one another. *)
Lemma strict_eq_gt a b c :
  strict_eq a b = true ->
  num_gt c a = num_gt c b /\ num_gt a c = num_gt b c.
Proof.
  destruct a as [| | |x], b as [| | |y]; simpl; try discriminate;
    try (intros _; split; reflexivity).
  intros Heq. apply Qeq_bool_iff in Heq.
  destruct c as [| | |z]; simpl; try (split; reflexivity).
  split.
  - destruct (Qlt_bool x z) eqn:E1, (Qlt_bool y z) eqn:E2; reflect_Q;
      try reflexivity; exfalso; lra.
  - destruct (Qlt_bool z x) eqn:E1, (Qlt_bool z y) eqn:E2; reflect_Q;
      try reflexivity; exfalso; lra.
Qed.

(** Of two numbers that are not equal one is greater. *)
Lemma strict_eq_false a b :
  is_NaN a = false -> is_NaN b = false ->
  strict_eq a b = false -> num_gt a b = false -> num_gt b a = true.
Proof.
  destruct a as [| | |x], b as [| | |y]; simpl; try discriminate;
    try reflexivity.
  intros _ _ Hne Hgt. reflect_Q. apply Qlt_bool_iff.
  destruct (Qlt_le_dec x y) as [Hlt | Hle]; [exact Hlt|].
  exfalso. apply Hne. lra.
Qed.

Lemma indexOf_found (values : list number) (x : number) :
  forall i k,
    indexOf values x i = Some k ->
    exists v,
      (i <= k)%nat /\ values !! (k - i)%nat = Some v /\ strict_eq v x = true
      /\ forall j u, (j < k - i)%nat -> values !! j = Some u ->
                     strict_eq u x = false.
Proof.
  induction values as [|v values IH]; intros i k Hk; [discriminate|].
  simpl in Hk. destruct (strict_eq v x) eqn:E.
  - injection Hk as <-. exists v. rewrite Nat.sub_diag.
    split; [lia|]. split; [reflexivity|]. split; [exact E|]. intros j u Hj. lia.
  - destruct (IH _ _ Hk) as (w & Hle & Hw & Hx & Hbefore).
    exists w. split; [lia|].
    replace (k - i)%nat with (S (k - S i)) by lia.
    split; [exact Hw|]. split; [exact Hx|].
    intros [|j] u Hj Hu.
    + injection Hu as <-. exact E.
    + apply (Hbefore j u); [lia | exact Hu].
Qed.

Lemma indexOf_some (values : list number) (x : number) :
  Exists (fun v => strict_eq v x = true) values ->
  forall i, is_Some (indexOf values x i).
Proof.
  induction 1 as [v values Hv | v values _ IH]; intros i; simpl.
  - rewrite Hv. eexists; reflexivity.
  - destruct (strict_eq v x); [eexists; reflexivity | apply IH].
Qed.

(** X24. The label of the network is the index of the first greatest output:
    no output is greater and the outputs before it are smaller; the shape
    is circle exactly when that index is 0, so a tie goes to the circle.
    When an output is [NaN], or when there is none, no index is found, the
    confidence is [undefined] and the shape is triangle. *)
Theorem model_label_first_greatest (values : list number) :
  (values = [] \/ Exists (fun v => is_NaN v = true) values ->
   model_label values = (None, None, triangle))
  /\ (values <> [] -> Forall (fun v => is_NaN v = false) values ->
      exists i v,
        model_label values
        = (Some i, Some v, match i with O => circle | _ => triangle end)
        /\ values !! i = Some v
        /\ Forall (fun u => num_gt u v = false) values
        /\ forall j u, (j < i)%nat -> values !! j = Some u ->
                       num_gt v u = true).
Proof.
  split.
  - intros [-> | Hnan]; [reflexivity|].
    unfold model_label, Math_max. rewrite (Math_max_NaN values Hnan NInf).
    rewrite indexOf_NaN. reflexivity.
  - intros Hne Hnum.
    destruct (Math_max_fold values Hnum NInf eq_refl) as (Hm & _ & Hall & Hor).
    fold (Math_max values) in Hm, Hall, Hor.
    assert (Hin : Exists (fun v => strict_eq v (Math_max values) = true) values).
    { destruct Hor as [Heq | Hin].
      - destruct values as [|v values]; [contradiction|].
        apply Exists_cons. left. rewrite Heq in Hall |- *.
        apply Forall_cons in Hall as [Hv _]. apply Forall_cons in Hnum as [Hn _].
        destruct v; try discriminate; reflexivity.
      - apply Exists_exists. exists (Math_max values).
        split; [exact Hin | apply strict_eq_refl, Hm]. }
    destruct (indexOf_some values _ Hin 0) as [i Hi].
    destruct (indexOf_found values _ 0 i Hi) as (v & _ & Hv & Heq & Hbefore).
    rewrite Nat.sub_0_r in Hv, Hbefore.
    exists i, v. split; [|split; [exact Hv|split]].
    + unfold model_label. rewrite Hi, Hv. destruct i; reflexivity.
    + eapply Forall_impl; [exact Hall|]. intros u Hu. simpl in Hu.
      rewrite (proj1 (strict_eq_gt _ _ u Heq)). exact Hu.
    + intros j u Hj Hu.
      rewrite (proj2 (strict_eq_gt _ _ u Heq)).
      rewrite Forall_forall in Hall, Hnum.
      assert (Huin : u ∈ values) by (eapply list_elem_of_lookup_2; exact Hu).
      apply strict_eq_false; [apply Hnum, Huin | exact Hm | | apply Hall, Huin].
      apply (Hbefore j u Hj Hu).
Qed.

Lemma model_label_first_greatest_witness :
  model_label [NaN; Fin 1] = (None, None, triangle)
  /\ exists v, model_label [Fin (1 # 2); Fin (1 # 2)]
               = (Some 0%nat, Some v, circle).
Proof.
  split.
  - apply (proj1 (model_label_first_greatest [NaN; Fin 1])).
    right. left. reflexivity.
  - destruct (proj2 (model_label_first_greatest [Fin (1 # 2); Fin (1 # 2)]))
      as (i & v & Hl & _); [discriminate | repeat constructor |].
    exists v. rewrite Hl.
    assert (Hi : i = 0%nat).
    { vm_compute in Hl. injection Hl as <- _. reflexivity. }
    rewrite Hi. reflexivity.
Defined.

(** ** The fallback of [predict] *)

(** X25. Without a network, [predict] reports the shape and the confidence
    of [detectShape] on the canvas; the result is marked as coming from the
    detector exactly when the shape is a circle or a triangle; and the
    percentage that [displayPrediction] shows is a whole number from 0 to
    100. *)
Theorem predict_fallback_result `{MathRuntime} (cv : canvas) :
  exists r,
    detectShape cv = Some r
    /\ predicted_shape (predict_fallback cv) = detectedShape r
    /\ predicted_confidence (predict_fallback cv) = confidence r
    /\ (predicted_source (predict_fallback cv) = Some source_cv
        <-> detectedShape r <> unknown)
    /\ exists n : Z,
         displayed_percent (predict_fallback cv) = Fin (inject_Z n)
         /\ 0 <= n <= 100.
Proof.
  destruct (detectShape_outcome cv) as (r & Hr & Hconf & Hunknown).
  exists r. split; [exact Hr|].
  unfold predict_fallback, detectShapeWithCV. rewrite Hr. cbn [fst snd].
  assert (Hpercent : forall c, num_between 0 1 c ->
            exists n : Z, Math_round (num_mul c (Fin 100)) = Fin (inject_Z n)
                          /\ 0 <= n <= 100).
  { intros [| | |q] Hq; simpl in Hq; try contradiction.
    exists (Qfloor (q * 100 + (1 # 2))). split; [reflexivity|].
    destruct Hq as [H0 H1]. split.
    - assert (Hle : (inject_Z 0 <= q * 100 + (1 # 2))%Q)
        by (change (inject_Z 0) with 0%Q; lra).
      apply Qfloor_resp_le in Hle. rewrite Qfloor_Z in Hle. exact Hle.
    - assert (Hle : (q * 100 + (1 # 2) <= inject_Z 100 + (1 # 2))%Q)
        by (change (inject_Z 100) with 100%Q; lra).
      apply Qfloor_resp_le in Hle.
      assert (Hf : Qfloor (inject_Z 100 + (1 # 2)) = 100) by reflexivity.
      rewrite Hf in Hle. exact Hle. }
  destruct (detectedShape r) eqn:Hs; cbn [predicted_shape predicted_confidence
                                           predicted_source];
    unfold displayed_percent; cbn [predicted_confidence].
  - repeat split; try reflexivity; try discriminate. apply Hpercent, Hconf.
  - repeat split; try reflexivity; try discriminate. apply Hpercent, Hconf.
  - rewrite (Hunknown eq_refl).
    split; [reflexivity|]. split; [reflexivity|].
    split; [split; [discriminate | intros Hne; contradiction]|].
    apply Hpercent. simpl. split; lra.
Qed.

(** ** The turn test and points in one direction *)

(** X26. [isCounterClockwise] depends on the cyclic order of its three
    points only and not on where they lie: it is the same for the points
    taken from the second on, and for the points moved by [d].  Exchanging
    two points of a counter-clockwise turn gives a turn that is not, and
    three points two of which are one point never make such a turn. *)
Theorem isCounterClockwise_orientation (p1 p2 p3 d : point) :
  isCounterClockwise p2 p3 p1 = isCounterClockwise p1 p2 p3
  /\ isCounterClockwise (p1.1 + d.1, p1.2 + d.2) (p2.1 + d.1, p2.2 + d.2)
                        (p3.1 + d.1, p3.2 + d.2)
     = isCounterClockwise p1 p2 p3
  /\ (isCounterClockwise p1 p2 p3 = true ->
      isCounterClockwise p1 p3 p2 = false)
  /\ isCounterClockwise p1 p1 p3 = false
  /\ isCounterClockwise p1 p2 p2 = false
  /\ isCounterClockwise p1 p2 p1 = false.
Proof.
  destruct p1 as [x1 y1], p2 as [x2 y2], p3 as [x3 y3], d as [dx dy].
  unfold isCounterClockwise. simpl. repeat split.
  - f_equal. ring.
  - f_equal. ring.
  - rewrite Z.ltb_lt, Z.ltb_ge. lia.
  - apply Z.ltb_ge. lia.
  - apply Z.ltb_ge. lia.
  - apply Z.ltb_ge. lia.
Qed.

Lemma find_start_stays (pts : list point) (i start : nat) (best : point) :
  Forall (fun p => lower p best = false) pts ->
  find_start pts i start best = start.
Proof.
  intros Hall. revert i. induction Hall as [|p pts Hp _ IH]; intros i; simpl.
  - reflexivity.
  - rewrite Hp. apply IH.
Qed.

(** X27. The scan is not the convex hull when points lie in one direction
    from the anchor: of two such points the one that comes later in the
    contour is kept and the other is dropped, also when the one dropped is
    the farther.  For a contour of the anchor [s] and two points [a] and
    [b] in one direction from it the hull is [s] and [b]. *)
Theorem hull_drops_point_in_line (s a b : point) :
  lower a s = false -> lower b s = false -> a <> s -> b <> s ->
  cross (vec s a) (vec s b) = 0 ->
  calculateConvexHull [s; a; b] = (Some [s; a; b], Some [s; b]).
Proof.
  intros Ha Hb Has Hbs Hcross.
  unfold calculateConvexHull.
  rewrite (find_start_stays [a; b] 1 0 s) by (repeat constructor; assumption).
  change (swap_to_front [s; a; b] 0) with [s; a; b]. cbv iota.
  assert (Hcmp : by_polar_angle s a b = Eq).
  { rewrite by_polar_angle_upper by (apply upper_from_anchor; assumption).
    rewrite Hcross. reflexivity. }
  assert (Hsort : sort (by_polar_angle s) [a; b] = [a; b]).
  { unfold sort. simpl. rewrite Hcmp. reflexivity. }
  rewrite Hsort. unfold graham_scan. cbn [foldl].
  assert (Hpop : pop_while [a; s] b = [s]).
  { cbn [pop_while]. rewrite isCounterClockwise_cross, Hcross. reflexivity. }
  rewrite Hpop. reflexivity.
Qed.

Lemma hull_drops_point_in_line_witness :
  calculateConvexHull [(0, 0); (4, 2); (2, 1)]
  = (Some [(0, 0); (4, 2); (2, 1)], Some [(0, 0); (2, 1)]).
Proof.
  apply (hull_drops_point_in_line (0, 0) (4, 2) (2, 1));
    first [reflexivity | discriminate].
Defined.

(** ** Grey pixels *)

Lemma clamped_luminance_alpha (r g b a : Z) :
  clamped_luminance r g b a
  = clamped_luminance r g b (if 200 <? a then 255 else 0).
Proof.
  unfold clamped_luminance, luminance. destruct (200 <? a); reflexivity.
Qed.

Lemma gray_at_grey (data : list Z) (k : nat) (g a : Z) :
  data !! (4 * k)%nat = Some g ->
  data !! (4 * k + 1)%nat = Some g ->
  data !! (4 * k + 2)%nat = Some g ->
  data !! (4 * k + 3)%nat = Some a ->
  gray_at data k = grey_level g (200 <? a).
Proof.
  intros Hr Hg Hb Ha.
  rewrite (gray_at_pixel _ k g g g a Hr Hg Hb Ha), clamped_luminance_alpha.
  unfold grey_level. destruct (200 <? a); reflexivity.
Qed.

(** The 256 grey levels, one by one. *)
Lemma grey_levels (boosted : bool) :
  forallb (fun g => Bool.eqb (CONFIG.thresholdValue <? grey_level g boosted)
                             (if boosted then 5 <=? g else 6 <=? g))
          (seqZ 0 256) = true.
Proof. destruct boosted; vm_compute; reflexivity. Qed.

(** X28. A grey pixel, [R = G = B = g], is foreground from [g = 6] on when
    its alpha is at most 200, and from [g = 5] on when its alpha is above
    200.  The grey 4 with the boost is background although 1.5 times 4 is
    6: its luminance, computed in binary64, is 5.999999999999999. *)
Theorem grey_pixel_foreground (cv : canvas) (k : nat) (g a : Z) :
  (k < canvas_width cv * canvas_height cv)%nat ->
  canvas_data cv !! (4 * k)%nat = Some g ->
  canvas_data cv !! (4 * k + 1)%nat = Some g ->
  canvas_data cv !! (4 * k + 2)%nat = Some g ->
  canvas_data cv !! (4 * k + 3)%nat = Some a ->
  0 <= g <= 255 ->
  binarize cv !! k
  = Some (if (if 200 <? a then 5 <=? g else 6 <=? g) then 255 else 0).
Proof.
  intros Hk Hr Hg Hb Ha Hrange.
  unfold binarize, threshold_image, grayscale.
  rewrite !list_lookup_fmap, lookup_seq_lt by exact Hk.
  cbn [fmap option_fmap option_map Nat.add].
  rewrite (gray_at_grey _ k g a Hr Hg Hb Ha).
  pose proof (grey_levels (200 <? a)) as Hall.
  rewrite forallb_forall in Hall.
  specialize (Hall g). rewrite Bool.eqb_true_iff in Hall.
  rewrite Hall; [reflexivity|].
  apply list_elem_of_In, elem_of_seqZ. lia.
Qed.

Lemma grey_pixel_foreground_witness :
  binarize dark_grey_pixel !! 0%nat = Some 0.
Proof.
  apply (grey_pixel_foreground dark_grey_pixel 0 4 255);
    first [reflexivity | lia | (simpl; lia)].
Defined.
